(** * Run reports and module resolution of terragrunt: a shallow embedding

    The development follows two packages of the repository:

    - [internal/report] (the run report: [Report], [Run], [Summary] and the
      summary / CSV writers), and
    - [configstack] (the [DefaultStack] resolver of external dependencies
      and [ListStackDependentModules]).

    Go pointers are addresses into an explicit store, Go maps are [gmap]s
    (with the iteration order supplied from outside where the code ranges
    over a map), [time.Time] is an instant in nanoseconds together with a
    zone offset, and strings are byte strings. *)

From Stdlib Require Import ZArith Lia Ascii String DecimalString.
From stdpp Require Import base option list strings gmap fin_maps sorting.

Local Open Scope string_scope.
Local Open Scope list_scope.
Local Open Scope Z_scope.

(** ** The pieces of the Go library the report package relies on *)

(** [time.Time]: the instant (nanoseconds since January 1, year 1, 00:00 UTC,
    the zero value of the type) and the offset of its location in seconds
    east of UTC.  Only [Format] looks at the location. *)
Record Time := mkTime { instant : Z; zoneOffset : Z }.

Definition zeroTime : Time := mkTime 0 0.

Definition Time_Before (t u : Time) : bool := instant t <? instant u.
Definition Time_After (t u : Time) : bool := instant u <? instant t.

Definition Time_Compare (t u : Time) : Z :=
  if instant t <? instant u then -1
  else if instant u <? instant t then 1 else 0.

(** [time.Duration] is an int64 count of nanoseconds; [Time.Sub] saturates. *)
Definition minDuration : Z := - 2 ^ 63.
Definition maxDuration : Z := 2 ^ 63 - 1.

Definition Time_Sub (t u : Time) : Z :=
  let d := instant t - instant u in
  if d <? minDuration then minDuration
  else if maxDuration <? d then maxDuration else d.

(** [filepath.IsAbs] on Unix: the path starts with a slash. *)
Definition IsAbs (path : string) : bool :=
  match path with
  | String c _ => Ascii.eqb c "/"%char
  | EmptyString => false
  end.

(** ** The data model of the report package *)

Definition Result := string.
Definition Reason := string.
Definition Cause := string.

Definition ResultSucceeded : Result := "succeeded".
Definition ResultFailed : Result := "failed".
Definition ResultEarlyExit : Result := "early exit".
Definition ResultExcluded : Result := "excluded".

Definition ReasonRetrySucceeded : Reason := "retry succeeded".
Definition ReasonErrorIgnored : Reason := "error ignored".
Definition ReasonRunError : Reason := "run error".
Definition ReasonExcludeDir : Reason := "--exclude-dir".
Definition ReasonExcludeBlock : Reason := "exclude block".
Definition ReasonEarlyExit : Reason := "early exit".

Module Run.
(** The struct [Run]; the mutex is left out, calls are sequential here. *)
Record t := mk
  { Started : Time;
    Ended : Time;
    Reason : option Reason;
    Cause : option Cause;
    Name : string;
    Result : Result }.

Definition setEnded (v : Time) (r : t) : t :=
  mk (Started r) v (Reason r) (Cause r) (Name r) (Result r).
Definition setResult (v : string) (r : t) : t :=
  mk (Started r) (Ended r) (Reason r) (Cause r) (Name r) v.
Definition setReason (v : option string) (r : t) : t :=
  mk (Started r) (Ended r) v (Cause r) (Name r) (Result r).
Definition setCause (v : option string) (r : t) : t :=
  mk (Started r) (Ended r) (Reason r) v (Name r) (Result r).
End Run.

(** A [*Run] is an address; the store maps every address to the struct it
    points to.  [Report.Runs] is a slice of such addresses, so two entries
    of a report may alias. *)
Definition ptr := nat.
Definition Store := ptr -> Run.t.

Definition store_set (h : Store) (p : ptr) (v : Run.t) : Store :=
  fun q => if Nat.eqb q p then v else h q.

Record Report := mkReport { Runs : list ptr; shouldColor : bool }.

Definition setRuns (runs : list ptr) (r : Report) : Report :=
  mkReport runs (shouldColor r).

Inductive error :=
| ErrPathMustBeAbsolute
| ErrRunAlreadyExists (name : string)
| ErrRunNotFound (path : string)
| ErrWrapped (msg : string) (inner : error)
| ErrIO (what : string).

Definition NewReport : Report := mkReport [] true.

Definition WithDisableColor (r : Report) : Report := mkReport (Runs r) false.

(** [NewRun]: the struct the fresh pointer refers to, or the error. *)
Definition NewRun (now : Time) (path : string) : Run.t + error :=
  if negb (IsAbs path) then inr ErrPathMustBeAbsolute
  else inl (Run.mk now zeroTime None None path "").

(** The loop of [GetRun] and [EndRun]: the first run with the given name. *)
Fixpoint findRun (h : Store) (path : string) (runs : list ptr) : option ptr :=
  match runs with
  | [] => None
  | existingRun :: rest =>
      if String.eqb (Run.Name (h existingRun)) path then Some existingRun
      else findRun h path rest
  end.

Definition AddRun (h : Store) (r : Report) (run : ptr) : Report * option error :=
  match findRun h (Run.Name (h run)) (Runs r) with
  | Some _ => (r, Some (ErrRunAlreadyExists (Run.Name (h run))))
  | None => (setRuns (Runs r ++ [run]) r, None)
  end.

Definition GetRun (h : Store) (r : Report) (path : string) : ptr + error :=
  if negb (IsAbs path) then inr ErrPathMustBeAbsolute
  else match findRun h path (Runs r) with
       | Some run => inl run
       | None => inr (ErrRunNotFound path)
       end.

(** [EndOption] is a function taking a [Run] pointer: a transformer of the
    struct behind the pointer it is handed. *)
Definition EndOption := Run.t -> Run.t.

Definition WithResult (result : Result) : EndOption := Run.setResult result.
Definition WithReason (reason : Reason) : EndOption := Run.setReason (Some reason).
Definition withCause (name : string) : EndOption := Run.setCause (Some name).
Definition WithCauseRetryBlock := withCause.
Definition WithCauseIgnoreBlock := withCause.
Definition WithCauseExcludeBlock := withCause.
Definition WithCauseAncestorExit := withCause.

Definition applyEndOptions (endOptions : list EndOption) (run : Run.t) : Run.t :=
  fold_left (fun acc endOption => endOption acc) endOptions run.

Definition EndRun (now : Time) (h : Store) (r : Report) (path : string)
    (endOptions : list EndOption) : Store * option error :=
  if negb (IsAbs path) then (h, Some ErrPathMustBeAbsolute)
  else match findRun h path (Runs r) with
       | None => (h, Some (ErrRunNotFound path))
       | Some run =>
           let ended := Run.setResult ResultSucceeded (Run.setEnded now (h run)) in
           (store_set h run (applyEndOptions endOptions ended), None)
       end.

(** A sequence of [AddRun] calls on one report, whatever each call returns. *)
Definition AddRuns (h : Store) (r : Report) (runs : list ptr) : Report :=
  fold_left (fun acc run => fst (AddRun h acc run)) runs r.

Definition runNames (h : Store) (r : Report) : list string :=
  map (fun p => Run.Name (h p)) (Runs r).

(** ** Lemmas on the run list *)

Section FindRun.
Variable h : Store.

Lemma findRun_None path runs :
  findRun h path runs = None <-> ∀ p, p ∈ runs → Run.Name (h p) ≠ path.
Proof.
  induction runs as [|q runs IH]; simpl.
  - split; [intros _ p Hp; inversion Hp | done].
  - destruct (String.eqb_spec (Run.Name (h q)) path) as [Heq|Hne].
    + split; [done | intros H; destruct (H q); [left | done]].
    + rewrite IH. split.
      * intros H p Hp. apply elem_of_cons in Hp as [->|Hp]; auto.
      * intros H p Hp. apply H. by right.
Qed.

Lemma findRun_Some path runs p :
  findRun h path runs = Some p ->
  ∃ before after, runs = before ++ p :: after
    ∧ Run.Name (h p) = path
    ∧ ∀ q, q ∈ before → Run.Name (h q) ≠ path.
Proof.
  induction runs as [|q runs IH]; simpl; [done|].
  destruct (String.eqb_spec (Run.Name (h q)) path) as [Heq|Hne].
  - intros [= <-]. exists [], runs. split_and!; [done | done |].
    intros q' Hq'. inversion Hq'.
  - intros Hf. destruct (IH Hf) as (b & a & -> & Hn & Hb).
    exists (q :: b), a. split_and!; [done | done |].
    intros q' Hq'. apply elem_of_cons in Hq' as [->|Hq']; auto.
Qed.

Lemma AddRun_names_NoDup r run :
  NoDup (runNames h r) -> NoDup (runNames h (fst (AddRun h r run))).
Proof.
  intros Hnd. unfold AddRun.
  destruct (findRun h (Run.Name (h run)) (Runs r)) eqn:Hf; simpl; [done|].
  unfold runNames; simpl. rewrite map_app. simpl.
  apply NoDup_app. split_and!; [done | | apply NoDup_singleton].
  intros x Hx Hx'. apply list_elem_of_singleton in Hx' as ->.
  apply list_elem_of_fmap in Hx as (p & Hn & Hp).
  eapply findRun_None in Hf; [|exact Hp]. by apply Hf.
Qed.

Lemma AddRuns_names_NoDup runs r :
  NoDup (runNames h r) -> NoDup (runNames h (AddRuns h r runs)).
Proof.
  revert r. induction runs as [|run runs IH]; intros r Hnd; simpl; [done|].
  apply IH. by apply AddRun_names_NoDup.
Qed.
End FindRun.

(** ** Claims on the registry *)

(** C1. [AddRun] either finds a run of the same name, returns
    [RunAlreadyExists] and leaves the report as it is, or finds none and
    appends the run; hence after any sequence of [AddRun] calls on a new
    report no name occurs twice. *)
Theorem AddRun_appends_or_rejects :
  ∀ (h : Store) (r : Report) (run : ptr),
    (((∃ e, e ∈ Runs r ∧ Run.Name (h e) = Run.Name (h run))
      ∧ AddRun h r run = (r, Some (ErrRunAlreadyExists (Run.Name (h run)))))
     ∨ ((∀ e, e ∈ Runs r → Run.Name (h e) ≠ Run.Name (h run))
        ∧ AddRun h r run = (mkReport (Runs r ++ [run]) (shouldColor r), None)))
    ∧ ∀ runs : list ptr, NoDup (runNames h (AddRuns h NewReport runs)).
Proof.
  intros h r run. split.
  - unfold AddRun. destruct (findRun h (Run.Name (h run)) (Runs r)) eqn:Hf.
    + left. apply findRun_Some in Hf as (b & a & Hr & Hn & _).
      split; [|done]. exists p. split; [|done].
      rewrite Hr. apply elem_of_app. right. by left.
    + right. split; [|done]. by apply findRun_None.
  - intros runs. apply AddRuns_names_NoDup. apply NoDup_nil_2.
Qed.

(** ** Ending a run *)

Lemma applyEndOptions_app (xs ys : list EndOption) (run : Run.t) :
  applyEndOptions (xs ++ ys) run = applyEndOptions ys (applyEndOptions xs run).
Proof. unfold applyEndOptions. by rewrite fold_left_app. Qed.

Lemma applyEndOptions_keeps {A} (field : Run.t -> A) (opts : list EndOption) :
  (∀ o, o ∈ opts → ∀ x, field (o x) = field x) ->
  ∀ run, field (applyEndOptions opts run) = field run.
Proof.
  induction opts as [|o opts IH]; intros Hk run; [done|].
  change (field (applyEndOptions opts (o run)) = field run).
  rewrite IH; [apply Hk; by left|].
  intros o' Ho'. apply Hk. by right.
Qed.

(** The options the package exports leave [Ended] alone, and only
    [WithResult] writes [Result]. *)
Lemma WithResult_Ended res x : Run.Ended (WithResult res x) = Run.Ended x.
Proof. done. Qed.
Lemma WithReason_Ended rs x : Run.Ended (WithReason rs x) = Run.Ended x.
Proof. done. Qed.
Lemma withCause_Ended c x : Run.Ended (withCause c x) = Run.Ended x.
Proof. done. Qed.
Lemma WithReason_Result rs x : Run.Result (WithReason rs x) = Run.Result x.
Proof. done. Qed.
Lemma withCause_Result c x : Run.Result (withCause c x) = Run.Result x.
Proof. done. Qed.

Lemma store_set_eq h p v : store_set h p v p = v.
Proof. unfold store_set. by rewrite Nat.eqb_refl. Qed.

Lemma store_set_ne h p v q : q ≠ p -> store_set h p v q = h q.
Proof. unfold store_set. intros Hne. by apply Nat.eqb_neq in Hne as ->. Qed.

(** C6. [EndRun] on a path that is not absolute returns [PathMustBeAbsolute],
    on an absolute path no run is named after returns [RunNotFound], and in
    both cases the store of runs is the one it was given.  Otherwise it
    takes the first run of that name, writes [now] to [Ended] and
    [succeeded] to [Result], then applies the options in order, and touches
    no other run: [Ended] stays [now] when no option writes it, [Result]
    stays [succeeded] when no option writes it, and is the result of the
    last [WithResult] otherwise. *)
Theorem EndRun_spec :
  ∀ (now : Time) (h : Store) (r : Report) (path : string)
    (endOptions : list EndOption),
    (IsAbs path = false
      ∧ EndRun now h r path endOptions = (h, Some ErrPathMustBeAbsolute))
    ∨ (IsAbs path = true
      ∧ (∀ p, p ∈ Runs r → Run.Name (h p) ≠ path)
      ∧ EndRun now h r path endOptions = (h, Some (ErrRunNotFound path)))
    ∨ (IsAbs path = true
      ∧ ∃ (run : ptr) (h' : Store),
          EndRun now h r path endOptions = (h', None)
          ∧ run ∈ Runs r ∧ Run.Name (h run) = path
          ∧ findRun h path (Runs r) = Some run
          ∧ h' run = applyEndOptions endOptions
                       (Run.setResult ResultSucceeded (Run.setEnded now (h run)))
          ∧ (∀ q, q ≠ run → h' q = h q)
          ∧ ((∀ o, o ∈ endOptions → ∀ x, Run.Ended (o x) = Run.Ended x) →
             Run.Ended (h' run) = now)
          ∧ ((∀ o, o ∈ endOptions → ∀ x, Run.Result (o x) = Run.Result x) →
             Run.Result (h' run) = ResultSucceeded)
          ∧ (∀ res before after,
               endOptions = before ++ WithResult res :: after →
               (∀ o, o ∈ after → ∀ x, Run.Result (o x) = Run.Result x) →
               Run.Result (h' run) = res)).
Proof.
  intros now h r path opts. unfold EndRun.
  destruct (IsAbs path) eqn:Habs; simpl; [|by left].
  right. destruct (findRun h path (Runs r)) as [run|] eqn:Hf.
  - right. split; [done|].
    pose proof (findRun_Some h _ _ _ Hf) as (b & a & Hr & Hn & _).
    eexists run, _. split; [reflexivity|].
    rewrite store_set_eq. split_and!; try done.
    + rewrite Hr. apply elem_of_app. right. by left.
    + intros q Hq. by apply store_set_ne.
    + intros Hk. by rewrite (applyEndOptions_keeps Run.Ended).
    + intros Hk. by rewrite (applyEndOptions_keeps Run.Result).
    + intros res before after -> Hk.
      rewrite applyEndOptions_app.
      change (WithResult res :: after) with ([WithResult res] ++ after).
      rewrite applyEndOptions_app.
      by rewrite (applyEndOptions_keeps Run.Result).
  - left. split; [done|]. split; [|done]. by apply findRun_None.
Qed.


(** ** Summaries *)

(** The struct [Summary].  [firstRunStart] and [lastRunEnd] are pointers
    into the [Started] and [Ended] fields of a run, so they are kept as the
    address of that run; the counters are Go ints. *)
Record Summary := mkSummary
  { firstRunStart : option ptr;
    lastRunEnd : option ptr;
    padder : string;
    TotalUnits : Z;
    UnitsSucceeded : Z;
    UnitsFailed : Z;
    EarlyExits : Z;
    Excluded : Z;
    summaryShouldColor : bool }.

Definition Update (h : Store) (s : Summary) (run : ptr) : Summary :=
  let res := Run.Result (h run) in
  let succeeded := UnitsSucceeded s + (if String.eqb res ResultSucceeded then 1 else 0) in
  let failed :=
    UnitsFailed s + (if String.eqb res ResultSucceeded then 0
                     else if String.eqb res ResultFailed then 1 else 0) in
  let exits :=
    EarlyExits s + (if String.eqb res ResultSucceeded then 0
                    else if String.eqb res ResultFailed then 0
                    else if String.eqb res ResultEarlyExit then 1 else 0) in
  let excluded :=
    Excluded s + (if String.eqb res ResultSucceeded then 0
                  else if String.eqb res ResultFailed then 0
                  else if String.eqb res ResultEarlyExit then 0
                  else if String.eqb res ResultExcluded then 1 else 0) in
  let first :=
    match firstRunStart s with
    | None => Some run
    | Some p =>
        if Time_Before (Run.Started (h run)) (Run.Started (h p)) then Some run
        else Some p
    end in
  let last :=
    match lastRunEnd s with
    | None => Some run
    | Some p =>
        if Time_After (Run.Ended (h run)) (Run.Ended (h p)) then Some run
        else Some p
    end in
  mkSummary first last (padder s) (TotalUnits s) succeeded failed exits excluded
    (summaryShouldColor s).

(** [Summarize]; [envPadder] is what [os.Getenv] returns for
    [TMP_UNDOCUMENTED_REPORT_PADDER] (empty when unset). *)
Definition Summarize (h : Store) (envPadder : string) (r : Report) : Summary :=
  let summary :=
    mkSummary None None (if String.eqb envPadder "" then " " else envPadder)
      (Z.of_nat (length (Runs r))) 0 0 0 0 (shouldColor r) in
  match Runs r with
  | [] => summary
  | _ => fold_left (Update h) (Runs r) summary
  end.

Definition TotalDuration (h : Store) (s : Summary) : Z :=
  match firstRunStart s, lastRunEnd s with
  | Some first, Some last => Time_Sub (Run.Ended (h last)) (Run.Started (h first))
  | _, _ => 0
  end.

(** The number of runs of a report with a given result. *)
Definition countResult (h : Store) (res : Result) (runs : list ptr) : Z :=
  Z.of_nat (length (filter (λ p, Run.Result (h p) = res) runs)).

Section SummarizeLemmas.
Variable h : Store.

Let started (p : ptr) : Z := instant (Run.Started (h p)).
Let ended (p : ptr) : Z := instant (Run.Ended (h p)).

Lemma countResult_cons res p runs :
  countResult h res (p :: runs)
  = (if String.eqb (Run.Result (h p)) res then 1 else 0) + countResult h res runs.
Proof.
  unfold countResult. rewrite filter_cons.
  destruct (String.eqb_spec (Run.Result (h p)) res) as [He|Hne];
    destruct (decide (Run.Result (h p) = res)); try done; simpl length; lia.
Qed.

Lemma fold_Update_counts runs s :
  let s' := fold_left (Update h) runs s in
  TotalUnits s' = TotalUnits s
  ∧ UnitsSucceeded s' = UnitsSucceeded s + countResult h ResultSucceeded runs
  ∧ UnitsFailed s' = UnitsFailed s + countResult h ResultFailed runs
  ∧ EarlyExits s' = EarlyExits s + countResult h ResultEarlyExit runs
  ∧ Excluded s' = Excluded s + countResult h ResultExcluded runs
  ∧ padder s' = padder s ∧ summaryShouldColor s' = summaryShouldColor s.
Proof.
  revert s. induction runs as [|p runs IH]; intros s; simpl.
  - unfold countResult; simpl. split_and!; lia || done.
  - destruct (IH (Update h s p)) as (H1 & H2 & H3 & H4 & H5 & H6 & H7).
    rewrite H1, H2, H3, H4, H5, H6, H7, !countResult_cons. simpl.
    destruct (String.eqb_spec (Run.Result (h p)) ResultSucceeded) as [->|?];
    [|destruct (String.eqb_spec (Run.Result (h p)) ResultFailed) as [->|?];
      [|destruct (String.eqb_spec (Run.Result (h p)) ResultEarlyExit) as [->|?];
        [|destruct (String.eqb_spec (Run.Result (h p)) ResultExcluded) as [?|?]]]];
    simpl; split_and!; lia || done.
Qed.

Lemma fold_Update_first runs s :
  match firstRunStart (fold_left (Update h) runs s) with
  | None => firstRunStart s = None ∧ runs = []
  | Some p =>
      (firstRunStart s = Some p ∨ p ∈ runs)
      ∧ (∀ x, x ∈ runs → started p ≤ started x)
      ∧ (∀ p0, firstRunStart s = Some p0 → started p ≤ started p0)
  end.
Proof.
  revert s. induction runs as [|q runs IH]; intros s; simpl.
  - destruct (firstRunStart s) as [p|] eqn:E; [|done].
    split_and!; [by left | intros x Hx; inversion Hx | intros p0 [= ->]; lia].
  - specialize (IH (Update h s q)).
    destruct (firstRunStart (fold_left (Update h) runs (Update h s q))) as [p|].
    + destruct IH as (Hin & Hmin & Hle). simpl in Hin, Hle.
      unfold Time_Before in *.
      destruct (firstRunStart s) as [p0|] eqn:E.
      * destruct (Z.ltb_spec (instant (Run.Started (h q)))
                   (instant (Run.Started (h p0)))) as [Hlt|Hge].
        -- specialize (Hle q eq_refl). split_and!.
           ++ right. destruct Hin as [[= <-]|Hin]; [by left | by right].
           ++ intros x Hx. apply elem_of_cons in Hx as [->|Hx]; auto.
           ++ intros p1 [= <-]. unfold started in *. lia.
        -- specialize (Hle p0 eq_refl). split_and!.
           ++ destruct Hin as [[= <-]|Hin]; [by left | right; by right].
           ++ intros x Hx. apply elem_of_cons in Hx as [->|Hx]; auto.
              unfold started in *. lia.
           ++ intros p1 [= <-]. done.
      * specialize (Hle q eq_refl). split_and!.
        -- right. destruct Hin as [[= <-]|Hin]; [by left | by right].
        -- intros x Hx. apply elem_of_cons in Hx as [->|Hx]; auto.
        -- done.
    + destruct IH as [Hn _]. simpl in Hn.
      destruct (firstRunStart s); [destruct (Time_Before _ _)|]; done.
Qed.

Lemma fold_Update_last runs s :
  match lastRunEnd (fold_left (Update h) runs s) with
  | None => lastRunEnd s = None ∧ runs = []
  | Some p =>
      (lastRunEnd s = Some p ∨ p ∈ runs)
      ∧ (∀ x, x ∈ runs → ended x ≤ ended p)
      ∧ (∀ p0, lastRunEnd s = Some p0 → ended p0 ≤ ended p)
  end.
Proof.
  revert s. induction runs as [|q runs IH]; intros s; simpl.
  - destruct (lastRunEnd s) as [p|] eqn:E; [|done].
    split_and!; [by left | intros x Hx; inversion Hx | intros p0 [= ->]; lia].
  - specialize (IH (Update h s q)).
    destruct (lastRunEnd (fold_left (Update h) runs (Update h s q))) as [p|].
    + destruct IH as (Hin & Hmax & Hle). simpl in Hin, Hle.
      unfold Time_After in *.
      destruct (lastRunEnd s) as [p0|] eqn:E.
      * destruct (Z.ltb_spec (instant (Run.Ended (h p0)))
                   (instant (Run.Ended (h q)))) as [Hlt|Hge].
        -- specialize (Hle q eq_refl). split_and!.
           ++ right. destruct Hin as [[= <-]|Hin]; [by left | by right].
           ++ intros x Hx. apply elem_of_cons in Hx as [->|Hx]; auto.
           ++ intros p1 [= <-]. unfold ended in *. lia.
        -- specialize (Hle p0 eq_refl). split_and!.
           ++ destruct Hin as [[= <-]|Hin]; [by left | right; by right].
           ++ intros x Hx. apply elem_of_cons in Hx as [->|Hx]; auto.
              unfold ended in *. lia.
           ++ intros p1 [= <-]. done.
      * specialize (Hle q eq_refl). split_and!.
        -- right. destruct Hin as [[= <-]|Hin]; [by left | by right].
        -- intros x Hx. apply elem_of_cons in Hx as [->|Hx]; auto.
        -- done.
    + destruct IH as [Hn _]. simpl in Hn.
      destruct (lastRunEnd s); [destruct (Time_After _ _)|]; done.
Qed.
End SummarizeLemmas.

(** Saturation of a difference of instants to the range of a [Duration]. *)
Definition clampDuration (d : Z) : Z := Z.max minDuration (Z.min maxDuration d).

Lemma Time_Sub_clamp t u : Time_Sub t u = clampDuration (instant t - instant u).
Proof.
  unfold Time_Sub, clampDuration, minDuration, maxDuration.
  repeat match goal with |- context [?a <? ?b] => destruct (Z.ltb_spec a b) end; lia.
Qed.

(** What the claim C5 says of a summary [s] of the runs [runs]: the counts,
    the window, and the total duration as the plain difference. *)
Definition summary_counts (h : Store) (runs : list ptr) (s : Summary) : Prop :=
  TotalUnits s = Z.of_nat (length runs)
  ∧ UnitsSucceeded s = countResult h ResultSucceeded runs
  ∧ UnitsFailed s = countResult h ResultFailed runs
  ∧ EarlyExits s = countResult h ResultEarlyExit runs
  ∧ Excluded s = countResult h ResultExcluded runs.

Definition summary_window (h : Store) (runs : list ptr) (s : Summary)
    (duration : Z -> Z) : Prop :=
  match runs with
  | [] => firstRunStart s = None ∧ lastRunEnd s = None ∧ TotalDuration h s = 0
  | _ =>
      ∃ first last,
        firstRunStart s = Some first ∧ lastRunEnd s = Some last
        ∧ first ∈ runs ∧ last ∈ runs
        ∧ (∀ x, x ∈ runs →
             instant (Run.Started (h first)) ≤ instant (Run.Started (h x)))
        ∧ (∀ x, x ∈ runs →
             instant (Run.Ended (h x)) ≤ instant (Run.Ended (h last)))
        ∧ TotalDuration h s
          = duration (instant (Run.Ended (h last))
                      - instant (Run.Started (h first)))
  end.

(** C5, as amended.  [Summarize] counts the runs and the runs of each
    result, points [firstRunStart] at a run of minimal [Started] and
    [lastRunEnd] at a run of maximal [Ended]; the total duration is their
    difference saturated to the int64 range of a [Duration] (the difference
    itself whenever it fits), and 0 for an empty report. *)
Theorem Summarize_spec :
  ∀ (h : Store) (envPadder : string) (r : Report),
    summary_counts h (Runs r) (Summarize h envPadder r)
    ∧ summary_window h (Runs r) (Summarize h envPadder r) clampDuration.
Proof.
  intros h env r. unfold Summarize, summary_counts, summary_window.
  destruct (Runs r) as [|p runs] eqn:Hr.
  - unfold countResult, TotalDuration; simpl. done.
  - set (s0 := mkSummary _ _ _ _ _ _ _ _ _).
    pose proof (fold_Update_counts h (p :: runs) s0) as (H1 & H2 & H3 & H4 & H5 & _).
    pose proof (fold_Update_first h (p :: runs) s0) as Hf.
    pose proof (fold_Update_last h (p :: runs) s0) as Hl.
    set (s := fold_left (Update h) (p :: runs) s0) in *.
    split.
    + rewrite H1, H2, H3, H4, H5. subst s0; simpl. split_and!; done || lia.
    + destruct (firstRunStart s) as [first|] eqn:Ef; [|by destruct Hf].
      destruct (lastRunEnd s) as [last|] eqn:El; [|by destruct Hl].
      destruct Hf as ([Hf|Hf] & Hmin & _); [done|].
      destruct Hl as ([Hl|Hl] & Hmax & _); [done|].
      exists first, last. split_and!; try done.
      unfold TotalDuration. rewrite Ef, El. apply Time_Sub_clamp.
Qed.

(** The difference is returned as it is whenever it is a [Duration]. *)
Lemma clampDuration_id d : minDuration ≤ d ≤ maxDuration -> clampDuration d = d.
Proof. unfold clampDuration. lia. Qed.

(** C5 as stated fails on a run that was started and not yet ended: its
    [Ended] is the zero time, two thousand years before its [Started], and
    [Time.Sub] saturates.  The run below starts on 2025-01-01T00:00:00Z. *)
Definition startedNotEnded : Store :=
  fun _ => Run.mk (mkTime 63871286400000000000 0) zeroTime None None "/unit" "".

Lemma Summarize_duration_not_difference :
  ¬ summary_window startedNotEnded [0%nat]
      (Summarize startedNotEnded "" (mkReport [0%nat] true)) (fun d => d).
Proof.
  unfold summary_window. intros (first & last & Hf & Hl & _ & _ & _ & _ & Hd).
  vm_compute in Hf, Hl. injection Hf as <-. injection Hl as <-.
  vm_compute in Hd. discriminate Hd.
Qed.


(** ** Rendering a summary *)

(** What a Go call can come to: a value, a returned error, or a panic. *)
Inductive outcome (A : Type) : Type :=
| Ok (a : A)
| Err (e : error)
| Panic (msg : string).
Arguments Ok {A} a.
Arguments Err {A} e.
Arguments Panic {A} msg.

Definition outcome_bind {A B} (f : A -> outcome B) (c : outcome A) : outcome B :=
  match c with
  | Ok a => f a
  | Err e => Err e
  | Panic msg => Panic msg
  end.

#[global] Instance outcome_mbind : MBind outcome := @outcome_bind.
#[global] Instance outcome_mret : MRet outcome := @Ok.

Definition panics {A} (c : outcome A) : Prop := ∃ msg, c = Panic msg.

(** An [io.Writer]: the bytes it has taken so far, and how many more write
    calls it accepts before it starts to return errors ([None]: all). *)
Record Writer := mkWriter { written : string; accepts : option nat }.

Definition Fprintf (w : Writer) (text : string) : outcome Writer :=
  match accepts w with
  | None => Ok (mkWriter (written w +:+ text) None)
  | Some (S n) => Ok (mkWriter (written w +:+ text) (Some n))
  | Some O => Err (ErrIO "write")
  end.

Definition nl : string := String "010"%char "".

(** [len] of a Go string is its length in bytes. *)
Definition len (s : string) : Z := Z.of_nat (String.length s).

(** [strings.Repeat] panics on a negative count. *)
Definition strings_Repeat (s : string) (count : Z) : outcome string :=
  if count <? 0 then Panic "strings: negative Repeat count"
  else Ok (Nat.iter (Z.to_nat count) (fun acc => s +:+ acc) "").

(** [slices.Max] panics on an empty slice. *)
Definition slices_Max (xs : list Z) : outcome Z :=
  match xs with
  | [] => Panic "slices.Max: empty list"
  | x :: rest => Ok (fold_left Z.max rest x)
  end.

(** [strconv.Itoa]. *)
Definition Itoa (n : Z) : string := DecimalString.NilZero.string_of_int (Z.to_int n).

Definition prefix : string := "   ".
Definition runSummaryHeader : string :=
  String "226" (String "157" (String "175"
    (String "226" (String "157" (String "175" " Run Summary"))))).
Definition durationLabel : string := "Duration".
Definition unitsLabel : string := "Units".
Definition successLabel : string := "Succeeded".
Definition failureLabel : string := "Failed".
Definition earlyExitLabel : string := "Early Exits".
Definition excludeLabel : string := "Excluded".
Definition separator : string := ": ".

Definition longestLineLength (s : Summary) : outcome Z :=
  let lengths := [len durationLabel; len unitsLabel] in
  let lengths := if 0 <? UnitsSucceeded s then lengths ++ [len successLabel] else lengths in
  let lengths := if 0 <? UnitsFailed s then lengths ++ [len failureLabel] else lengths in
  let lengths := if 0 <? EarlyExits s then lengths ++ [len earlyExitLabel] else lengths in
  let lengths := if 0 <? Excluded s then lengths ++ [len excludeLabel] else lengths in
  let lengths := map (fun length => length + len prefix) lengths in
  let lengths := map (fun length => length + len separator) lengths in
  slices_Max lengths.

Definition labelLength (label : string) : Z :=
  len prefix + len label + len separator.

Definition padding (s : Summary) (label : string) : outcome string :=
  longest ← longestLineLength s;
  strings_Repeat (padder s) (longest - labelLength label).

Definition writeSummaryHeader (w : Writer) (value : string) : outcome Writer :=
  Fprintf w (value +:+ nl).

(** The arguments of [Fprintf] are evaluated first, so a panic of [padding]
    comes before anything is written. *)
Definition writeSummaryEntry (s : Summary) (w : Writer) (label value : string)
    : outcome Writer :=
  pad ← padding s label;
  Fprintf w (prefix +:+ label +:+ separator +:+ pad +:+ " " +:+ value +:+ nl).

Record Colorizer := mkColorizer
  { headingColorizer : string -> string;
    successColorizer : string -> string;
    failureColorizer : string -> string;
    exitColorizer : string -> string;
    excludeColorizer : string -> string;
    microsecondColorizer : string -> string;
    millisecondColorizer : string -> string;
    secondColorizer : string -> string;
    minuteColorizer : string -> string;
    defaultColorizer : string -> string }.

Section Rendering.
(** [ansi.ColorFunc] of the package mgutz/ansi, and the float conversions
    [int(d.Seconds())] and [int(d.Minutes())] of a duration, are taken as
    they come. *)
Variable ansi_ColorFunc : string -> string -> string.
Variable secondsOf : Z -> Z.
Variable minutesOf : Z -> Z.

Definition NewColorizer (shouldColor : bool) : Colorizer :=
  if negb shouldColor then
    mkColorizer id id id id id id id id id id
  else
    mkColorizer (ansi_ColorFunc "yellow+bh") (ansi_ColorFunc "green+bh")
      (ansi_ColorFunc "red+bh") (ansi_ColorFunc "yellow+bh")
      (ansi_ColorFunc "blue+bh") (ansi_ColorFunc "cyan+bh")
      (ansi_ColorFunc "cyan+bh") (ansi_ColorFunc "green+bh")
      (ansi_ColorFunc "yellow+bh") (ansi_ColorFunc "white+bh").

Definition Millisecond : Z := 1000000.
Definition Second : Z := 1000 * Millisecond.
Definition Minute : Z := 60 * Second.

Definition TotalDurationString (h : Store) (s : Summary) (colorizer : Colorizer)
    : string :=
  let duration := TotalDuration h s in
  if duration <? Millisecond then
    microsecondColorizer colorizer
      (Itoa (Z.quot duration 1000) +:+ String "194" (String "181" "s"))
  else if duration <? Second then
    millisecondColorizer colorizer (Itoa (Z.quot duration 1000000) +:+ "ms")
  else if duration <? Minute then
    secondColorizer colorizer (Itoa (secondsOf duration) +:+ "s")
  else
    minuteColorizer colorizer (Itoa (minutesOf duration) +:+ "m").

Definition Write (h : Store) (s : Summary) (w : Writer) : outcome Writer :=
  let colorizer := NewColorizer (summaryShouldColor s) in
  w ← writeSummaryHeader w (headingColorizer colorizer runSummaryHeader);
  w ← writeSummaryEntry s w durationLabel (TotalDurationString h s colorizer);
  w ← writeSummaryEntry s w unitsLabel
        (defaultColorizer colorizer (Itoa (TotalUnits s)));
  w ← (if 0 <? UnitsSucceeded s then
         writeSummaryEntry s w successLabel
           (successColorizer colorizer (Itoa (UnitsSucceeded s)))
       else Ok w);
  w ← (if 0 <? UnitsFailed s then
         writeSummaryEntry s w failureLabel
           (failureColorizer colorizer (Itoa (UnitsFailed s)))
       else Ok w);
  w ← (if 0 <? EarlyExits s then
         writeSummaryEntry s w earlyExitLabel
           (exitColorizer colorizer (Itoa (EarlyExits s)))
       else Ok w);
  w ← (if 0 <? Excluded s then
         writeSummaryEntry s w excludeLabel
           (excludeColorizer colorizer (Itoa (Excluded s)))
       else Ok w);
  Ok w.

(** [WriteSummary]: a line gap, the summary, a line gap. *)
Definition WriteSummary (h : Store) (envPadder : string) (r : Report) (w : Writer)
    : outcome Writer :=
  w ← Fprintf w nl;
  w ← Write h (Summarize h envPadder r) w;
  Fprintf w nl.

(** The labels of the lines [Write] prints for a summary, in order. *)
Definition printedLabels (s : Summary) : list string :=
  [durationLabel; unitsLabel]
  ++ (if 0 <? UnitsSucceeded s then [successLabel] else [])
  ++ (if 0 <? UnitsFailed s then [failureLabel] else [])
  ++ (if 0 <? EarlyExits s then [earlyExitLabel] else [])
  ++ (if 0 <? Excluded s then [excludeLabel] else []).

Lemma longestLineLength_value (s : Summary) :
  ∃ longest, longestLineLength s = Ok longest
    ∧ ∀ label, label ∈ printedLabels s → labelLength label ≤ longest.
Proof.
  unfold longestLineLength, printedLabels, labelLength.
  destruct (0 <? UnitsSucceeded s), (0 <? UnitsFailed s),
    (0 <? EarlyExits s), (0 <? Excluded s); simpl;
    (eexists; split; [reflexivity|]);
    intros label Hl; repeat (apply elem_of_cons in Hl as [->|Hl]);
    try (by inversion Hl); vm_compute; discriminate.
Qed.

Lemma padding_printed (s : Summary) (label : string) :
  label ∈ printedLabels s ->
  ∃ longest, longestLineLength s = Ok longest
    ∧ 0 ≤ longest - labelLength label
    ∧ padding s label
      = Ok (Nat.iter (Z.to_nat (longest - labelLength label))
              (fun acc => padder s +:+ acc) "").
Proof.
  intros Hl. destruct (longestLineLength_value s) as (longest & Hlong & Hle).
  exists longest. specialize (Hle label Hl). split_and!; [done | lia |].
  unfold padding. rewrite Hlong. simpl. unfold strings_Repeat.
  destruct (Z.ltb_spec (longest - labelLength label) 0); [lia | done].
Qed.

Lemma writeSummaryEntry_no_panic s w label value :
  label ∈ printedLabels s -> ¬ panics (writeSummaryEntry s w label value).
Proof.
  intros Hl (msg & Hp). unfold writeSummaryEntry in Hp.
  destruct (padding_printed s label Hl) as (longest & _ & _ & Hpad).
  rewrite Hpad in Hp. simpl in Hp. unfold Fprintf in Hp.
  destruct (accepts w) as [[|n]|]; discriminate.
Qed.

Lemma printed_duration s : durationLabel ∈ printedLabels s.
Proof. unfold printedLabels. set_solver. Qed.
Lemma printed_units s : unitsLabel ∈ printedLabels s.
Proof. unfold printedLabels. set_solver. Qed.
Lemma printed_success s : (0 <? UnitsSucceeded s) = true -> successLabel ∈ printedLabels s.
Proof. unfold printedLabels. intros ->. set_solver. Qed.
Lemma printed_failure s : (0 <? UnitsFailed s) = true -> failureLabel ∈ printedLabels s.
Proof. unfold printedLabels. intros ->. set_solver. Qed.
Lemma printed_earlyExit s : (0 <? EarlyExits s) = true -> earlyExitLabel ∈ printedLabels s.
Proof. unfold printedLabels. intros ->. set_solver. Qed.
Lemma printed_exclude s : (0 <? Excluded s) = true -> excludeLabel ∈ printedLabels s.
Proof. unfold printedLabels. intros ->. set_solver. Qed.

(** One step of [Write]: an entry that does not panic, then the rest. *)
Lemma bind_no_panic {A B} (c : outcome A) (k : A -> outcome B) :
  ¬ panics c -> (∀ a, ¬ panics (k a)) -> ¬ panics (c ≫= k).
Proof.
  intros Hc Hk (msg & Hp). destruct c as [a|e|m]; simpl in Hp.
  - apply (Hk a). by exists msg.
  - discriminate.
  - apply Hc. by exists m.
Qed.

Lemma Ok_no_panic {A} (a : A) : ¬ panics (Ok a).
Proof. intros (msg & Hp). discriminate. Qed.

(** C9. For every summary and every line [Write] prints (Duration, Units
    and each count that is not zero) the repeat count of the padding,
    [longestLineLength] minus the length of prefix, label and separator,
    is not negative; so [padding] returns and [Write] never panics,
    whatever the writer does. *)
Theorem Write_padding_never_negative :
  ∀ (h : Store) (s : Summary),
    (∀ label, label ∈ printedLabels s →
       ∃ longest, longestLineLength s = Ok longest
         ∧ 0 ≤ longest - labelLength label
         ∧ padding s label
           = Ok (Nat.iter (Z.to_nat (longest - labelLength label))
                   (fun acc => padder s +:+ acc) ""))
    ∧ ∀ w : Writer, ¬ panics (Write h s w).
Proof.
  intros h s. split; [apply padding_printed|].
  intros w. unfold Write.
  apply bind_no_panic.
  { unfold writeSummaryHeader, Fprintf. intros (msg & Hp).
    destruct (accepts w) as [[|n]|]; discriminate. }
  intros w1. apply bind_no_panic;
    [apply writeSummaryEntry_no_panic, printed_duration|].
  intros w2. apply bind_no_panic;
    [apply writeSummaryEntry_no_panic, printed_units|].
  intros w3. apply bind_no_panic.
  { destruct (0 <? UnitsSucceeded s) eqn:E; [|apply Ok_no_panic].
    by apply writeSummaryEntry_no_panic, printed_success. }
  intros w4. apply bind_no_panic.
  { destruct (0 <? UnitsFailed s) eqn:E; [|apply Ok_no_panic].
    by apply writeSummaryEntry_no_panic, printed_failure. }
  intros w5. apply bind_no_panic.
  { destruct (0 <? EarlyExits s) eqn:E; [|apply Ok_no_panic].
    by apply writeSummaryEntry_no_panic, printed_earlyExit. }
  intros w6. apply bind_no_panic.
  { destruct (0 <? Excluded s) eqn:E; [|apply Ok_no_panic].
    by apply writeSummaryEntry_no_panic, printed_exclude. }
  intros w7. apply Ok_no_panic.
Qed.
End Rendering.


(** ** Sorting the runs

    [SortRuns] hands the slice of runs to [slices.SortFunc] of the Go
    library, a pattern-defeating quicksort working in place on [data[a:b]].
    The functions below follow the library's generated file
    [zsortanyfunc.go]: same names, same loops, indices as naturals, the slice
    as a list read with a default and written by [swap]. *)

Module Pdqsort.
Section Pdqsort.
Local Open Scope nat_scope.

Context {E : Type}.
Variable d : E.
Variable cmp : E -> E -> Z.

Definition less (x y : E) : bool := (cmp x y <? 0)%Z.

(** [data[i]] and [data[i], data[j] = data[j], data[i]]. *)
Definition at_ (data : list E) (i : nat) : E := nth i data d.

Definition swap (data : list E) (i j : nat) : list E :=
  <[i := at_ data j]> (<[j := at_ data i]> data).

(** The inner loop of insertion sort: [data[j]] sinks towards [a]. *)
Fixpoint insertDown (data : list E) (a j : nat) : list E :=
  match j with
  | O => data
  | S j' =>
      if (a <? j) && less (at_ data j) (at_ data j')
      then insertDown (swap data j j') a j'
      else data
  end.

Definition insertionSortCmpFunc (data : list E) (a b : nat) : list E :=
  foldl (fun data i => insertDown data a i) data (seq (a + 1) (b - (a + 1))).

Fixpoint siftDownCmpFunc (fuel : nat) (data : list E) (lo hi first : nat)
    : list E :=
  match fuel with
  | O => data
  | S fuel' =>
      let root := lo in
      let child := 2 * root + 1 in
      if hi <=? child then data
      else
        let child :=
          if (child + 1 <? hi)
             && less (at_ data (first + child)) (at_ data (first + child + 1))
          then child + 1 else child in
        if negb (less (at_ data (first + root)) (at_ data (first + child)))
        then data
        else siftDownCmpFunc fuel' (swap data (first + root) (first + child))
               child hi first
  end.

Definition heapSortCmpFunc (data : list E) (a b : nat) : list E :=
  let first := a in
  let lo := 0 in
  let hi := b - a in
  let data :=
    foldl (fun data i => siftDownCmpFunc hi data i hi first) data
      (rev (seq 0 ((hi - 1) / 2 + 1))) in
  foldl (fun data i =>
           siftDownCmpFunc hi (swap data first (first + i)) lo i first)
    data (rev (seq 0 hi)).

(** [for i <= j && p(data[i]) { i++ }] and [for i <= j && p(data[j]) { j-- }]. *)
Fixpoint scanUp (p : E -> bool) (fuel : nat) (data : list E) (i j : nat) : nat :=
  match fuel with
  | O => i
  | S fuel' =>
      if (i <=? j) && p (at_ data i) then scanUp p fuel' data (S i) j else i
  end.

Fixpoint scanDown (p : E -> bool) (data : list E) (i j : nat) : nat :=
  match j with
  | O => O
  | S j' =>
      if (i <=? j) && p (at_ data j) then scanDown p data i j' else j
  end.

Fixpoint partitionLoop (up down : E -> bool) (fuel : nat) (data : list E)
    (i j : nat) : list E * nat * nat :=
  match fuel with
  | O => (data, i, j)
  | S fuel' =>
      let i := scanUp up (S j - i) data i j in
      let j := scanDown down data i j in
      if j <? i then (data, i, j)
      else partitionLoop up down fuel' (swap data i j) (i + 1) (j - 1)
  end.

(** The pivot is moved to [data[a]] and the loops work on [data[a+1:b]],
    so the tests [up] and [down] read [data[a]] from the slice as it is
    after that first swap. *)
Definition partitionCmpFunc (data : list E) (a b pivot : nat)
    : list E * nat * bool :=
  let data := swap data a pivot in
  let i := a + 1 in
  let j := b - 1 in
  let up := fun x => less x (at_ data a) in
  let down := fun x => negb (less x (at_ data a)) in
  let i := scanUp up (S j - i) data i j in
  let j := scanDown down data i j in
  if j <? i then (swap data j a, j, true)
  else
    let data := swap data i j in
    let '(data, _, j) := partitionLoop up down (b - a) data (i + 1) (j - 1) in
    (swap data j a, j, false).

Definition partitionEqualCmpFunc (data : list E) (a b pivot : nat)
    : list E * nat :=
  let data := swap data a pivot in
  let i := a + 1 in
  let j := b - 1 in
  let up := fun x => negb (less (at_ data a) x) in
  let down := fun x => less (at_ data a) x in
  let '(data, i, _) := partitionLoop up down (S (b - a)) data i j in
  (data, i).

(** [partialInsertionSortCmpFunc] and its three inner loops. *)
Fixpoint sortedRun (fuel : nat) (data : list E) (i b : nat) : nat :=
  match fuel with
  | O => i
  | S fuel' =>
      if (i <? b) && negb (less (at_ data i) (at_ data (i - 1)))
      then sortedRun fuel' data (S i) b else i
  end.

Fixpoint shiftLeft (data : list E) (j : nat) : list E :=
  match j with
  | O => data
  | S j' =>
      if negb (less (at_ data j) (at_ data j')) then data
      else shiftLeft (swap data j j') j'
  end.

Fixpoint shiftRight (fuel : nat) (data : list E) (j b : nat) : list E :=
  match fuel with
  | O => data
  | S fuel' =>
      if b <=? j then data
      else if negb (less (at_ data j) (at_ data (j - 1))) then data
      else shiftRight fuel' (swap data j (j - 1)) (S j) b
  end.

Definition maxSteps : nat := 5.
Definition shortestShifting : nat := 50.

Fixpoint partialInsertionLoop (steps : nat) (data : list E) (a b i : nat)
    : list E * bool :=
  match steps with
  | O => (data, false)
  | S steps' =>
      let i := sortedRun (b - i) data i b in
      if i =? b then (data, true)
      else if b - a <? shortestShifting then (data, false)
      else
        let data := swap data i (i - 1) in
        let data := if 2 <=? i - a then shiftLeft data (i - 1) else data in
        let data := if 2 <=? b - i then shiftRight (b - i) data (i + 1) b else data in
        partialInsertionLoop steps' data a b i
  end.

Definition partialInsertionSortCmpFunc (data : list E) (a b : nat)
    : list E * bool :=
  partialInsertionLoop maxSteps data a b (a + 1).

(** [bits.Len], [nextPowerOfTwo] and the xorshift generator on uint64. *)
Definition bits_Len (n : nat) : nat :=
  match n with O => O | _ => S (Nat.log2 n) end.

Definition nextPowerOfTwo (length : nat) : Z := Z.shiftl 1 (Z.of_nat (bits_Len length)).

Definition uint64 (z : Z) : Z := z mod 2 ^ 64.

Definition xorshift_Next (r : Z) : Z :=
  let r := Z.lxor r (uint64 (Z.shiftl r 13)) in
  let r := Z.lxor r (Z.shiftr r 7) in
  Z.lxor r (uint64 (Z.shiftl r 17)).

Definition breakPatternsCmpFunc (data : list E) (a b : nat) : list E :=
  let length := b - a in
  if 8 <=? length then
    let modulus := nextPowerOfTwo length in
    let idx := a + (length / 4) * 2 - 1 in
    let step := fun '(data, random) (i : nat) =>
      let random := xorshift_Next random in
      let other := Z.to_nat (Z.land random (modulus - 1)) in
      let other := if length <=? other then other - length else other in
      (swap data (idx - 1 + i) (a + other), random) in
    fst (foldl step (data, Z.of_nat length) [0; 1; 2])
  else data.

Inductive sortedHint := unknownHint | increasingHint | decreasingHint.

(** [order2CmpFunc], [medianCmpFunc], [medianAdjacentCmpFunc]: the counter
    [*swaps] is threaded through. *)
Definition order2CmpFunc (data : list E) (a b swaps : nat) : nat * nat * nat :=
  if less (at_ data b) (at_ data a) then (b, a, S swaps) else (a, b, swaps).

Definition medianCmpFunc (data : list E) (a b c swaps : nat) : nat * nat :=
  let '(a, b, swaps) := order2CmpFunc data a b swaps in
  let '(b, c, swaps) := order2CmpFunc data b c swaps in
  let '(a, b, swaps) := order2CmpFunc data a b swaps in
  (b, swaps).

Definition medianAdjacentCmpFunc (data : list E) (a swaps : nat) : nat * nat :=
  medianCmpFunc data (a - 1) a (a + 1) swaps.

Definition shortestNinther : nat := 50.
Definition maxSwaps : nat := 4 * 3.

Definition choosePivotCmpFunc (data : list E) (a b : nat) : nat * sortedHint :=
  let l := b - a in
  let swaps := 0 in
  let i := a + l / 4 * 1 in
  let j := a + l / 4 * 2 in
  let k := a + l / 4 * 3 in
  let '(j, swaps) :=
    if 8 <=? l then
      let '(i, j, k, swaps) :=
        if shortestNinther <=? l then
          let '(i, swaps) := medianAdjacentCmpFunc data i swaps in
          let '(j, swaps) := medianAdjacentCmpFunc data j swaps in
          let '(k, swaps) := medianAdjacentCmpFunc data k swaps in
          (i, j, k, swaps)
        else (i, j, k, swaps) in
      medianCmpFunc data i j k swaps
    else (j, swaps) in
  if swaps =? 0 then (j, increasingHint)
  else if swaps =? maxSwaps then (j, decreasingHint)
  else (j, unknownHint).

Fixpoint reverseLoop (fuel : nat) (data : list E) (i j : nat) : list E :=
  match fuel with
  | O => data
  | S fuel' =>
      if i <? j then reverseLoop fuel' (swap data i j) (i + 1) (j - 1) else data
  end.

Definition reverseRangeCmpFunc (data : list E) (a b : nat) : list E :=
  reverseLoop (b - a) data a (b - 1).

Definition maxInsertion : nat := 12.

Definition isIncreasing (hint : sortedHint) : bool :=
  match hint with increasingHint => true | _ => false end.
Definition isDecreasing (hint : sortedHint) : bool :=
  match hint with decreasingHint => true | _ => false end.

(** [pdqsortCmpFunc]: one unit of [fuel] for every turn of the loop and
    for every nested call, each of which works on a shorter range. *)
Fixpoint pdqsortCmpFunc (fuel : nat) (data : list E) (a b limit : nat)
    (wasBalanced wasPartitioned : bool) : list E :=
  match fuel with
  | O => data
  | S fuel' =>
      let length := b - a in
      if length <=? maxInsertion then insertionSortCmpFunc data a b
      else if limit =? 0 then heapSortCmpFunc data a b
      else
        let '(data, limit) :=
          if negb wasBalanced then (breakPatternsCmpFunc data a b, limit - 1)
          else (data, limit) in
        let '(pivot, hint) := choosePivotCmpFunc data a b in
        let '(data, pivot, hint) :=
          if isDecreasing hint
          then (reverseRangeCmpFunc data a b, (b - 1) - (pivot - a), increasingHint)
          else (data, pivot, hint) in
        let '(data, done) :=
          if wasBalanced && wasPartitioned && isIncreasing hint
          then partialInsertionSortCmpFunc data a b
          else (data, false) in
        if done then data
        else if (0 <? a) && negb (less (at_ data (a - 1)) (at_ data pivot)) then
          let '(data, mid) := partitionEqualCmpFunc data a b pivot in
          pdqsortCmpFunc fuel' data mid b limit wasBalanced wasPartitioned
        else
          let '(data, mid, alreadyPartitioned) := partitionCmpFunc data a b pivot in
          let leftLen := mid - a in
          let rightLen := b - mid in
          let balanceThreshold := length / 8 in
          if leftLen <? rightLen then
            let data := pdqsortCmpFunc fuel' data a mid limit true true in
            pdqsortCmpFunc fuel' data (mid + 1) b limit
              (balanceThreshold <=? leftLen) alreadyPartitioned
          else
            let data := pdqsortCmpFunc fuel' data (mid + 1) b limit true true in
            pdqsortCmpFunc fuel' data a mid limit
              (balanceThreshold <=? rightLen) alreadyPartitioned
  end.

Definition SortFunc (x : list E) : list E :=
  let n := length x in
  pdqsortCmpFunc (S n) x 0 n (bits_Len n) true true.
End Pdqsort.
End Pdqsort.

(** [SortRuns]: the runs are compared by [Started]. *)
Definition SortRuns (h : Store) (r : Report) : Report :=
  setRuns
    (Pdqsort.SortFunc 0%nat
       (fun a b => Time_Compare (Run.Started (h a)) (Run.Started (h b)))
       (Runs r))
    r.


(** *** Slices written by swaps *)

Module PdqsortFacts.
Import Pdqsort.

Section Arrays.
Local Open Scope nat_scope.

Context {E : Type}.
Variable d : E.

Lemma swap_length (data : list E) (i j : nat) :
  length (swap d data i j) = length data.
Proof. unfold swap. by rewrite !length_insert. Qed.

Lemma at_insert (data : list E) (i k : nat) (x : E) :
  i < length data →
  at_ d (<[i := x]> data) k = if decide (k = i) then x else at_ d data k.
Proof.
  intros Hi. unfold at_. rewrite !nth_lookup.
  destruct (decide (k = i)) as [->|Hne].
  - by rewrite list_lookup_insert_eq.
  - by rewrite list_lookup_insert_ne.
Qed.

Lemma at_swap (data : list E) (i j k : nat) :
  i < length data → j < length data →
  at_ d (swap d data i j) k
  = if decide (k = i) then at_ d data j
    else if decide (k = j) then at_ d data i else at_ d data k.
Proof.
  intros Hi Hj. unfold swap.
  rewrite at_insert by (by rewrite length_insert).
  destruct (decide (k = i)); [done|]. by rewrite at_insert.
Qed.

Lemma at_lookup (data : list E) (i : nat) :
  i < length data → data !! i = Some (at_ d data i).
Proof.
  intros Hi. unfold at_. rewrite nth_lookup.
  destruct (lookup_lt_is_Some_2 data i Hi) as [x ->]. done.
Qed.

Lemma swap_Permutation (data : list E) (i j : nat) :
  i < length data → j < length data → swap d data i j ≡ₚ data.
Proof.
  intros Hi Hj. apply Permutation_inj. split; [apply swap_length|].
  exists (fun k => if decide (k = i) then j else if decide (k = j) then i else k).
  split.
  - intros x y. repeat case_decide; lia.
  - intros k. destruct (decide (k < length data)) as [Hk|Hk].
    + rewrite (at_lookup (swap d data i j) k) by (by rewrite swap_length).
      rewrite at_swap by done.
      repeat case_decide; by rewrite at_lookup.
    + rewrite !lookup_ge_None_2; [done| |rewrite swap_length]; repeat case_decide; lia.
Qed.

(** [swaps a b data data']: [data'] comes from [data] by swaps of elements
    of [data[a:b]]. *)
Inductive swaps (a b : nat) : list E → list E → Prop :=
| swaps_refl data : swaps a b data data
| swaps_step data i j data' :
    a ≤ i → i < b → a ≤ j → j < b → b ≤ length data →
    swaps a b (swap d data i j) data' → swaps a b data data'.

Lemma swaps_one a b data i j :
  a ≤ i → i < b → a ≤ j → j < b → b ≤ length data →
  swaps a b data (swap d data i j).
Proof. intros. apply (swaps_step a b data i j); [done..|apply swaps_refl]. Qed.

Lemma swaps_trans a b data1 data2 data3 :
  swaps a b data1 data2 → swaps a b data2 data3 → swaps a b data1 data3.
Proof.
  intros H12 H23. induction H12 as [data|data i j data' ? ? ? ? ? _ IH]; [done|].
  apply (swaps_step a b data i j); [done..|]. by apply IH.
Qed.

Lemma swaps_weaken a b a' b' data data' :
  a' ≤ a → b ≤ b' → b' ≤ length data →
  swaps a b data data' → swaps a' b' data data'.
Proof.
  intros Ha Hb Hl H. induction H as [data|data i j data' ? ? ? ? ? _ IH];
    [apply swaps_refl|].
  apply (swaps_step a' b' data i j); [lia..|]. apply IH. by rewrite swap_length.
Qed.

Lemma swaps_length a b data data' :
  swaps a b data data' → length data' = length data.
Proof.
  intros H. induction H as [data|data i j data' ? ? ? ? ? _ IH]; [done|].
  by rewrite IH, swap_length.
Qed.

Lemma swaps_Permutation a b data data' : swaps a b data data' → data' ≡ₚ data.
Proof.
  intros H. induction H as [data|data i j data' ? ? ? ? ? _ IH]; [done|].
  rewrite IH. apply swap_Permutation; lia.
Qed.

Lemma swaps_outside a b data data' k :
  swaps a b data data' → k < a ∨ b ≤ k → at_ d data' k = at_ d data k.
Proof.
  intros H Hk. induction H as [data|data i j data' ? ? ? ? ? _ IH]; [done|].
  rewrite IH, at_swap by lia. repeat case_decide; done || lia.
Qed.

(** What holds of every element of [data[a:b]] holds after the swaps. *)
Lemma swaps_forall a b data data' (P : E → Prop) :
  swaps a b data data' →
  (∀ k, a ≤ k → k < b → P (at_ d data k)) →
  ∀ k, a ≤ k → k < b → P (at_ d data' k).
Proof.
  intros H. induction H as [data|data i j data' ? ? ? ? ? _ IH]; [done|].
  intros HP. apply IH. intros k Hka Hkb.
  rewrite at_swap by lia. repeat case_decide; apply HP; lia.
Qed.
End Arrays.


(** *** Insertion sort *)

Section Insertion.
Local Open Scope nat_scope.

Context {E : Type}.
Variable d : E.
Variable cmp : E → E → Z.
Variable key : E → Z.
Hypothesis cmp_key : ∀ x y, less cmp x y = (key x <? key y)%Z.

(** [data[a:b]] is in ascending order of keys. *)
Definition sorted_range (data : list E) (a b : nat) : Prop :=
  ∀ i j, a ≤ i → i ≤ j → j < b → (key (at_ d data i) ≤ key (at_ d data j))%Z.

Lemma sorted_range_outside a b data data' lo hi :
  swaps d lo hi data data' → (hi ≤ a ∨ b ≤ lo) →
  sorted_range data a b → sorted_range data' a b.
Proof.
  intros Hs Hd Hsorted i j Hi Hij Hj.
  rewrite !(swaps_outside d lo hi data data') by (done || lia).
  by apply Hsorted.
Qed.

Lemma insertDown_swaps (j : nat) :
  ∀ (data : list E) (a hi : nat),
    j < hi → hi ≤ length data → swaps d a hi data (insertDown d cmp data a j).
Proof.
  induction j as [|j IH]; intros data a hi Hj Hhi; simpl; [apply swaps_refl|].
  destruct (Nat.ltb_spec a (S j)) as [Ha|Ha]; simpl; [|apply swaps_refl].
  destruct (less cmp _ _); [|apply swaps_refl].
  apply (swaps_step d a hi data (S j) j); [lia..|].
  apply IH; [lia | by rewrite swap_length].
Qed.

(** The element at [j] sinks into the sorted [data[a:j]]; what is above
    [j] is sorted and not below what is below [j]. *)
Lemma insertDown_sorted (j : nat) :
  ∀ (data : list E) (a hi : nat),
    a ≤ j → j < hi → hi ≤ length data →
    sorted_range data a j → sorted_range data j hi →
    (∀ i m, a ≤ i → i < j → j < m → m < hi →
            (key (at_ d data i) ≤ key (at_ d data m))%Z) →
    sorted_range (insertDown d cmp data a j) a hi.
Proof.
  induction j as [|j IH]; intros data a hi Ha Hj Hhi Hlow Hup Hcross; simpl.
  { assert (a = 0) as -> by lia. done. }
  destruct (Nat.ltb_spec a (S j)) as [Haj|Haj]; simpl.
  2:{ assert (a = S j) as -> by lia. done. }
  rewrite cmp_key.
  destruct (Z.ltb_spec (key (at_ d data (S j))) (key (at_ d data j))) as [Hlt|Hge].
  - apply IH; [lia | lia | by rewrite swap_length | | |];
      intros i m; intros; rewrite !at_swap by lia;
      repeat case_decide;
      first [lia | apply Hlow; lia | apply Hup; lia | apply Hcross; lia].
  - intros i m Hi Him Hm.
    destruct (decide (m ≤ j)) as [Hmj|Hmj]; [apply Hlow; lia|].
    destruct (decide (S j ≤ i)) as [Hji|Hji]; [apply Hup; lia|].
    destruct (decide (m = S j)) as [->|Hne].
    + destruct (decide (i = j)) as [->|Hij]; [lia|].
      pose proof (Hlow i j ltac:(lia) ltac:(lia) ltac:(lia)). lia.
    + apply Hcross; lia.
Qed.

Lemma insertion_loop (n : nat) :
  ∀ (data : list E) (a i : nat),
    a < i → i + n ≤ length data → sorted_range data a i →
    swaps d a (i + n) data
      (foldl (fun data i => insertDown d cmp data a i) data (seq i n))
    ∧ sorted_range
        (foldl (fun data i => insertDown d cmp data a i) data (seq i n)) a (i + n).
Proof.
  induction n as [|n IH]; intros data a i Ha Hlen Hsorted; simpl.
  { rewrite Nat.add_0_r. split; [apply swaps_refl | done]. }
  pose proof (insertDown_swaps i data a (S i) ltac:(lia) ltac:(lia)) as Hs.
  assert (Hsorted' : sorted_range (insertDown d cmp data a i) a (S i)).
  { apply insertDown_sorted; [lia | lia | lia | done | |].
    - intros x y Hx Hxy Hy. assert (x = y) as -> by lia. lia.
    - intros x m Hx Hxi Him Hm. lia. }
  destruct (IH (insertDown d cmp data a i) a (S i)) as [Hs' Hsorted''];
    [lia | rewrite (swaps_length d a (S i) data) by done; lia | done |].
  replace (i + S n) with (S i + n) by lia. split; [|done].
  eapply swaps_trans; [|exact Hs'].
  eapply swaps_weaken; [| | |exact Hs]; lia.
Qed.

Lemma insertionSort_spec (data : list E) (a b : nat) :
  a ≤ b → b ≤ length data →
  swaps d a b data (insertionSortCmpFunc d cmp data a b)
  ∧ sorted_range (insertionSortCmpFunc d cmp data a b) a b.
Proof.
  intros Hab Hb. unfold insertionSortCmpFunc.
  destruct (decide (b ≤ a + 1)) as [Hsmall|Hbig].
  - replace (b - (a + 1)) with 0 by lia. simpl.
    split; [apply swaps_refl|]. intros i j Hi Hij Hj.
    assert (i = j) as -> by lia. lia.
  - destruct (insertion_loop (b - (a + 1)) data a (a + 1)) as [Hs Hsorted].
    + lia.
    + lia.
    + intros i j Hi Hij Hj. assert (i = j) as -> by lia. lia.
    + replace (a + 1 + (b - (a + 1))) with b in * by lia. done.
Qed.
End Insertion.


(** *** The two partitions *)

Section Partition.
Local Open Scope nat_scope.

Context {E : Type}.
Variable d : E.
Variable cmp : E → E → Z.
Variable key : E → Z.
Hypothesis cmp_key : ∀ x y, less cmp x y = (key x <? key y)%Z.

Lemma scanUp_spec (p : E → bool) (fuel : nat) :
  ∀ (data : list E) (i j : nat),
    S j - i ≤ fuel → i ≤ S j →
    i ≤ scanUp d p fuel data i j ∧ scanUp d p fuel data i j ≤ S j
    ∧ (∀ k, i ≤ k → k < scanUp d p fuel data i j → p (at_ d data k) = true)
    ∧ (scanUp d p fuel data i j ≤ j → p (at_ d data (scanUp d p fuel data i j)) = false).
Proof.
  induction fuel as [|fuel IH]; intros data i j Hf Hij; simpl.
  { split_and!; [lia | lia | intros; lia | intros; lia]. }
  destruct (Nat.leb_spec i j) as [Hle|Hgt]; simpl.
  - destruct (p (at_ d data i)) eqn:Hp.
    + destruct (IH data (S i) j ltac:(lia) ltac:(lia)) as (H1 & H2 & H3 & H4).
      split_and!; [lia | lia | | done].
      intros k Hk Hk'. destruct (decide (k = i)) as [->|]; [done|].
      apply H3; lia.
    + split_and!; [lia | lia | intros; lia | done].
  - split_and!; [lia | lia | intros; lia | intros; lia].
Qed.

Lemma scanDown_spec (p : E → bool) (j : nat) :
  ∀ (data : list E) (i : nat),
    1 ≤ i → i ≤ S j →
    scanDown d p data i j ≤ j ∧ i ≤ S (scanDown d p data i j)
    ∧ (∀ k, scanDown d p data i j < k → k ≤ j → p (at_ d data k) = true)
    ∧ (i ≤ scanDown d p data i j → p (at_ d data (scanDown d p data i j)) = false).
Proof.
  induction j as [|j IH]; intros data i Hi Hij; simpl.
  { split_and!; [lia | lia | intros; lia | intros; lia]. }
  destruct (Nat.leb_spec i (S j)) as [Hle|Hgt]; simpl.
  - destruct (p (at_ d data (S j))) eqn:Hp.
    + destruct (IH data i Hi ltac:(lia)) as (H1 & H2 & H3 & H4).
      split_and!; [lia | lia | | done].
      intros k Hk Hk'. destruct (decide (k = S j)) as [->|]; [done|].
      apply H3; lia.
    + split_and!; [lia | lia | intros; lia | done].
  - split_and!; [lia | lia | intros; lia | intros; lia].
Qed.

(** The loop of both partitions: left of [i] everything is [up], right
    of [j] nothing is. *)
Lemma partitionLoop_spec (up down : E → bool) (fuel : nat) :
  (∀ x, down x = negb (up x)) →
  ∀ (data : list E) (lo hi i j : nat),
    1 ≤ i → lo ≤ i → i ≤ S j → j ≤ hi → hi < length data → S j - i ≤ fuel →
    (∀ k, lo ≤ k → k < i → up (at_ d data k) = true) →
    (∀ k, j < k → k ≤ hi → up (at_ d data k) = false) →
    ∃ data' i' j',
      partitionLoop d up down fuel data i j = (data', i', j')
      ∧ swaps d i (S j) data data'
      ∧ i' = S j' ∧ i ≤ i' ∧ j' ≤ j
      ∧ (∀ k, lo ≤ k → k < i' → up (at_ d data' k) = true)
      ∧ (∀ k, j' < k → k ≤ hi → up (at_ d data' k) = false).
Proof.
  intros Hdown. induction fuel as [|fuel IH];
    intros data lo hi i j Hi Hlo Hij Hjhi Hhi Hf Hleft Hright; simpl.
  { exists data, i, j. split_and!; [done | apply swaps_refl | lia | lia | lia | |].
    - done.
    - done. }
  destruct (scanUp_spec up (S j - i) data i j ltac:(lia) Hij) as (U1 & U2 & U3 & U4).
  set (i1 := scanUp d up (S j - i) data i j) in *.
  destruct (scanDown_spec down j data i1 ltac:(lia) U2) as (D1 & D2 & D3 & D4).
  set (j1 := scanDown d down data i1 j) in *.
  assert (Hl1 : ∀ k, lo ≤ k → k < i1 → up (at_ d data k) = true).
  { intros k Hk Hk'. destruct (decide (k < i)); [by apply Hleft | apply U3; lia]. }
  assert (Hr1 : ∀ k, j1 < k → k ≤ hi → up (at_ d data k) = false).
  { intros k Hk Hk'. destruct (decide (j < k)); [by apply Hright|].
    specialize (D3 k Hk ltac:(lia)). rewrite Hdown in D3.
    by destruct (up (at_ d data k)). }
  destruct (Nat.ltb_spec j1 i1) as [Hexit|Hcont].
  - exists data, i1, j1.
    split_and!; [done | apply swaps_refl | lia | lia | lia | done | done].
  - assert (Hi1 : up (at_ d data i1) = false) by (apply U4; lia).
    assert (Hj1 : up (at_ d data j1) = true).
    { specialize (D4 Hcont). rewrite Hdown in D4.
      by destruct (up (at_ d data j1)). }
    assert (Hne : i1 ≠ j1) by (intros Heq; rewrite Heq in Hi1; congruence).
    destruct (IH (swap d data i1 j1) lo hi (i1 + 1) (j1 - 1))
      as (data' & i' & j' & Hrun & Hs & Hi' & Hle & Hge & Hl & Hr).
    + lia.
    + lia.
    + lia.
    + lia.
    + by rewrite swap_length.
    + lia.
    + intros k Hk Hk'. rewrite at_swap by lia.
      repeat case_decide; try done; try lia. apply Hl1; lia.
    + intros k Hk Hk'. rewrite at_swap by lia.
      repeat case_decide; try done; try lia. apply Hr1; lia.
    + exists data', i', j'. split_and!; [done | | lia | lia | lia | done | done].
      apply (swaps_step d i (S j) data i1 j1); [lia..|].
      eapply swaps_weaken; [| | |exact Hs]; rewrite ?swap_length; lia.
Qed.

(** [partitionCmpFunc]: the pivot ends at [mid], smaller keys before it,
    the others after it. *)
Lemma partition_spec (data : list E) (a b pivot : nat) :
  a ≤ pivot → pivot < b → b ≤ length data →
  ∃ data' mid already,
    partitionCmpFunc d cmp data a b pivot = (data', mid, already)
    ∧ swaps d a b data data'
    ∧ a ≤ mid ∧ mid < b
    ∧ key (at_ d data' mid) = key (at_ d data pivot)
    ∧ (∀ k, a ≤ k → k < mid →
            (key (at_ d data' k) < key (at_ d data pivot))%Z)
    ∧ (∀ k, mid < k → k < b →
            (key (at_ d data pivot) ≤ key (at_ d data' k))%Z).
Proof.
  intros Ha Hp Hb. unfold partitionCmpFunc.
  set (data1 := swap d data a pivot).
  assert (Hlen1 : length data1 = length data) by apply swap_length.
  assert (Hpiv : at_ d data1 a = at_ d data pivot).
  { unfold data1. rewrite at_swap by lia. by rewrite decide_True. }
  assert (Hs1 : swaps d a b data data1) by (apply swaps_one; lia).
  set (up := fun x => less cmp x (at_ d data1 a)).
  set (down := fun x => negb (less cmp x (at_ d data1 a))).
  assert (Hup : ∀ x, up x = (key x <? key (at_ d data pivot))%Z).
  { intros x. unfold up. by rewrite cmp_key, Hpiv. }
  destruct (scanUp_spec up (S (b - 1) - (a + 1)) data1 (a + 1) (b - 1)
              ltac:(lia) ltac:(lia)) as (U1 & U2 & U3 & U4).
  set (i1 := scanUp d up (S (b - 1) - (a + 1)) data1 (a + 1) (b - 1)) in *.
  destruct (scanDown_spec down (b - 1) data1 i1 ltac:(lia) U2) as (D1 & D2 & D3 & D4).
  set (j1 := scanDown d down data1 i1 (b - 1)) in *.
  assert (Hr1 : ∀ k, j1 < k → k ≤ b - 1 → up (at_ d data1 k) = false).
  { intros k Hk Hk'. specialize (D3 k Hk Hk'). unfold down in D3.
    fold (up (at_ d data1 k)) in D3. by destruct (up (at_ d data1 k)). }
  (* what is left to do once the scans have met at [i' = j' + 1] *)
  assert (Hfinish : ∀ data3 j3,
    swaps d (a + 1) b data1 data3 → a ≤ j3 → j3 < b →
    (∀ k, a + 1 ≤ k → k < S j3 → up (at_ d data3 k) = true) →
    (∀ k, j3 < k → k ≤ b - 1 → up (at_ d data3 k) = false) →
    swaps d a b data (swap d data3 j3 a)
    ∧ a ≤ j3 ∧ j3 < b
    ∧ key (at_ d (swap d data3 j3 a) j3) = key (at_ d data pivot)
    ∧ (∀ k, a ≤ k → k < j3 →
            (key (at_ d (swap d data3 j3 a) k) < key (at_ d data pivot))%Z)
    ∧ (∀ k, j3 < k → k < b →
            (key (at_ d data pivot) ≤ key (at_ d (swap d data3 j3 a) k))%Z)).
  { intros data3 j3 Hs3 Hj3 Hj3b Hl3 Hr3.
    pose proof (swaps_length d _ _ _ _ Hs3) as Hlen3.
    assert (Ha3 : at_ d data3 a = at_ d data pivot).
    { rewrite (swaps_outside d (a + 1) b data1 data3) by (done || lia). done. }
    split_and!; [| done | done | | |].
    - eapply swaps_trans; [exact Hs1|].
      eapply swaps_trans; [eapply swaps_weaken; [| | |exact Hs3]; lia|].
      apply swaps_one; lia.
    - rewrite at_swap by lia. rewrite decide_True by done. by rewrite Ha3.
    - intros k Hk Hk'. rewrite at_swap by lia.
      repeat case_decide; try lia.
      + specialize (Hl3 j3 ltac:(lia) ltac:(lia)). rewrite Hup in Hl3. lia.
      + specialize (Hl3 k ltac:(lia) ltac:(lia)). rewrite Hup in Hl3. lia.
    - intros k Hk Hk'. rewrite at_swap by lia.
      repeat case_decide; try lia.
      specialize (Hr3 k ltac:(lia) ltac:(lia)). rewrite Hup in Hr3. lia. }
  destruct (Nat.ltb_spec j1 i1) as [Hexit|Hcont].
  - eexists _, _, _. split; [reflexivity|].
    apply (Hfinish data1 j1); [apply swaps_refl | lia | lia | | done].
    intros k Hk Hk'. apply U3; lia.
  - assert (Hi1 : up (at_ d data1 i1) = false) by (apply U4; lia).
    assert (Hj1 : up (at_ d data1 j1) = true).
    { specialize (D4 Hcont). unfold down in D4. fold (up (at_ d data1 j1)) in D4.
      by destruct (up (at_ d data1 j1)). }
    assert (Hne : i1 ≠ j1) by (intros Heq; rewrite Heq in Hi1; congruence).
    destruct (partitionLoop_spec up down (b - a) (fun x => eq_refl)
                (swap d data1 i1 j1) (a + 1) (b - 1) (i1 + 1) (j1 - 1))
      as (data3 & i3 & j3 & Hrun & Hs3 & Hi3 & Hle3 & Hge3 & Hl3 & Hr3).
    + lia.
    + lia.
    + lia.
    + lia.
    + rewrite swap_length. lia.
    + lia.
    + intros k Hk Hk'. rewrite at_swap by lia.
      repeat case_decide; try done; try lia. apply U3; lia.
    + intros k Hk Hk'. rewrite at_swap by lia.
      repeat case_decide; try done; try lia. apply Hr1; lia.
    + rewrite Hrun. eexists _, _, _. split; [reflexivity|].
      apply (Hfinish data3 j3); [| lia | lia | |done].
      * apply (swaps_step d (a + 1) b data1 i1 j1); [lia..|].
        eapply swaps_weaken; [| | |exact Hs3]; rewrite ?swap_length; lia.
      * intros k Hk Hk'. apply Hl3; lia.
Qed.

(** [partitionEqualCmpFunc], on a range no key of which is below the
    pivot's: the keys equal to it come first. *)
Lemma partitionEqual_spec (data : list E) (a b pivot : nat) :
  a ≤ pivot → pivot < b → b ≤ length data →
  (∀ k, a ≤ k → k < b → (key (at_ d data pivot) ≤ key (at_ d data k))%Z) →
  ∃ data' mid,
    partitionEqualCmpFunc d cmp data a b pivot = (data', mid)
    ∧ swaps d a b data data'
    ∧ a < mid ∧ mid ≤ b
    ∧ (∀ k, a ≤ k → k < mid → key (at_ d data' k) = key (at_ d data pivot))
    ∧ (∀ k, mid ≤ k → k < b →
            (key (at_ d data pivot) < key (at_ d data' k))%Z).
Proof.
  intros Ha Hp Hb Hmin. unfold partitionEqualCmpFunc.
  set (data1 := swap d data a pivot).
  assert (Hlen1 : length data1 = length data) by apply swap_length.
  assert (Hpiv : at_ d data1 a = at_ d data pivot).
  { unfold data1. rewrite at_swap by lia. by rewrite decide_True. }
  assert (Hs1 : swaps d a b data data1) by (apply swaps_one; lia).
  set (up := fun x => negb (less cmp (at_ d data1 a) x)).
  set (down := fun x => less cmp (at_ d data1 a) x).
  assert (Hup : ∀ x, up x = negb (key (at_ d data pivot) <? key x)%Z).
  { intros x. unfold up. by rewrite cmp_key, Hpiv. }
  destruct (partitionLoop_spec up down (S (b - a))
              (fun x => eq_sym (negb_involutive _))
              data1 (a + 1) (b - 1) (a + 1) (b - 1))
    as (data3 & i3 & j3 & Hrun & Hs3 & Hi3 & Hle3 & Hge3 & Hl3 & Hr3);
    [lia | lia | lia | lia | lia | lia | intros; lia | intros; lia |].
  rewrite Hrun. exists data3, i3. split; [done|].
  assert (Hs : swaps d a b data data3).
  { eapply swaps_trans; [exact Hs1|].
    eapply swaps_weaken; [| | |exact Hs3]; lia. }
  assert (Ha3 : at_ d data3 a = at_ d data pivot).
  { rewrite (swaps_outside d (a + 1) (S (b - 1)) data1 data3) by (done || lia). done. }
  pose proof (swaps_forall d a b data data3
                (fun x => (key (at_ d data pivot) ≤ key x)%Z) Hs Hmin) as Hmin3.
  split_and!; [done | lia | lia | |].
  - intros k Hk Hk'. destruct (decide (k = a)) as [->|Hne]; [by rewrite Ha3|].
    specialize (Hl3 k ltac:(lia) ltac:(lia)). rewrite Hup in Hl3.
    specialize (Hmin3 k Hk ltac:(lia)). simpl in Hmin3.
    destruct (Z.ltb_spec (key (at_ d data pivot)) (key (at_ d data3 k))); [done | lia].
  - intros k Hk Hk'. specialize (Hr3 k ltac:(lia) ltac:(lia)). rewrite Hup in Hr3.
    destruct (Z.ltb_spec (key (at_ d data pivot)) (key (at_ d data3 k))); [lia | done].
Qed.
End Partition.


(** *** Heap sort *)

Section Heap.
Local Open Scope nat_scope.

Context {E : Type}.
Variable d : E.
Variable cmp : E → E → Z.
Variable key : E → Z.
Hypothesis cmp_key : ∀ x y, less cmp x y = (key x <? key y)%Z.

(** The key of node [i] of the heap that starts at [first]. *)
Definition hkey (data : list E) (first i : nat) : Z := key (at_ d data (first + i)).

(** Node [i] is not below its children, in a heap of [hi] nodes. *)
Definition node_ok (data : list E) (first hi i : nat) : Prop :=
  (2 * i + 1 < hi → (hkey data first (2 * i + 1) ≤ hkey data first i)%Z)
  ∧ (2 * i + 2 < hi → (hkey data first (2 * i + 2) ≤ hkey data first i)%Z).

Definition heap_from (data : list E) (first lo hi : nat) : Prop :=
  ∀ i, lo ≤ i → node_ok data first hi i.

Lemma hkey_swap (data : list E) (first x y i : nat) :
  first + x < length data → first + y < length data →
  hkey (swap d data (first + x) (first + y)) first i
  = if decide (i = x) then hkey data first y
    else if decide (i = y) then hkey data first x else hkey data first i.
Proof.
  intros Hx Hy. unfold hkey. rewrite at_swap by done.
  repeat case_decide; done || lia.
Qed.

Lemma siftDown_spec (fuel : nat) :
  ∀ (data : list E) (lo0 root hi first : nat),
    lo0 ≤ root → first + hi ≤ length data → hi - root ≤ fuel →
    (∀ i, lo0 ≤ i → i ≠ root → node_ok data first hi i) →
    (∀ p c, lo0 ≤ p → (root = 2 * p + 1 ∨ root = 2 * p + 2) →
            (c = 2 * root + 1 ∨ c = 2 * root + 2) → c < hi →
            (hkey data first c ≤ hkey data first p)%Z) →
    swaps d (first + root) (first + hi) data (siftDownCmpFunc d cmp fuel data root hi first)
    ∧ heap_from (siftDownCmpFunc d cmp fuel data root hi first) first lo0 hi.
Proof.
  induction fuel as [|fuel IH];
    intros data lo0 root hi first Hlo Hlen Hfuel Hothers Hparent.
  { simpl. split; [apply swaps_refl|]. intros i Hi.
    destruct (decide (i = root)) as [->|Hne]; [|by apply Hothers].
    split; intros; lia. }
  cbn [siftDownCmpFunc].
  destruct (Nat.leb_spec hi (2 * root + 1)) as [Hleaf|Hchild].
  { split; [apply swaps_refl|]. intros i Hi.
    destruct (decide (i = root)) as [->|Hne]; [|by apply Hothers].
    split; intros; lia. }
  set (c := if (2 * root + 1 + 1 <? hi)
               && less cmp (at_ d data (first + (2 * root + 1)))
                    (at_ d data (first + (2 * root + 1) + 1))
            then 2 * root + 1 + 1 else 2 * root + 1).
  assert (Hc : (c = 2 * root + 1 ∨ c = 2 * root + 2) ∧ c < hi
               ∧ (hkey data first (2 * root + 1) ≤ hkey data first c)%Z
               ∧ (2 * root + 2 < hi →
                  (hkey data first (2 * root + 2) ≤ hkey data first c)%Z)).
  { unfold c, hkey. rewrite cmp_key.
    replace (first + (2 * root + 1) + 1) with (first + (2 * root + 2)) by lia.
    replace (2 * root + 1 + 1) with (2 * root + 2) by lia.
    destruct (Nat.ltb_spec (2 * root + 2) hi) as [H2|H2]; cbn [andb].
    - destruct (Z.ltb_spec (key (at_ d data (first + (2 * root + 1))))
                  (key (at_ d data (first + (2 * root + 2))))).
      + split_and!; [by right | lia | lia | lia].
      + split_and!; [by left | lia | lia | lia].
    - split_and!; [by left | lia | lia | lia]. }
  destruct Hc as (Hc & Hchi & Hc1 & Hc2).
  rewrite cmp_key. fold (hkey data first root). fold (hkey data first c).
  destruct (Z.ltb_spec (hkey data first root) (hkey data first c)) as [Hlt|Hge];
    cbn [negb].
  2:{ split; [apply swaps_refl|]. intros i Hi.
      destruct (decide (i = root)) as [->|Hne]; [|by apply Hothers].
      split; intros; lia. }
  clearbody c.
  destruct (IH (swap d data (first + root) (first + c)) lo0 c hi first)
    as [Hs Hheap].
  - lia.
  - by rewrite swap_length.
  - lia.
  - intros i Hi Hic. unfold node_ok. rewrite !hkey_swap by lia.
    destruct (decide (i = root)) as [->|Hir].
    + destruct Hc as [-> | ->]; repeat case_decide; lia.
    + pose proof (Hothers i Hi Hir) as [Ho1 Ho2].
      pose proof (Hparent i c Hi) as Hpc.
      repeat case_decide; subst; try lia.
  - intros p gc Hp Hcp Hgc Hgchi. rewrite !hkey_swap by lia.
    assert (p = root) as -> by lia.
    pose proof (Hothers c ltac:(lia) ltac:(lia)) as [Ho1 Ho2].
    destruct Hgc as [-> | ->]; repeat case_decide; lia.
  - split; [|done].
    apply (swaps_step d (first + root) (first + hi) data (first + root) (first + c));
      [lia..|].
    eapply swaps_weaken; [| | |exact Hs]; rewrite ?swap_length; lia.
Qed.

(** The root of a heap holds a greatest key. *)
Lemma heap_max (data : list E) (first hi : nat) :
  heap_from data first 0 hi →
  ∀ x, x < hi → (hkey data first x ≤ hkey data first 0)%Z.
Proof.
  intros Hheap x. induction x as [x IH] using lt_wf_ind. intros Hx.
  destruct (decide (x = 0)) as [->|Hne]; [lia|].
  pose proof (Nat.div_mod_eq (x - 1) 2) as Hdiv.
  pose proof (Nat.mod_upper_bound (x - 1) 2 ltac:(lia)) as Hmod.
  set (p := (x - 1) / 2) in *.
  specialize (IH p ltac:(lia) ltac:(lia)).
  destruct (Hheap p ltac:(lia)) as [H1 H2].
  clearbody p.
  destruct (decide (x = 2 * p + 1)) as [->|Hx2].
  - specialize (H1 Hx). lia.
  - assert (x = 2 * p + 2) as -> by lia. specialize (H2 Hx). lia.
Qed.

Lemma heap_build (n : nat) :
  ∀ (data : list E) (hi first : nat),
    first + hi ≤ length data → heap_from data first n hi →
    swaps d first (first + hi) data
      (foldl (fun data i => siftDownCmpFunc d cmp hi data i hi first) data
         (rev (seq 0 n)))
    ∧ heap_from
        (foldl (fun data i => siftDownCmpFunc d cmp hi data i hi first) data
           (rev (seq 0 n))) first 0 hi.
Proof.
  induction n as [|n IH]; intros data hi first Hlen Hheap.
  { simpl. split; [apply swaps_refl | done]. }
  rewrite seq_S, rev_app_distr. cbn [rev app foldl Nat.add].
  destruct (siftDown_spec hi data n n hi first) as [Hs Hh].
  - lia.
  - done.
  - lia.
  - intros i Hi Hne. apply Hheap. lia.
  - intros p c Hp Hpc. lia.
  - destruct (IH (siftDownCmpFunc d cmp hi data n hi first) hi first) as [Hs' Hh'].
    + by rewrite (swaps_length d _ _ _ _ Hs).
    + done.
    + split; [|done]. eapply swaps_trans; [|exact Hs'].
      eapply swaps_weaken; [| | |exact Hs]; lia.
Qed.

(** Popping: [data[first+m : first+hi]] is sorted and above the heap of
    the first [m] elements. *)
Lemma heap_pop (m : nat) :
  ∀ (data : list E) (hi first : nat),
    m ≤ hi → first + hi ≤ length data →
    heap_from data first 0 m →
    sorted_range d key data (first + m) (first + hi) →
    (∀ x y, x < m → m ≤ y → y < hi → (hkey data first x ≤ hkey data first y)%Z) →
    swaps d first (first + hi) data
      (foldl (fun data i =>
                siftDownCmpFunc d cmp hi (swap d data first (first + i)) 0 i first)
         data (rev (seq 0 m)))
    ∧ sorted_range d key
        (foldl (fun data i =>
                  siftDownCmpFunc d cmp hi (swap d data first (first + i)) 0 i first)
           data (rev (seq 0 m))) first (first + hi).
Proof.
  induction m as [|m IH]; intros data hi first Hm Hlen Hheap Hsorted Hcross.
  { simpl. split; [apply swaps_refl|]. by rewrite Nat.add_0_r in Hsorted. }
  rewrite seq_S, rev_app_distr. cbn [rev app foldl Nat.add].
  set (data1 := swap d data first (first + m)).
  pose proof (heap_max data first (S m) Hheap) as Hmax.
  assert (Hk1 : ∀ i, hkey data1 first i
                     = if decide (i = 0) then hkey data first m
                       else if decide (i = m) then hkey data first 0
                       else hkey data first i).
  { intros i. unfold data1.
    replace first with (first + 0) at 1 by lia.
    by rewrite hkey_swap by lia. }
  destruct (siftDown_spec hi data1 0 0 m first) as [Hs Hh].
  - lia.
  - unfold data1. rewrite swap_length. lia.
  - lia.
  - intros i _ Hi. unfold node_ok. rewrite !Hk1.
    destruct (Hheap i ltac:(lia)) as [H1 H2].
    repeat case_decide; subst;
      first [lia | split; intros; [apply H1 | apply H2]; lia].
  - intros p c _ Hp. lia.
  - set (data2 := siftDownCmpFunc d cmp hi data1 0 m first) in *.
    rewrite Nat.add_0_r in Hs.
    assert (Hs01 : swaps d first (first + hi) data data1).
    { unfold data1. apply swaps_one; lia. }
    assert (Hout : ∀ y, m ≤ y → hkey data2 first y = hkey data1 first y).
    { intros y Hy. unfold hkey.
      by rewrite (swaps_outside d first (first + m) data1 data2) by (done || lia). }
    destruct (IH data2 hi first) as [Hs' Hsorted'].
    + lia.
    + rewrite (swaps_length d _ _ _ _ Hs). unfold data1. rewrite swap_length. lia.
    + done.
    + intros i j Hi Hij Hj.
      replace i with (first + (i - first)) by lia.
      replace j with (first + (j - first)) by lia.
      fold (hkey data2 first (i - first)). fold (hkey data2 first (j - first)).
      rewrite !Hout, !Hk1 by lia.
      repeat case_decide;
        first [lia | apply Hcross; lia | unfold hkey; apply Hsorted; lia].
    + intros x y Hx Hy Hyhi. rewrite (Hout y) by lia.
      pose proof (swaps_forall d first (first + m) data1 data2
                    (fun e => (key e ≤ hkey data1 first y)%Z) Hs) as Hall.
      unfold hkey at 1. apply Hall; [|lia|lia].
      intros k Hk Hk'. replace k with (first + (k - first)) by lia.
      fold (hkey data1 first (k - first)). rewrite !Hk1.
      repeat case_decide;
        first [lia | apply Hmax; lia | apply Hcross; lia].
    + split; [|done].
      eapply swaps_trans; [exact Hs01|].
      eapply swaps_trans; [|exact Hs'].
      eapply swaps_weaken; [| | |exact Hs]; unfold data1; rewrite ?swap_length; lia.
Qed.

Lemma heapSort_spec (data : list E) (a b : nat) :
  a ≤ b → b ≤ length data →
  swaps d a b data (heapSortCmpFunc d cmp data a b)
  ∧ sorted_range d key (heapSortCmpFunc d cmp data a b) a b.
Proof.
  intros Hab Hb. unfold heapSortCmpFunc.
  destruct (heap_build ((b - a - 1) / 2 + 1) data (b - a) a) as [Hs Hh].
  - lia.
  - intros i Hi.
    pose proof (Nat.div_mod_eq (b - a - 1) 2) as Hdiv.
    pose proof (Nat.mod_upper_bound (b - a - 1) 2 ltac:(lia)) as Hmod.
    split; intros; lia.
  - set (data1 := foldl _ data (rev (seq 0 ((b - a - 1) / 2 + 1)))) in *.
    destruct (heap_pop (b - a) data1 (b - a) a) as [Hs' Hsorted].
    + lia.
    + rewrite (swaps_length d _ _ _ _ Hs). lia.
    + done.
    + intros i j Hi Hij Hj. lia.
    + intros x y Hx Hy Hyhi. lia.
    + replace (a + (b - a)) with b in * by lia.
      split; [by eapply swaps_trans | done].
Qed.
End Heap.


(** *** Pivot, patterns and the partial insertion sort *)

Section Helpers.
Local Open Scope nat_scope.

Context {E : Type}.
Variable d : E.
Variable cmp : E → E → Z.
Variable key : E → Z.
Hypothesis cmp_key : ∀ x y, less cmp x y = (key x <? key y)%Z.

Lemma reverseLoop_swaps (fuel : nat) :
  ∀ (data : list E) (a b i j : nat),
    a ≤ i → j < b → b ≤ length data →
    swaps d a b data (reverseLoop d fuel data i j).
Proof.
  induction fuel as [|fuel IH]; intros data a b i j Hi Hj Hb; simpl;
    [apply swaps_refl|].
  destruct (Nat.ltb_spec i j) as [Hlt|Hge]; [|apply swaps_refl].
  apply (swaps_step d a b data i j); [lia..|].
  apply IH; [lia | lia | by rewrite swap_length].
Qed.

Lemma reverseRange_swaps (data : list E) (a b : nat) :
  a < b → b ≤ length data → swaps d a b data (reverseRangeCmpFunc d data a b).
Proof. intros Hab Hb. apply reverseLoop_swaps; lia. Qed.

Lemma nextPowerOfTwo_le (n : nat) :
  0 < n → (0 < nextPowerOfTwo n ≤ 2 * Z.of_nat n)%Z.
Proof.
  intros Hn. unfold nextPowerOfTwo, bits_Len. destruct n as [|n]; [lia|].
  rewrite Z.shiftl_1_l.
  destruct (Nat.log2_spec (S n) ltac:(lia)) as [Hlo _].
  rewrite Nat2Z.inj_succ, Z.pow_succ_r by lia.
  apply Nat2Z.inj_le in Hlo. rewrite Nat2Z.inj_pow in Hlo.
  change (Z.of_nat 2) with 2%Z in Hlo.
  assert (0 < 2 ^ Z.of_nat (Nat.log2 (S n)))%Z by (apply Z.pow_pos_nonneg; lia).
  lia.
Qed.

Lemma land_modulus (r : Z) (n : nat) :
  0 < n → (0 ≤ Z.land r (nextPowerOfTwo n - 1) < 2 * Z.of_nat n)%Z.
Proof.
  intros Hn. pose proof (nextPowerOfTwo_le n Hn) as Hle.
  unfold nextPowerOfTwo in *. rewrite Z.shiftl_1_l in *.
  replace (2 ^ Z.of_nat (bits_Len n) - 1)%Z
    with (Z.ones (Z.of_nat (bits_Len n))) by (rewrite Z.ones_equiv; lia).
  rewrite Z.land_ones by lia.
  pose proof (Z.mod_pos_bound r (2 ^ Z.of_nat (bits_Len n)) ltac:(lia)). lia.
Qed.

Lemma breakPatterns_swaps (data : list E) (a b : nat) :
  a ≤ b → b ≤ length data → swaps d a b data (breakPatternsCmpFunc d data a b).
Proof.
  intros Hab Hb. unfold breakPatternsCmpFunc.
  destruct (Nat.leb_spec 8 (b - a)) as [Hlen|Hlen]; [|apply swaps_refl].
  pose proof (Nat.div_mod_eq (b - a) 4) as Hdiv.
  pose proof (Nat.mod_upper_bound (b - a) 4 ltac:(lia)) as Hmod.
  set (q := (b - a) / 4) in *. clearbody q.
  assert (Hother : ∀ r : Z,
    (if b - a <=? Z.to_nat (Z.land r (nextPowerOfTwo (b - a) - 1))
     then Z.to_nat (Z.land r (nextPowerOfTwo (b - a) - 1)) - (b - a)
     else Z.to_nat (Z.land r (nextPowerOfTwo (b - a) - 1))) < b - a).
  { intros r. pose proof (land_modulus r (b - a) ltac:(lia)).
    destruct (Nat.leb_spec (b - a) (Z.to_nat (Z.land r (nextPowerOfTwo (b - a) - 1))));
      lia. }
  cbn [foldl fst].
  set (r1 := xorshift_Next (Z.of_nat (b - a))).
  set (r2 := xorshift_Next r1). set (r3 := xorshift_Next r2).
  pose proof (Hother r1). pose proof (Hother r2). pose proof (Hother r3).
  eapply swaps_step; [| | | | |eapply swaps_step; [| | | | |eapply swaps_step;
    [| | | | |apply swaps_refl]]]; rewrite ?swap_length; lia.
Qed.

Lemma order2_in (data : list E) (x y s : nat) :
  let r := order2CmpFunc d cmp data x y s in
  (r.1.1 = x ∧ r.1.2 = y) ∨ (r.1.1 = y ∧ r.1.2 = x).
Proof. unfold order2CmpFunc. destruct (less cmp _ _); simpl; auto. Qed.

Lemma median_in (data : list E) (x y z s : nat) :
  let r := medianCmpFunc d cmp data x y z s in r.1 = x ∨ r.1 = y ∨ r.1 = z.
Proof.
  unfold medianCmpFunc.
  pose proof (order2_in data x y s) as H1.
  destruct (order2CmpFunc d cmp data x y s) as [[x1 y1] s1]. simpl in H1.
  pose proof (order2_in data y1 z s1) as H2.
  destruct (order2CmpFunc d cmp data y1 z s1) as [[y2 z2] s2]. simpl in H2.
  pose proof (order2_in data x1 y2 s2) as H3.
  destruct (order2CmpFunc d cmp data x1 y2 s2) as [[x3 y3] s3]. simpl in H3.
  simpl. naive_solver.
Qed.

Lemma choosePivot_range (data : list E) (a b : nat) :
  a < b → a ≤ (choosePivotCmpFunc d cmp data a b).1
          ∧ (choosePivotCmpFunc d cmp data a b).1 < b.
Proof.
  intros Hab. unfold choosePivotCmpFunc.
  pose proof (Nat.div_mod_eq (b - a) 4) as Hdiv.
  pose proof (Nat.mod_upper_bound (b - a) 4 ltac:(lia)) as Hmod.
  set (q := (b - a) / 4) in *. clearbody q.
  assert (Hfst : ∀ (j s : nat),
    (if s =? 0 then (j, increasingHint)
     else if s =? maxSwaps then (j, decreasingHint) else (j, unknownHint)).1 = j).
  { intros j s. by destruct (s =? 0), (s =? maxSwaps). }
  destruct (Nat.leb_spec 8 (b - a)) as [H8|H8].
  - destruct (Nat.leb_spec shortestNinther (b - a)) as [H50|H50].
    + unfold shortestNinther in H50. unfold medianAdjacentCmpFunc.
      pose proof (median_in data (a + q * 1 - 1) (a + q * 1) (a + q * 1 + 1) 0) as Hi.
      destruct (medianCmpFunc d cmp data (a + q * 1 - 1) (a + q * 1) (a + q * 1 + 1) 0)
        as [i s1]. simpl in Hi.
      pose proof (median_in data (a + q * 2 - 1) (a + q * 2) (a + q * 2 + 1) s1) as Hj.
      destruct (medianCmpFunc d cmp data (a + q * 2 - 1) (a + q * 2) (a + q * 2 + 1) s1)
        as [j s2]. simpl in Hj.
      pose proof (median_in data (a + q * 3 - 1) (a + q * 3) (a + q * 3 + 1) s2) as Hk.
      destruct (medianCmpFunc d cmp data (a + q * 3 - 1) (a + q * 3) (a + q * 3 + 1) s2)
        as [k s3]. simpl in Hk.
      pose proof (median_in data i j k s3) as Hm.
      destruct (medianCmpFunc d cmp data i j k s3) as [m s4]. simpl in Hm.
      rewrite Hfst. lia.
    + pose proof (median_in data (a + q * 1) (a + q * 2) (a + q * 3) 0) as Hm.
      destruct (medianCmpFunc d cmp data (a + q * 1) (a + q * 2) (a + q * 3) 0)
        as [m s4]. simpl in Hm.
      rewrite Hfst. lia.
  - rewrite Hfst. lia.
Qed.

(** No key of [data[a:b]] is below the key just before it. *)
Definition lower_bounded (data : list E) (a b : nat) : Prop :=
  a = 0 ∨ ∀ k, a ≤ k → k < b →
            (key (at_ d data (a - 1)) ≤ key (at_ d data k))%Z.

Lemma lower_bounded_swaps (data data' : list E) (a b : nat) :
  swaps d a b data data' → lower_bounded data a b → lower_bounded data' a b.
Proof.
  intros Hs [->|Hlow]; [by left|].
  destruct (decide (a = 0)) as [->|Ha]; [by left | right].
  rewrite (swaps_outside d a b data data') by (done || lia).
  by apply (swaps_forall d a b data data'
              (fun e => (key (at_ d data (a - 1)) ≤ key e)%Z)).
Qed.

(** With a lower bound before [a] the shift to the left is the inner
    loop of the insertion sort. *)
Lemma shiftLeft_insertDown (j : nat) :
  ∀ (data : list E) (a : nat),
    a ≤ j → j < length data →
    (a = 0 ∨ ∀ k, a ≤ k → k ≤ j →
               (key (at_ d data (a - 1)) ≤ key (at_ d data k))%Z) →
    shiftLeft d cmp data j = insertDown d cmp data a j.
Proof.
  induction j as [|j IH]; intros data a Ha Hj Hlow; [done|].
  cbn [shiftLeft insertDown].
  destruct (Nat.ltb_spec a (S j)) as [Haj|Haj]; cbn [andb].
  - destruct (less cmp (at_ d data (S j)) (at_ d data j)) eqn:Hless; cbn [negb];
      [|done].
    apply IH; [lia | rewrite swap_length; lia |].
    destruct Hlow as [->|Hlow]; [by left | right].
    intros k Hk Hk'. rewrite !at_swap by lia.
    repeat case_decide; try lia; apply Hlow; lia.
  - assert (a = S j) as -> by lia.
    destruct Hlow as [Hlow|Hlow]; [lia|].
    specialize (Hlow (S j) ltac:(lia) ltac:(lia)).
    replace (S j - 1) with j in Hlow by lia.
    rewrite cmp_key.
    destruct (Z.ltb_spec (key (at_ d data (S j))) (key (at_ d data j))); [lia | done].
Qed.

Lemma shiftRight_swaps (fuel : nat) :
  ∀ (data : list E) (lo j b : nat),
    lo < j → b ≤ length data → swaps d lo b data (shiftRight d cmp fuel data j b).
Proof.
  induction fuel as [|fuel IH]; intros data lo j b Hlo Hb; simpl;
    [apply swaps_refl|].
  destruct (Nat.leb_spec b j); [apply swaps_refl|].
  destruct (less cmp _ _); simpl; [|apply swaps_refl].
  apply (swaps_step d lo b data j (j - 1)); [lia..|].
  apply IH; [lia | by rewrite swap_length].
Qed.

Lemma sortedRun_spec (fuel : nat) :
  ∀ (data : list E) (a i b : nat),
    a < i → i ≤ b → b - i ≤ fuel → sorted_range d key data a i →
    i ≤ sortedRun d cmp fuel data i b ∧ sortedRun d cmp fuel data i b ≤ b
    ∧ sorted_range d key data a (sortedRun d cmp fuel data i b)
    ∧ (sortedRun d cmp fuel data i b < b →
       (key (at_ d data (sortedRun d cmp fuel data i b))
        < key (at_ d data (sortedRun d cmp fuel data i b - 1)))%Z).
Proof.
  induction fuel as [|fuel IH]; intros data a i b Ha Hi Hf Hsorted; simpl.
  { split_and!; [lia | lia | done | lia]. }
  destruct (Nat.ltb_spec i b) as [Hlt|Hge]; cbn [andb].
  2:{ split_and!; [lia | lia | done | lia]. }
  rewrite cmp_key.
  destruct (Z.ltb_spec (key (at_ d data i)) (key (at_ d data (i - 1)))) as [Hless|Hnot];
    cbn [negb].
  { split_and!; [lia | lia | done | done]. }
  destruct (IH data a (S i) b) as (H1 & H2 & H3 & H4); [lia | lia | lia | |].
  - intros x y Hx Hxy Hy. destruct (decide (y = i)) as [->|Hne].
    + destruct (decide (x = i)) as [->|Hxi]; [lia|].
      pose proof (Hsorted x (i - 1) ltac:(lia) ltac:(lia) ltac:(lia)). lia.
    + apply Hsorted; lia.
  - split_and!; [lia | lia | done | done].
Qed.

Lemma partialInsertionLoop_spec (steps : nat) :
  ∀ (data : list E) (a b i : nat),
    a < i → i ≤ b → b ≤ length data →
    lower_bounded data a b → sorted_range d key data a i →
    swaps d a b data (partialInsertionLoop d cmp steps data a b i).1
    ∧ ((partialInsertionLoop d cmp steps data a b i).2 = true →
       sorted_range d key (partialInsertionLoop d cmp steps data a b i).1 a b).
Proof.
  induction steps as [|steps IH]; intros data a b i Ha Hi Hb Hlow Hsorted.
  { simpl. split; [apply swaps_refl | done]. }
  cbn [partialInsertionLoop].
  destruct (sortedRun_spec (b - i) data a i b Ha Hi ltac:(lia) Hsorted)
    as (R1 & R2 & R3 & R4).
  set (i1 := sortedRun d cmp (b - i) data i b) in *. clearbody i1.
  destruct (Nat.eqb_spec i1 b) as [->|Hne].
  { simpl. split; [apply swaps_refl | done]. }
  destruct (Nat.ltb_spec (b - a) shortestShifting) as [Hshort|Hlong].
  { simpl. split; [apply swaps_refl | done]. }
  specialize (R4 ltac:(lia)).
  set (data1 := swap d data i1 (i1 - 1)).
  assert (Hs1 : swaps d a b data data1) by (apply swaps_one; lia).
  assert (Hlen1 : length data1 = length data) by apply swap_length.
  set (data2 := if 2 <=? i1 - a then shiftLeft d cmp data1 (i1 - 1) else data1).
  assert (H2 : swaps d a i1 data1 data2 ∧ sorted_range d key data2 a i1).
  { unfold data2. destruct (Nat.leb_spec 2 (i1 - a)) as [Hge2|Hlt2].
    - rewrite (shiftLeft_insertDown (i1 - 1) data1 a); [|lia|lia|].
      + split; [apply insertDown_swaps; lia|].
        apply (insertDown_sorted d cmp key cmp_key); [lia | lia | lia | | |].
        * intros x y Hx Hxy Hy. unfold data1. rewrite !at_swap by lia.
          repeat case_decide; try lia. apply R3; lia.
        * intros x y Hx Hxy Hy. assert (x = y) as -> by lia. lia.
        * intros x m Hx Hxi Him Hm. lia.
      + pose proof (lower_bounded_swaps data data1 a b Hs1 Hlow) as [->|Hl];
          [by left | right].
        intros k Hk Hk'. apply Hl; lia.
    - split; [apply swaps_refl|].
      intros x y Hx Hxy Hy. assert (x = y) as -> by lia. lia. }
  destruct H2 as [Hs2 Hsorted2].
  pose proof (swaps_length d _ _ _ _ Hs2) as Hlen2.
  set (data3 := if 2 <=? b - i1 then shiftRight d cmp (b - i1) data2 (i1 + 1) b
                else data2).
  assert (Hs3 : swaps d i1 b data2 data3).
  { unfold data3. destruct (2 <=? b - i1); [|apply swaps_refl].
    apply shiftRight_swaps; lia. }
  assert (Hs03 : swaps d a b data data3).
  { eapply swaps_trans; [exact Hs1|]. eapply swaps_trans.
    - eapply swaps_weaken; [| | |exact Hs2]; lia.
    - eapply swaps_weaken; [| | |exact Hs3]; lia. }
  destruct (IH data3 a b i1) as [Hs4 Htrue].
  - lia.
  - lia.
  - rewrite (swaps_length d _ _ _ _ Hs03). lia.
  - by eapply lower_bounded_swaps.
  - eapply (sorted_range_outside d key); [exact Hs3 | lia | done].
  - split; [by eapply swaps_trans | done].
Qed.

Lemma partialInsertionSort_spec (data : list E) (a b : nat) :
  a < b → b ≤ length data → lower_bounded data a b →
  swaps d a b data (partialInsertionSortCmpFunc d cmp data a b).1
  ∧ ((partialInsertionSortCmpFunc d cmp data a b).2 = true →
     sorted_range d key (partialInsertionSortCmpFunc d cmp data a b).1 a b).
Proof.
  intros Hab Hb Hlow. apply partialInsertionLoop_spec; [lia | lia | done | done |].
  intros x y Hx Hxy Hy. assert (x = y) as -> by lia. lia.
Qed.
End Helpers.


(** *** The pattern-defeating quicksort *)

Section Main.
Local Open Scope nat_scope.

Context {E : Type}.
Variable d : E.
Variable cmp : E → E → Z.
Variable key : E → Z.
Hypothesis cmp_key : ∀ x y, less cmp x y = (key x <? key y)%Z.

Lemma sorted_around (r : list E) (a mid b : nat) (pk : Z) :
  sorted_range d key r a mid → sorted_range d key r (mid + 1) b →
  key (at_ d r mid) = pk →
  (∀ k, a ≤ k → k < mid → (key (at_ d r k) ≤ pk)%Z) →
  (∀ k, mid < k → k < b → (pk ≤ key (at_ d r k))%Z) →
  sorted_range d key r a b.
Proof.
  intros Hl Hr Hm Hlo Hhi i j Hi Hij Hj.
  destruct (decide (j < mid)); [apply Hl; lia|].
  destruct (decide (mid < i)); [apply Hr; lia|].
  destruct (decide (i = mid)) as [->|]; destruct (decide (j = mid)) as [->|].
  - lia.
  - rewrite Hm. apply Hhi; lia.
  - rewrite Hm. apply Hlo; lia.
  - pose proof (Hlo i ltac:(lia) ltac:(lia)).
    pose proof (Hhi j ltac:(lia) ltac:(lia)). lia.
Qed.

Lemma sorted_after_equal (r : list E) (a mid b : nat) (pk : Z) :
  sorted_range d key r mid b →
  (∀ k, a ≤ k → k < mid → key (at_ d r k) = pk) →
  (∀ k, mid ≤ k → k < b → (pk < key (at_ d r k))%Z) →
  sorted_range d key r a b.
Proof.
  intros Hr Hlo Hhi i j Hi Hij Hj.
  destruct (decide (mid ≤ i)); [apply Hr; lia|].
  rewrite (Hlo i) by lia.
  destruct (decide (j < mid)); [rewrite (Hlo j) by lia; lia|].
  pose proof (Hhi j ltac:(lia) ltac:(lia)). lia.
Qed.

(** [pdqsortCmpFunc] sorts [data[a:b]] by swaps inside it; the caller
    guarantees that no key of the range is below the key just before it. *)
Lemma pdqsort_spec (fuel : nat) :
  ∀ (data : list E) (a b limit : nat) (wasBalanced wasPartitioned : bool),
    a ≤ b → b ≤ length data → b - a < fuel → lower_bounded d key data a b →
    swaps d a b data
      (pdqsortCmpFunc d cmp fuel data a b limit wasBalanced wasPartitioned)
    ∧ sorted_range d key
        (pdqsortCmpFunc d cmp fuel data a b limit wasBalanced wasPartitioned) a b.
Proof.
  induction fuel as [|fuel IH]; intros data a b limit wb wp Hab Hb Hfuel Hlow;
    [lia|].
  cbn [pdqsortCmpFunc].
  destruct (Nat.leb_spec (b - a) maxInsertion) as [Hsmall|Hbig].
  { by apply (insertionSort_spec d cmp key cmp_key). }
  unfold maxInsertion in Hbig.
  destruct (Nat.eqb_spec limit 0) as [_|_].
  { by apply (heapSort_spec d cmp key cmp_key). }
  destruct (if negb wb then (breakPatternsCmpFunc d data a b, limit - 1)
            else (data, limit)) as [data1 limit1] eqn:E1.
  assert (Hs1 : swaps d a b data data1).
  { destruct wb; injection E1 as <- _;
      [apply swaps_refl | by apply breakPatterns_swaps]. }
  pose proof (swaps_length d _ _ _ _ Hs1) as Hlen1.
  pose proof (choosePivot_range d cmp data1 a b ltac:(lia)) as Hpivot.
  destruct (choosePivotCmpFunc d cmp data1 a b) as [pivot hint].
  cbn [fst] in Hpivot.
  destruct (if isDecreasing hint
            then (reverseRangeCmpFunc d data1 a b, b - 1 - (pivot - a), increasingHint)
            else (data1, pivot, hint)) as [[data2 pivot2] hint2] eqn:E2.
  assert (H2 : swaps d a b data1 data2 ∧ a ≤ pivot2 ∧ pivot2 < b).
  { destruct (isDecreasing hint); injection E2 as <- <- _.
    - split; [apply reverseRange_swaps; lia | lia].
    - split; [apply swaps_refl | lia]. }
  destruct H2 as (Hs2 & Hp2a & Hp2b).
  pose proof (swaps_length d _ _ _ _ Hs2) as Hlen2.
  assert (Hlow2 : lower_bounded d key data2 a b).
  { eapply lower_bounded_swaps; [exact Hs2|].
    eapply lower_bounded_swaps; [exact Hs1 | exact Hlow]. }
  destruct (if wb && wp && isIncreasing hint2
            then partialInsertionSortCmpFunc d cmp data2 a b
            else (data2, false)) as [data3 finished] eqn:E3.
  assert (H3 : swaps d a b data2 data3
               ∧ (finished = true → sorted_range d key data3 a b)).
  { destruct (wb && wp && isIncreasing hint2).
    - pose proof (partialInsertionSort_spec d cmp key cmp_key data2 a b
                    ltac:(lia) ltac:(lia) Hlow2) as Hpart.
      rewrite E3 in Hpart. exact Hpart.
    - injection E3 as <- <-. split; [apply swaps_refl | done]. }
  destruct H3 as [Hs3 Hfin].
  pose proof (swaps_length d _ _ _ _ Hs3) as Hlen3.
  assert (Hs03 : swaps d a b data data3).
  { eapply swaps_trans; [exact Hs1|]. by eapply swaps_trans. }
  assert (Hlow3 : lower_bounded d key data3 a b)
    by (eapply lower_bounded_swaps; [exact Hs3 | exact Hlow2]).
  destruct finished; [by split; [|apply Hfin]|]. clear Hfin.
  destruct ((0 <? a) && negb (less cmp (at_ d data3 (a - 1)) (at_ d data3 pivot2)))
    eqn:Eequal.
  - apply andb_prop in Eequal as [Hpos Hnot].
    apply Nat.ltb_lt in Hpos. rewrite cmp_key in Hnot.
    apply negb_true_iff, Z.ltb_ge in Hnot.
    destruct Hlow3 as [->|Hlow3]; [lia|].
    destruct (partitionEqual_spec d cmp key cmp_key data3 a b pivot2)
      as (data4 & mid & Heq & Hs4 & Hm1 & Hm2 & Hsame & Habove); [lia..| |].
    { intros k Hk Hk'. specialize (Hlow3 k Hk Hk'). lia. }
    rewrite Heq.
    pose proof (swaps_length d _ _ _ _ Hs4) as Hlen4.
    destruct (IH data4 mid b limit1 wb wp) as [Hs5 Hsorted]; [lia | lia | lia | |].
    { right. intros k Hk Hk'. rewrite (Hsame (mid - 1)) by lia.
      specialize (Habove k ltac:(lia) Hk'). lia. }
    set (r := pdqsortCmpFunc d cmp fuel data4 mid b limit1 wb wp) in *.
    clearbody r. split.
    + eapply swaps_trans; [exact Hs03|]. eapply swaps_trans; [exact Hs4|].
      eapply swaps_weaken; [| | |exact Hs5]; lia.
    + apply (sorted_after_equal r a mid b (key (at_ d data3 pivot2))); [done | |].
      * intros k Hk Hk'. rewrite (swaps_outside d mid b data4 r) by (done || lia).
        by apply Hsame.
      * by apply (swaps_forall d mid b data4 r
                    (fun e => (key (at_ d data3 pivot2) < key e)%Z)).
  - clear Eequal.
    destruct (partition_spec d cmp key cmp_key data3 a b pivot2)
      as (data4 & mid & already & Heq & Hs4 & Hm1 & Hm2 & Hmid & Hbelow & Habove);
      [lia..|].
    rewrite Heq.
    pose proof (swaps_length d _ _ _ _ Hs4) as Hlen4.
    assert (Hlow4 : lower_bounded d key data4 a b)
      by (eapply lower_bounded_swaps; [exact Hs4 | exact Hlow3]).
    set (pk := key (at_ d data3 pivot2)) in *. clearbody pk.
    destruct (mid - a <? b - mid).
    + destruct (IH data4 a mid limit1 true true) as [Hs5 Hsorted5];
        [lia | lia | lia | |].
      { destruct Hlow4 as [->|Hlow4]; [by left | right].
        intros k Hk Hk'. apply Hlow4; lia. }
      set (r1 := pdqsortCmpFunc d cmp fuel data4 a mid limit1 true true) in *.
      clearbody r1.
      pose proof (swaps_length d _ _ _ _ Hs5) as Hlen5.
      destruct (IH r1 (mid + 1) b limit1 ((b - a) / 8 <=? mid - a) already)
        as [Hs6 Hsorted6]; [lia | lia | lia | |].
      { right. intros k Hk Hk'. replace (mid + 1 - 1) with mid by lia.
        rewrite !(swaps_outside d a mid data4 r1) by (done || lia).
        rewrite Hmid. apply Habove; lia. }
      set (r := pdqsortCmpFunc d cmp fuel r1 (mid + 1) b limit1 _ already) in *.
      clearbody r. split.
      * eapply swaps_trans; [exact Hs03|]. eapply swaps_trans; [exact Hs4|].
        eapply swaps_trans.
        -- eapply swaps_weaken; [| | |exact Hs5]; lia.
        -- eapply swaps_weaken; [| | |exact Hs6]; lia.
      * apply (sorted_around r a mid b pk).
        -- eapply (sorted_range_outside d key); [exact Hs6 | lia | done].
        -- done.
        -- rewrite (swaps_outside d (mid + 1) b r1 r) by (done || lia).
           by rewrite (swaps_outside d a mid data4 r1) by (done || lia).
        -- intros k Hk Hk'.
           rewrite (swaps_outside d (mid + 1) b r1 r) by (done || lia).
           apply (swaps_forall d a mid data4 r1 (fun e => (key e ≤ pk)%Z));
             [done | | done | done].
           intros k' ? ?. specialize (Hbelow k' ltac:(lia) ltac:(lia)). lia.
        -- intros k Hk Hk'.
           apply (swaps_forall d (mid + 1) b r1 r (fun e => (pk ≤ key e)%Z));
             [done | | lia | done].
           intros k' ? ?.
           rewrite (swaps_outside d a mid data4 r1) by (done || lia).
           apply Habove; lia.
    + destruct (IH data4 (mid + 1) b limit1 true true) as [Hs5 Hsorted5];
        [lia | lia | lia | |].
      { right. intros k Hk Hk'. replace (mid + 1 - 1) with mid by lia.
        rewrite Hmid. apply Habove; lia. }
      set (r1 := pdqsortCmpFunc d cmp fuel data4 (mid + 1) b limit1 true true) in *.
      clearbody r1.
      pose proof (swaps_length d _ _ _ _ Hs5) as Hlen5.
      destruct (IH r1 a mid limit1 ((b - a) / 8 <=? b - mid) already)
        as [Hs6 Hsorted6]; [lia | lia | lia | |].
      { destruct Hlow4 as [->|Hlow4]; [by left | right].
        intros k Hk Hk'.
        rewrite !(swaps_outside d (mid + 1) b data4 r1) by (done || lia).
        apply Hlow4; lia. }
      set (r := pdqsortCmpFunc d cmp fuel r1 a mid limit1 _ already) in *.
      clearbody r. split.
      * eapply swaps_trans; [exact Hs03|]. eapply swaps_trans; [exact Hs4|].
        eapply swaps_trans.
        -- eapply swaps_weaken; [| | |exact Hs5]; lia.
        -- eapply swaps_weaken; [| | |exact Hs6]; lia.
      * apply (sorted_around r a mid b pk).
        -- done.
        -- eapply (sorted_range_outside d key); [exact Hs6 | lia | done].
        -- rewrite (swaps_outside d a mid r1 r) by (done || lia).
           by rewrite (swaps_outside d (mid + 1) b data4 r1) by (done || lia).
        -- intros k Hk Hk'.
           apply (swaps_forall d a mid r1 r (fun e => (key e ≤ pk)%Z));
             [done | | done | done].
           intros k' ? ?.
           rewrite (swaps_outside d (mid + 1) b data4 r1) by (done || lia).
           specialize (Hbelow k' ltac:(lia) ltac:(lia)). lia.
        -- intros k Hk Hk'.
           rewrite (swaps_outside d a mid r1 r) by (done || lia).
           apply (swaps_forall d (mid + 1) b data4 r1 (fun e => (pk ≤ key e)%Z));
             [done | | lia | done].
           intros k' ? ?. apply Habove; lia.
Qed.

(** [SortFunc] returns its argument in ascending order of keys. *)
Lemma SortFunc_spec (x : list E) :
  SortFunc d cmp x ≡ₚ x
  ∧ sorted_range d key (SortFunc d cmp x) 0 (length x).
Proof.
  destruct (pdqsort_spec (S (length x)) x 0 (length x) (bits_Len (length x))
              true true) as [Hs Hsorted]; [lia | lia | lia | by left |].
  split; [by apply (swaps_Permutation d 0 (length x)) | done].
Qed.
End Main.


(** *** Short slices: the insertion sort keeps equal keys in order *)

Section Stability.
Local Open Scope nat_scope.

Context {E : Type}.
Variable d : E.
Variable cmp : E → E → Z.
Variable key : E → Z.
Hypothesis cmp_key : ∀ x y, less cmp x y = (key x <? key y)%Z.

(** The elements of key [t], in the order of the slice. *)
Definition with_key (t : Z) (data : list E) : list E :=
  filter (fun e => key e = t) data.

Lemma swap_adjacent_with_key (t : Z) (j : nat) :
  ∀ data : list E,
    S j < length data → key (at_ d data (S j)) ≠ key (at_ d data j) →
    with_key t (swap d data (S j) j) = with_key t data.
Proof.
  unfold with_key.
  induction j as [|j IH]; intros [|x [|y l]] Hlen Hne; simpl in Hlen; try lia.
  - unfold swap, at_ in *. simpl in *. rewrite !filter_cons.
    repeat case_decide; congruence.
  - change (swap d (x :: y :: l) (S (S j)) (S j))
      with (x :: swap d (y :: l) (S j) j).
    rewrite !(filter_cons _ x). rewrite IH; [done | simpl; lia | done].
Qed.

Lemma insertDown_with_key (t : Z) (j : nat) :
  ∀ (data : list E) (a : nat),
    j < length data → with_key t (insertDown d cmp data a j) = with_key t data.
Proof.
  induction j as [|j IH]; intros data a Hj; [done|]. cbn [insertDown].
  destruct (a <? S j); cbn [andb]; [|done].
  rewrite cmp_key.
  destruct (Z.ltb_spec (key (at_ d data (S j))) (key (at_ d data j))); [|done].
  rewrite IH by (rewrite swap_length; lia).
  apply swap_adjacent_with_key; lia.
Qed.

Lemma insertDown_length (j : nat) (data : list E) (a : nat) :
  j < length data → length (insertDown d cmp data a j) = length data.
Proof.
  intros Hj. apply (swaps_length d a (length data)).
  by apply insertDown_swaps.
Qed.

Lemma insertionSort_with_key (t : Z) (data : list E) (a b : nat) :
  b ≤ length data →
  with_key t (insertionSortCmpFunc d cmp data a b) = with_key t data.
Proof.
  unfold insertionSortCmpFunc. intros Hb.
  assert (Hin : ∀ i, i ∈ seq (a + 1) (b - (a + 1)) → i < length data).
  { intros i [? ?]%elem_of_seq. lia. }
  revert data Hb Hin.
  induction (seq (a + 1) (b - (a + 1))) as [|i l IH]; intros data Hb Hin; [done|].
  cbn [foldl].
  assert (Hi : i < length data) by (apply Hin; left).
  rewrite IH.
  - by apply insertDown_with_key.
  - by rewrite insertDown_length.
  - intros k Hk. rewrite insertDown_length by done. apply Hin. by right.
Qed.

Lemma SortFunc_short (x : list E) :
  length x ≤ maxInsertion → SortFunc d cmp x = insertionSortCmpFunc d cmp x 0 (length x).
Proof.
  intros Hlen. unfold SortFunc. cbn [pdqsortCmpFunc]. rewrite Nat.sub_0_r.
  by destruct (Nat.leb_spec (length x) maxInsertion); [|lia].
Qed.

(** Up to [maxInsertion] elements [SortFunc] keeps the elements of equal
    key in their order. *)
Lemma SortFunc_short_with_key (t : Z) (x : list E) :
  length x ≤ maxInsertion → with_key t (SortFunc d cmp x) = with_key t x.
Proof.
  intros Hlen. rewrite SortFunc_short by done.
  by apply insertionSort_with_key.
Qed.
End Stability.


End PdqsortFacts.


(** ** [SortRuns]: ascending, and in which case stable *)

(** The key of the comparison: the instant at which the run started. *)
Definition startedAt (h : Store) (p : ptr) : Z := instant (Run.Started (h p)).

(** The runs of [runs] started at the instant [t], in the order of [runs]. *)
Definition startedTogether (h : Store) (t : Z) (runs : list ptr) : list ptr :=
  filter (fun p => startedAt h p = t) runs.

(** [runs] is in non-decreasing order of [Started]. *)
Definition ascendingStarted (h : Store) (runs : list ptr) : Prop :=
  ∀ (i j : nat) (p q : ptr),
    (i ≤ j)%nat → runs !! i = Some p → runs !! j = Some q →
    startedAt h p ≤ startedAt h q.

(** Runs of equal [Started] are in [after] in the order they have in
    [before]. *)
Definition keepsEqualStartedOrder (h : Store) (before after : list ptr) : Prop :=
  ∀ t : Z, startedTogether h t after = startedTogether h t before.

Lemma Started_Compare_less (h : Store) (x y : ptr) :
  Pdqsort.less
    (fun a b => Time_Compare (Run.Started (h a)) (Run.Started (h b))) x y
  = (startedAt h x <? startedAt h y).
Proof.
  unfold Pdqsort.less, Time_Compare, startedAt.
  destruct (Z.ltb_spec (instant (Run.Started (h x))) (instant (Run.Started (h y))));
    [done|].
  by destruct (instant (Run.Started (h y)) <? instant (Run.Started (h x))).
Qed.

(** C2, as amended.  [SortRuns]
    permutes the runs of the report into non-decreasing order of [Started],
    changes nothing else, and keeps runs of equal [Started] in their previous
    relative order when the report has at most 12 runs. *)
Theorem SortRuns_ascending_stable_when_short (h : Store) (r : Report) :
  Runs (SortRuns h r) ≡ₚ Runs r
  ∧ shouldColor (SortRuns h r) = shouldColor r
  ∧ ascendingStarted h (Runs (SortRuns h r))
  ∧ ((length (Runs r) ≤ 12)%nat →
     keepsEqualStartedOrder h (Runs r) (Runs (SortRuns h r))).
Proof.
  set (cmp := fun a b => Time_Compare (Run.Started (h a)) (Run.Started (h b))).
  destruct (PdqsortFacts.SortFunc_spec 0%nat cmp (startedAt h)
              (Started_Compare_less h) (Runs r)) as [Hperm Hsorted].
  change (Runs (SortRuns h r)) with (Pdqsort.SortFunc 0%nat cmp (Runs r)).
  split_and!; [done | done | |].
  - intros i j p q Hij Hp Hq.
    pose proof (lookup_lt_Some _ _ _ Hp) as Hi.
    pose proof (lookup_lt_Some _ _ _ Hq) as Hj.
    rewrite (PdqsortFacts.at_lookup 0%nat) in Hp, Hq by done.
    injection Hp as <-. injection Hq as <-.
    apply Hsorted; [lia | done |]. by rewrite <- (Permutation_length Hperm).
  - intros Hshort t.
    by apply (PdqsortFacts.SortFunc_short_with_key 0%nat cmp (startedAt h)
                (Started_Compare_less h)).
Qed.

(** Three runs: the first one started after the other two, which started
    together. *)
Definition threeStore : Store :=
  fun p =>
    Run.mk (mkTime (if (p =? 0)%nat then 2000 else 1000) 0) zeroTime None None
      ("/unit/" +:+ Itoa (Z.of_nat p)) "".

Lemma SortRuns_ascending_stable_when_short_witness :
  (length (Runs (mkReport [0; 1; 2]%nat true)) ≤ 12)%nat
  ∧ keepsEqualStartedOrder threeStore [0; 1; 2]%nat
      (Runs (SortRuns threeStore (mkReport [0; 1; 2]%nat true))).
Proof.
  split; [simpl; lia|].
  apply (SortRuns_ascending_stable_when_short threeStore (mkReport [0; 1; 2]%nat true)).
  simpl; lia.
Defined.

(** Thirteen runs: the first twelve started at the same instant, the last
    one, added last, just before them. *)
Definition thirteenStore : Store :=
  fun p =>
    Run.mk (mkTime (if (p =? 12)%nat then 999 else 1000) 0) zeroTime None None
      ("/unit/" +:+ Itoa (Z.of_nat p)) "".

Definition thirteenRuns : Report := mkReport (seq 0 13) true.

(** C2 as stated fails on thirteen runs: the runs at addresses 0 and 6
    started together and 0 comes first, and [SortRuns] puts 6 before 0. *)
Lemma SortRuns_reorders_equal_Started :
  Runs (SortRuns thirteenStore thirteenRuns)
  = [12; 6; 2; 3; 4; 5; 0; 7; 8; 9; 10; 11; 1]%nat
  ∧ startedAt thirteenStore 0%nat = startedAt thirteenStore 6%nat
  ∧ ¬ keepsEqualStartedOrder thirteenStore (Runs thirteenRuns)
        (Runs (SortRuns thirteenStore thirteenRuns)).
Proof.
  assert (Hruns : Runs (SortRuns thirteenStore thirteenRuns)
                  = [12; 6; 2; 3; 4; 5; 0; 7; 8; 9; 10; 11; 1]%nat)
    by (vm_compute; reflexivity).
  split_and!; [exact Hruns | reflexivity |].
  intros Hkeep. specialize (Hkeep 1000). rewrite Hruns in Hkeep.
  vm_compute in Hkeep. discriminate Hkeep.
Qed.


(** ** The tabular export

    [WriteCSV] goes through [encoding/csv] and, below it, a [bufio.Writer];
    timestamps are printed by [Time.Format] with the layout [time.RFC3339].
    These library functions are modelled first. *)

Definition quoteChar : ascii := "034"%char.
Definition crChar : ascii := "013"%char.
Definition lfChar : ascii := "010"%char.
Definition commaChar : ascii := ","%char.

(** *** [Time.Format(time.RFC3339)] *)

(** [appendInt]: sign, zero padding up to [width], digits. *)
Definition appendInt (x : Z) (width : nat) : string :=
  let digits := Itoa (Z.abs x) in
  (if x <? 0 then "-" else "")
  +:+ Nat.iter (width - String.length digits) (fun acc => "0" +:+ acc) ""
  +:+ digits.

(** Year, month and day of a count of days since January 1, year 1
    (proleptic Gregorian calendar). *)
Definition civilDate (days : Z) : Z * Z * Z :=
  let z := days + 306 in
  let era := z / 146097 in
  let doe := z - era * 146097 in
  let yoe := (doe - doe / 1460 + doe / 36524 - doe / 146096) / 365 in
  let doy := doe - (365 * yoe + yoe / 4 - yoe / 100) in
  let mp := (5 * doy + 2) / 153 in
  let day := doy - (153 * mp + 2) / 5 + 1 in
  let month := if mp <? 10 then mp + 3 else mp - 9 in
  let year := yoe + era * 400 + (if month <=? 2 then 1 else 0) in
  (year, month, day).

Definition Time_Format_RFC3339 (t : Time) : string :=
  let abs := instant t / 1000000000 + zoneOffset t in
  let '(year, month, day) := civilDate (abs / 86400) in
  let secs := abs mod 86400 in
  let offset := zoneOffset t in
  appendInt year 4 +:+ "-" +:+ appendInt month 2 +:+ "-" +:+ appendInt day 2
  +:+ "T" +:+ appendInt (secs / 3600) 2 +:+ ":" +:+ appendInt (secs mod 3600 / 60) 2
  +:+ ":" +:+ appendInt (secs mod 60) 2
  +:+ (if offset =? 0 then "Z"
       else
         let zone := Z.quot offset 60 in
         (if zone <? 0 then "-" else "+")
         +:+ appendInt (Z.abs zone / 60) 2 +:+ ":" +:+ appendInt (Z.abs zone mod 60) 2).

(** *** [encoding/csv] *)

(** [utf8.DecodeRuneInString], as far as the first rune; [RuneError] on an
    empty or ill-formed prefix. *)
Definition RuneError : Z := 65533.

Definition continuation (b lo hi : Z) : bool := (lo <=? b) && (b <=? hi).

Definition firstRune (s : string) : Z :=
  match map (fun c => Z.of_nat (nat_of_ascii c)) (list_ascii_of_string s) with
  | [] => RuneError
  | b0 :: rest =>
      if b0 <? 128 then b0
      else if (194 <=? b0) && (b0 <=? 223) then
        match rest with
        | b1 :: _ =>
            if continuation b1 128 191
            then Z.lor (Z.shiftl (Z.land b0 31) 6) (Z.land b1 63)
            else RuneError
        | _ => RuneError
        end
      else if (224 <=? b0) && (b0 <=? 239) then
        match rest with
        | b1 :: b2 :: _ =>
            let lo := if b0 =? 224 then 160 else 128 in
            let hi := if b0 =? 237 then 159 else 191 in
            if continuation b1 lo hi && continuation b2 128 191
            then Z.lor (Z.shiftl (Z.land b0 15) 12)
                   (Z.lor (Z.shiftl (Z.land b1 63) 6) (Z.land b2 63))
            else RuneError
        | _ => RuneError
        end
      else if (240 <=? b0) && (b0 <=? 244) then
        match rest with
        | b1 :: b2 :: b3 :: _ =>
            let lo := if b0 =? 240 then 144 else 128 in
            let hi := if b0 =? 244 then 143 else 191 in
            if continuation b1 lo hi && continuation b2 128 191
               && continuation b3 128 191
            then Z.lor (Z.shiftl (Z.land b0 7) 18)
                   (Z.lor (Z.shiftl (Z.land b1 63) 12)
                      (Z.lor (Z.shiftl (Z.land b2 63) 6) (Z.land b3 63)))
            else RuneError
        | _ => RuneError
        end
      else RuneError
  end.

(** [unicode.IsSpace]. *)
Definition unicode_IsSpace (r : Z) : bool :=
  ((9 <=? r) && (r <=? 13)) || (r =? 32) || (r =? 133) || (r =? 160)
  || (r =? 5760) || ((8192 <=? r) && (r <=? 8202)) || (r =? 8232) || (r =? 8233)
  || (r =? 8239) || (r =? 8287) || (r =? 12288).

Definition isSpecial (c : ascii) : bool :=
  Ascii.eqb c lfChar || Ascii.eqb c crChar || Ascii.eqb c quoteChar
  || Ascii.eqb c commaChar.

(** [Writer.fieldNeedsQuotes] for the default delimiter. *)
Definition fieldNeedsQuotes (field : string) : bool :=
  if String.eqb field "" then false
  else if String.eqb field "\." then true
  else if existsb isSpecial (list_ascii_of_string field) then true
  else unicode_IsSpace (firstRune field).

(** The body of a quoted field: a quote is doubled, and without [UseCRLF]
    carriage returns and line feeds are copied. *)
Fixpoint quoteBody (field : string) : string :=
  match field with
  | EmptyString => EmptyString
  | String c rest =>
      if Ascii.eqb c quoteChar then String quoteChar (String quoteChar (quoteBody rest))
      else String c (quoteBody rest)
  end.

Definition csvField (field : string) : string :=
  if fieldNeedsQuotes field
  then String quoteChar (quoteBody field +:+ String quoteChar "")
  else field.

Fixpoint csvFields (record : list string) : string :=
  match record with
  | [] => ""
  | [field] => csvField field
  | field :: rest => csvField field +:+ "," +:+ csvFields rest
  end.

(** What [csv.Writer.Write] hands to its buffer for one record, with the
    terminator the writer is set to ([UseCRLF] or not). *)
Definition csvRecord (useCRLF : bool) (record : list string) : string :=
  csvFields record
  +:+ (if useCRLF then String crChar (String lfChar "") else String lfChar "").

(** *** [bufio.Writer] over an [io.Writer] *)

Definition Writer_Write (w : Writer) (p : list ascii) : Writer * option error :=
  match accepts w with
  | None => (mkWriter (written w +:+ string_of_list_ascii p) None, None)
  | Some (S n) => (mkWriter (written w +:+ string_of_list_ascii p) (Some n), None)
  | Some O => (w, Some (ErrIO "write"))
  end.

Definition defaultBufSize : nat := 4096.

Record Bufio := mkBufio { buf : list ascii; berr : option error; wr : Writer }.

Definition bufio_Flush (b : Bufio) : Bufio :=
  match berr b with
  | Some _ => b
  | None =>
      match buf b with
      | [] => b
      | _ :: _ =>
          match Writer_Write (wr b) (buf b) with
          | (w, None) => mkBufio [] None w
          | (w, Some e) => mkBufio (buf b) (Some e) w
          end
      end
  end.

Definition bufio_Available (b : Bufio) : nat := (defaultBufSize - length (buf b))%nat.

Definition noError (b : Bufio) : bool :=
  match berr b with None => true | Some _ => false end.

(** [bufio.Writer.WriteString]: fill the buffer and flush while the string
    does not fit, then keep the rest. *)
Fixpoint bufio_WriteString (fuel : nat) (b : Bufio) (s : list ascii)
    : Bufio * option error :=
  match fuel with
  | O => (b, berr b)
  | S fuel' =>
      if (bufio_Available b <? length s)%nat && noError b
      then
        let n := bufio_Available b in
        let b := bufio_Flush (mkBufio (buf b ++ take n s) (berr b) (wr b)) in
        bufio_WriteString fuel' b (drop n s)
      else
        match berr b with
        | Some e => (b, Some e)
        | None => (mkBufio (buf b ++ s) None (wr b), None)
        end
  end.

(** [csv.Writer.Write] with the zero value of [UseCRLF], which is what
    [csv.NewWriter] leaves: the record goes to the buffer field by field,
    which for the buffer is the same as one write of the whole record. *)
Definition csv_Write (b : Bufio) (record : list string) : Bufio * option error :=
  let line := list_ascii_of_string (csvRecord false record) in
  bufio_WriteString (S (length line)) b line.

(** *** [WriteCSV] *)

Definition csvHeader : list string :=
  ["Name"; "Started"; "Ended"; "Result"; "Reason"; "Cause"].

Definition csvRow (run : Run.t) : list string :=
  [ Run.Name run;
    Time_Format_RFC3339 (Run.Started run);
    Time_Format_RFC3339 (Run.Ended run);
    Run.Result run;
    match Run.Reason run with Some reason => reason | None => "" end;
    match Run.Cause run with Some cause => cause | None => "" end ].

Fixpoint writeRows (h : Store) (b : Bufio) (runs : list ptr) : Bufio * option error :=
  match runs with
  | [] => (b, None)
  | run :: rest =>
      match csv_Write b (csvRow (h run)) with
      | (b, Some e) => (b, Some e)
      | (b, None) => writeRows h b rest
      end
  end.

(** The deferred [csvWriter.Flush()] runs on every way out, and what it
    meets is not looked at. *)
Definition WriteCSV (h : Store) (r : Report) (w : Writer) : Writer * option error :=
  let csvWriter := mkBufio [] None w in
  match csv_Write csvWriter csvHeader with
  | (b, Some e) => (wr (bufio_Flush b), Some e)
  | (b, None) =>
      let '(b, err) := writeRows h b (Runs r) in
      (wr (bufio_Flush b), err)
  end.

(** The export as a text: the header record, then one record per run in
    the order of the list, each followed by [terminator]. *)
Definition tabular (terminator : string) (h : Store) (runs : list ptr) : string :=
  fold_right (fun record text => csvFields record +:+ terminator +:+ text) ""
    (csvHeader :: map (fun run => csvRow (h run)) runs).

(** *** The bytes that reach the writer *)

Lemma append_cons (x : ascii) (a b : string) : String x a +:+ b = String x (a +:+ b).
Proof. reflexivity. Qed.

Lemma append_empty_l (b : string) : "" +:+ b = b.
Proof. reflexivity. Qed.

Lemma list_ascii_of_string_app (a b : string) :
  list_ascii_of_string (a +:+ b) = list_ascii_of_string a ++ list_ascii_of_string b.
Proof.
  induction a as [|c a IH]; [done|].
  rewrite append_cons. simpl. by rewrite IH.
Qed.

Lemma string_of_list_ascii_app (a b : list ascii) :
  string_of_list_ascii (a ++ b) = string_of_list_ascii a +:+ string_of_list_ascii b.
Proof.
  induction a as [|c a IH]; [done|].
  simpl. by rewrite append_cons, IH.
Qed.

Lemma append_assoc (a b c : string) : (a +:+ b) +:+ c = a +:+ (b +:+ c).
Proof.
  induction a as [|x a IH]; [done|].
  by rewrite !append_cons, IH.
Qed.

Lemma append_empty_r (a : string) : a +:+ "" = a.
Proof.
  induction a as [|x a IH]; [done|].
  by rewrite append_cons, IH.
Qed.

(** Everything the buffer has been given: what is written and what waits. *)
Definition pending (b : Bufio) : string :=
  written (wr b) +:+ string_of_list_ascii (buf b).

(** A buffer without error over a writer that takes every write. *)
Definition healthy (b : Bufio) : Prop :=
  berr b = None ∧ accepts (wr b) = None ∧ (length (buf b) ≤ defaultBufSize)%nat.

Lemma bufio_Flush_healthy (b : Bufio) :
  healthy b ->
  healthy (bufio_Flush b) ∧ buf (bufio_Flush b) = []
  ∧ pending (bufio_Flush b) = pending b.
Proof.
  intros (He & Ha & Hl). unfold bufio_Flush. rewrite He.
  destruct (buf b) as [|c rest] eqn:Hb.
  - unfold healthy. rewrite He, Ha, Hb.
    split_and!; try reflexivity. apply Nat.le_0_l.
  - unfold Writer_Write. rewrite Ha. unfold healthy, pending. cbn [buf berr wr written accepts].
    split_and!; try reflexivity; [apply Nat.le_0_l|].
    rewrite Hb. cbn [string_of_list_ascii]. by rewrite append_empty_r.
Qed.

Lemma defaultBufSize_pos : (1 < defaultBufSize)%nat.
Proof. unfold defaultBufSize. apply -> Nat.succ_lt_mono. apply Nat.lt_0_succ. Qed.

#[local] Opaque defaultBufSize.

Lemma bufio_WriteString_healthy (fuel : nat) (b : Bufio) (s : list ascii) :
  healthy b ->
  (length (buf b) + length s < defaultBufSize * fuel)%nat ->
  ∃ b', bufio_WriteString fuel b s = (b', None) ∧ healthy b'
        ∧ pending b' = pending b +:+ string_of_list_ascii s.
Proof.
  revert b s. induction fuel as [|fuel IH]; intros b s Hh Hf.
  { rewrite Nat.mul_0_r in Hf. lia. }
  rewrite Nat.mul_succ_r in Hf.
  pose proof Hh as (He & Ha & Hl).
  cbn [bufio_WriteString]. unfold noError, bufio_Available. rewrite He.
  destruct (Nat.ltb_spec (defaultBufSize - length (buf b)) (length s)) as [Hlt|Hge];
    cbn [andb].
  - set (n := (defaultBufSize - length (buf b))%nat) in *.
    assert (Hfull : healthy (mkBufio (buf b ++ take n s) None (wr b))).
    { unfold healthy. cbn [buf berr wr]. split_and!; [done | done |].
      rewrite length_app, length_take. lia. }
    destruct (bufio_Flush_healthy _ Hfull) as (Hh' & Hb' & Hp').
    destruct (IH (bufio_Flush (mkBufio (buf b ++ take n s) None (wr b))) (drop n s) Hh')
      as (b' & Hw & Hh'' & Hp'').
    { rewrite Hb', length_drop. cbn [length]. lia. }
    exists b'. split_and!; [exact Hw | done |].
    rewrite Hp'', Hp'. unfold pending. cbn [buf wr].
    rewrite string_of_list_ascii_app, !append_assoc.
    by rewrite <- string_of_list_ascii_app, take_drop.
  - eexists. split; [reflexivity|]. split.
    + unfold healthy. cbn [buf berr wr]. split_and!; [done | done |].
      rewrite length_app. lia.
    + unfold pending. cbn [buf wr]. by rewrite string_of_list_ascii_app, append_assoc.
Qed.

Lemma csv_Write_healthy (b : Bufio) (record : list string) :
  healthy b ->
  ∃ b', csv_Write b record = (b', None) ∧ healthy b'
        ∧ pending b' = pending b +:+ csvFields record +:+ String lfChar "".
Proof.
  intros Hh. unfold csv_Write.
  destruct (bufio_WriteString_healthy
              (S (length (list_ascii_of_string (csvRecord false record)))) b
              (list_ascii_of_string (csvRecord false record)) Hh)
    as (b' & Hw & Hh' & Hp).
  - destruct Hh as (_ & _ & Hl). unfold csvRecord.
    rewrite list_ascii_of_string_app, length_app. cbn [list_ascii_of_string length].
    pose proof defaultBufSize_pos. nia.
  - exists b'. split_and!; [done | done |].
    rewrite Hp, string_of_list_ascii_of_string. done.
Qed.

Lemma writeRows_healthy (h : Store) (runs : list ptr) (b : Bufio) :
  healthy b ->
  ∃ b', writeRows h b runs = (b', None) ∧ healthy b'
        ∧ pending b'
          = pending b
            +:+ fold_right (fun record text =>
                  csvFields record +:+ String lfChar "" +:+ text) ""
                  (map (fun run => csvRow (h run)) runs).
Proof.
  revert b. induction runs as [|run runs IH]; intros b Hh.
  - exists b. split_and!; [done | done |]. simpl. by rewrite append_empty_r.
  - change (writeRows h b (run :: runs))
      with (match csv_Write b (csvRow (h run)) with
            | (b, Some e) => (b, Some e)
            | (b, None) => writeRows h b runs
            end).
    destruct (csv_Write_healthy b (csvRow (h run)) Hh) as (b1 & -> & Hh1 & Hp1).
    destruct (IH b1 Hh1) as (b' & -> & Hh' & Hp').
    exists b'. split_and!; [done | done |].
    rewrite Hp', Hp1. cbn [map fold_right]. by rewrite !append_assoc.
Qed.

(** C4, as amended.  Onto a writer that takes every write, [WriteCSV]
    returns no error and appends the header record
    [Name,Started,Ended,Result,Reason,Cause] and then one record per run, in
    the order of the report's list; every record ends with a single line
    feed (the writer is left at its default, without [UseCRLF]), the
    timestamps are printed with the RFC 3339 layout, and a missing reason
    or cause is the empty field. *)
Theorem WriteCSV_tabular :
  ∀ (h : Store) (r : Report) (text : string),
    WriteCSV h r (mkWriter text None)
    = (mkWriter (text +:+ tabular (String lfChar "") h (Runs r)) None, None)
    ∧ csvFields csvHeader = "Name,Started,Ended,Result,Reason,Cause"
    ∧ ∀ run : Run.t,
        csvRow run
        = [ Run.Name run;
            Time_Format_RFC3339 (Run.Started run);
            Time_Format_RFC3339 (Run.Ended run);
            Run.Result run;
            default "" (Run.Reason run);
            default "" (Run.Cause run) ].
Proof.
  intros h r text. split; [|split; [by vm_compute | by intros [? ? [?|] [?|] ? ?]]].
  unfold WriteCSV.
  assert (H0 : healthy (mkBufio [] None (mkWriter text None))).
  { unfold healthy. cbn [buf berr wr accepts]. split_and!; [done | done | apply Nat.le_0_l]. }
  destruct (csv_Write_healthy _ csvHeader H0) as (b1 & -> & Hh1 & Hp1).
  destruct (writeRows_healthy h (Runs r) b1 Hh1) as (b2 & -> & Hh2 & Hp2).
  destruct (bufio_Flush_healthy b2 Hh2) as ((_ & Ha & _) & Hb & Hp).
  f_equal. destruct (wr (bufio_Flush b2)) as [out acc] eqn:Hw.
  simpl in Ha. subst acc. f_equal.
  unfold pending in Hp at 1. rewrite Hw, Hb in Hp. simpl in Hp.
  rewrite append_empty_r in Hp. rewrite Hp, Hp2, Hp1.
  unfold pending; simpl. unfold tabular. cbn [fold_right].
  by rewrite !append_assoc.
Qed.

(** C4 as stated asks for records ending in CR LF; the export of a report
    of one run shows the line feeds alone. *)
Definition oneRun : Store :=
  fun _ => Run.mk (mkTime 63871286400000000000 0) (mkTime 63871286460000000000 0)
             None None "/unit" ResultSucceeded.

Lemma WriteCSV_not_CRLF :
  fst (WriteCSV oneRun (mkReport [0%nat] true) (mkWriter "" None))
  ≠ mkWriter (tabular (String crChar (String lfChar "")) oneRun [0%nat]) None.
Proof. vm_compute. discriminate. Qed.


(** ** Writing the report to a file *)

(** The part of the operating system [WriteToFile] talks to: the files by
    path, and what the calls of one run come to.  [TempDir] is what
    [os.TempDir] returns, [tempRandom] the digits [os.CreateTemp] puts in
    place of the star of its pattern, [tmpAccepts] the number of writes the
    temporary file takes before failing ([None]: all). *)
Record Env := mkEnv
  { TempDir : string;
    tempRandom : string;
    createTempFails : bool;
    tmpAccepts : option nat;
    closeFails : bool;
    renameFails : bool }.

Abbreviation FS := (gmap string string).

Fixpoint endsWithSlash (s : string) : bool :=
  match s with
  | EmptyString => false
  | String c EmptyString => Ascii.eqb c "/"
  | String _ rest => endsWithSlash rest
  end.

Definition joinPath (dir name : string) : string :=
  if endsWithSlash dir then dir +:+ name else dir +:+ "/" +:+ name.

(** [os.CreateTemp]: an empty [dir] stands for the default directory for
    temporary files; the file is created exclusively. *)
Definition os_CreateTemp (env : Env) (fs : FS) (dir prefix suffix : string)
    : (string * FS) + error :=
  let dir := if String.eqb dir "" then TempDir env else dir in
  let name := joinPath dir (prefix +:+ tempRandom env +:+ suffix) in
  if createTempFails env then inr (ErrIO "open")
  else match fs !! name with
       | Some _ => inr (ErrIO "file exists")
       | None => inl (name, <[name := ""]> fs)
       end.

(** [os.Rename]: the new path takes the file of the old one in one step. *)
Definition os_Rename (env : Env) (fs : FS) (oldpath newpath : string)
    : FS * option error :=
  if renameFails env then (fs, Some (ErrIO "rename"))
  else match fs !! oldpath with
       | Some text => (<[newpath := text]> (delete oldpath fs), None)
       | None => (fs, Some (ErrIO "rename"))
       end.

Definition WriteToFile (env : Env) (h : Store) (r : Report) (fs : FS) (path : string)
    : FS * Report * option error :=
  match os_CreateTemp env fs "" "terragrunt-report-" ".csv" with
  | inr err => (fs, r, Some err)
  | inl (tmpFile, fs) =>
      let r := SortRuns h r in
      let '(w, err) := WriteCSV h r (mkWriter "" (tmpAccepts env)) in
      let fs := <[tmpFile := written w]> fs in
      match err with
      | Some err => (fs, r, Some (ErrWrapped "failed to write report" err))
      | None =>
          if closeFails env
          then (fs, r, Some (ErrWrapped "failed to close report file" (ErrIO "close")))
          else let '(fs, err) := os_Rename env fs tmpFile path in (fs, r, err)
      end
  end.

(** The path of the temporary file of a run. *)
Definition tmpPath (env : Env) : string :=
  joinPath (TempDir env) ("terragrunt-report-" +:+ tempRandom env +:+ ".csv").

(** [filepath.Dir] on a clean path: what comes before the last slash. *)
Fixpoint beforeLastSlash (s : list ascii) : option (list ascii) :=
  match s with
  | [] => None
  | c :: rest =>
      match beforeLastSlash rest with
      | Some pre => Some (c :: pre)
      | None => if Ascii.eqb c "/" then Some [] else None
      end
  end.

Definition filepath_Dir (path : string) : string :=
  match beforeLastSlash (list_ascii_of_string path) with
  | None => "."
  | Some [] => "/"
  | Some pre => string_of_list_ascii pre
  end.

(** What C3 says of a run of [WriteToFile]: every file it creates besides
    the destination lies in the directory of the destination, a returned
    error leaves the destination as it was, and otherwise the destination
    holds the complete export of the report. *)
Definition atomic_through_sibling (env : Env) (h : Store) (r : Report) (fs : FS)
    (path : string) : Prop :=
  let '(fs', r', err) := WriteToFile env h r fs path in
  (∀ p, p ≠ path → fs !! p = None → is_Some (fs' !! p) →
        filepath_Dir p = filepath_Dir path)
  ∧ (is_Some err → fs' !! path = fs !! path)
  ∧ (err = None →
     fs' !! path = Some (tabular (String lfChar "") h (Runs r'))).

(** C3, as amended.  [WriteToFile] creates its temporary file in the default
    directory for temporary files, wherever the destination is, sorts the
    runs, writes the export there and renames the file onto the
    destination; no other path is touched.  When it returns an error the
    destination is as it was.  When it returns none, the runs are sorted,
    the temporary file is gone and the destination holds what was written
    to it, which is the complete export whenever the temporary file took
    every write. *)
Theorem WriteToFile_atomic :
  ∀ (env : Env) (h : Store) (r : Report) (fs : FS) (path : string),
    path ≠ tmpPath env →
    ∀ fs' r' err, WriteToFile env h r fs path = (fs', r', err) →
      (∀ p, p ≠ path → p ≠ tmpPath env → fs' !! p = fs !! p)
      ∧ (is_Some err → fs' !! path = fs !! path)
      ∧ (err = None →
         r' = SortRuns h r
         ∧ fs' !! tmpPath env = None
         ∧ fs' !! path
           = Some (written (fst (WriteCSV h r' (mkWriter "" (tmpAccepts env)))))
         ∧ (tmpAccepts env = None →
            fs' !! path = Some (tabular (String lfChar "") h (Runs r')))).
Proof.
  intros env h r fs path Hne fs' r' err. unfold WriteToFile, os_CreateTemp.
  change (String.eqb "" "") with true. cbn iota. fold (tmpPath env).
  destruct (createTempFails env).
  { intros [= <- <- <-]. split_and!; [done | done | done]. }
  destruct (fs !! tmpPath env) as [old|] eqn:Hold.
  { intros [= <- <- <-]. split_and!; [done | done | done]. }
  destruct (WriteCSV h (SortRuns h r) (mkWriter "" (tmpAccepts env))) as [w e] eqn:Hw.
  destruct e as [e|].
  { intros [= <- <- <-]. split_and!; [| |done].
    - intros p _ Hp. by rewrite !lookup_insert_ne.
    - intros _. by rewrite !lookup_insert_ne. }
  destruct (closeFails env).
  { intros [= <- <- <-]. split_and!; [| |done].
    - intros p _ Hp. by rewrite !lookup_insert_ne.
    - intros _. by rewrite !lookup_insert_ne. }
  unfold os_Rename. destruct (renameFails env).
  { intros [= <- <- <-]. split_and!; [| |done].
    - intros p _ Hp. by rewrite !lookup_insert_ne.
    - intros _. by rewrite !lookup_insert_ne. }
  rewrite lookup_insert_eq. intros [= <- <- <-]. split_and!.
  - intros p Hp Hp'.
    by rewrite lookup_insert_ne, lookup_delete_ne, !lookup_insert_ne.
  - intros [? [=]].
  - intros _. split_and!.
    + done.
    + by rewrite lookup_insert_ne, lookup_delete_eq.
    + by rewrite lookup_insert_eq, Hw.
    + intros Hacc. rewrite lookup_insert_eq. f_equal.
      rewrite Hacc in Hw.
      pose proof (WriteCSV_tabular h (SortRuns h r) "") as [Ht _].
      rewrite Hw in Ht. injection Ht as ->. reflexivity.
Qed.

(** A run of the amended statement: the destination is not the temporary
    file, nothing fails, and the export replaces an older report. *)
Definition quietEnv : Env := mkEnv "/tmp" "1" false None false false.

Lemma WriteToFile_atomic_witness :
  "/work/report.csv" ≠ tmpPath quietEnv
  ∧ ∀ fs' r' err,
      WriteToFile quietEnv oneRun (mkReport [0%nat] true)
        {["/work/report.csv" := "old"]} "/work/report.csv" = (fs', r', err) →
      err = None →
      fs' !! "/work/report.csv"
      = Some (tabular (String lfChar "") oneRun (Runs r')).
Proof.
  assert (Hne : "/work/report.csv" ≠ tmpPath quietEnv) by (vm_compute; discriminate).
  split; [exact Hne|].
  intros fs' r' err Hrun Herr.
  destruct (WriteToFile_atomic quietEnv oneRun (mkReport [0%nat] true)
              {["/work/report.csv" := "old"]} "/work/report.csv" Hne fs' r' err Hrun)
    as (_ & _ & Hok).
  destruct (Hok Herr) as (_ & _ & _ & Hfull). by apply Hfull.
Defined.

(** C3 as stated fails where the directory for temporary files is not the
    directory of the destination: the temporary file is created in [/tmp],
    not beside [/work/report.csv] (here the rename then fails, as it does
    across file systems, and [/tmp/terragrunt-report-1.csv] stays). *)
Definition otherDeviceEnv : Env := mkEnv "/tmp" "1" false None false true.

Lemma WriteToFile_not_sibling :
  ¬ atomic_through_sibling otherDeviceEnv oneRun (mkReport [0%nat] true)
      {["/work/report.csv" := "old"]} "/work/report.csv".
Proof.
  unfold atomic_through_sibling.
  set (res := WriteToFile otherDeviceEnv oneRun (mkReport [0%nat] true)
                {["/work/report.csv" := "old"]} "/work/report.csv").
  assert (Hres : res = (fst (fst res), snd (fst res), snd res))
    by (by destruct res as [[? ?] ?]).
  rewrite Hres. intros (Hsib & _ & _).
  assert (Hd : filepath_Dir "/tmp/terragrunt-report-1.csv" = filepath_Dir "/work/report.csv").
  { apply Hsib; [discriminate | by vm_compute |].
    vm_compute. by eexists. }
  vm_compute in Hd. discriminate Hd.
Qed.


(** * The stack of modules: package [configstack] *)

(** ** External dependencies *)

(** The struct [TerraformModule], as far as the resolver and the listing of
    dependents read or write it.  [Dependencies] is a slice of pointers to
    modules of which only [Path] is read; it is kept as the list of these
    paths, so that the cyclic pointer graphs Go allows can be written down. *)
Record TerraformModule := mkModule
  { Path : string;
    Dependencies : list string;
    AssumeAlreadyApplied : bool;
    FlagExcluded : bool }.

Definition setAssumeAlreadyApplied (v : bool) (m : TerraformModule) : TerraformModule :=
  mkModule (Path m) (Dependencies m) v (FlagExcluded m).

(** [TerraformModulesMap] is [map[string]*TerraformModule]. *)
Abbreviation TerraformModulesMap := (gmap string TerraformModule).

Inductive stackError :=
| InfiniteRecursionError (RecursionLevel : Z) (Modules : TerraformModulesMap)
| ProcessingModuleError (ModulePath : string) (why : string)
| OtherError (why : string).

(** Modelled from the spec: the constant [maxLevelsOfRecursion] is declared
    in a file of the package that is not at hand; the specification gives
    the fixed depth as 1000. *)
Definition maxLevelsOfRecursion : Z := 1000.

(** Modelled from the spec: [TerraformModulesMap.mergeMaps] is defined in a
    file that is not at hand; sets of units are merged so that a path found
    in both collapses to the first one, here the receiver's. *)
Definition mergeMaps (modulesMap other : TerraformModulesMap) : TerraformModulesMap :=
  modulesMap ∪ other.

(** Modelled from the spec: [TerraformModulesMap.getSortedKeys] is defined
    in a file that is not at hand; the keys in ascending order of path. *)
Definition getSortedKeys (modulesMap : TerraformModulesMap) : list string :=
  merge_sort String.le (elements (dom modulesMap)).

(** [config.GetDefaultConfigPath]: the configuration file of a directory. *)
Definition GetDefaultConfigPath (dir : string) : string := dir +:+ "/terragrunt.hcl".

(** What the resolver does to the world, in order: a call of
    [resolveDependenciesForModule] (which parses configuration files) and a
    call of the confirmation callback.  The cloning of the options with
    [CloneWithConfigPath] is not recorded. *)
Inductive event :=
| EvResolve (modulePath : string)
| EvConfirm (modulePath dependencyPath : string).

Section Resolver.
(** [stack.terragruntOptions.IgnoreExternalDependencies], and the calls
    that leave the file: [resolveDependenciesForModule] (its result in the
    order in which the returned map is ranged over), the cloning of the
    options and the confirmation.  They may depend on what happened
    before. *)
Variable IgnoreExternalDependencies : bool.
Variable resolveDependenciesForModule :
  list event -> TerraformModule -> TerraformModulesMap ->
  list TerraformModule + stackError.
Variable CloneWithConfigPath : string -> option stackError.
Variable confirmShouldApplyExternalDependency :
  list event -> TerraformModule -> TerraformModule -> bool + stackError.

(** The state of the two loops: [allExternalDependencies] and the events. *)
Definition loopState : Type := TerraformModulesMap * list event.

(** A loop ends by running out of elements or by [return m, err]. *)
Definition loopResult : Type := loopState * option (TerraformModulesMap * stackError).

(** The body of the loop over the external dependencies of one module. *)
Definition externalDependencyStep (module : TerraformModule)
    (modulesToSkip externalDependencies : TerraformModulesMap)
    (st : loopState) (externalDependency : TerraformModule) : loopResult :=
  let '(allExternalDependencies, log) := st in
  match modulesToSkip !! Path externalDependency with
  | Some _ => (st, None)
  | None =>
      let confirmed :=
        if negb IgnoreExternalDependencies then
          (confirmShouldApplyExternalDependency log module externalDependency,
           log ++ [EvConfirm (Path module) (Path externalDependency)])
        else (inl false, log) in
      match confirmed with
      | (inr err, log) =>
          ((allExternalDependencies, log), Some (externalDependencies, err))
      | (inl shouldApply, log) =>
          ((<[Path externalDependency :=
                setAssumeAlreadyApplied (negb shouldApply) externalDependency]>
              allExternalDependencies, log), None)
      end
  end.

Fixpoint forExternalDependencies (module : TerraformModule)
    (modulesToSkip externalDependencies : TerraformModulesMap)
    (st : loopState) (range : list TerraformModule) : loopResult :=
  match range with
  | [] => (st, None)
  | externalDependency :: rest =>
      match externalDependencyStep module modulesToSkip externalDependencies
              st externalDependency with
      | (st, Some ret) => (st, Some ret)
      | (st, None) =>
          forExternalDependencies module modulesToSkip externalDependencies st rest
      end
  end.

Definition asMap (modules : list TerraformModule) : TerraformModulesMap :=
  list_to_map (map (fun m => (Path m, m)) modules).

Fixpoint forModules (modulesMap modulesToSkip : TerraformModulesMap)
    (st : loopState) (sortedKeys : list string) : loopResult :=
  match sortedKeys with
  | [] => (st, None)
  | key :: rest =>
      match modulesMap !! key with
      | None => forModules modulesMap modulesToSkip st rest
      | Some module =>
          let '(allExternalDependencies, log) := st in
          let log' := log ++ [EvResolve (Path module)] in
          match resolveDependenciesForModule log module modulesToSkip with
          | inr err => ((allExternalDependencies, log'), Some (∅, err))
          | inl range =>
              match CloneWithConfigPath (GetDefaultConfigPath (Path module)) with
              | Some err => ((allExternalDependencies, log'), Some (∅, err))
              | None =>
                  match forExternalDependencies module modulesToSkip (asMap range)
                          (allExternalDependencies, log') range with
                  | (st, Some ret) => (st, Some ret)
                  | (st, None) => forModules modulesMap modulesToSkip st rest
                  end
              end
          end
      end
  end.

(** The recursion goes one level up at a time and stops above
    [maxLevelsOfRecursion], so it is a recursion on the levels left;
    [None] stands for running out of them, which
    [resolveLevels_enough] below excludes. *)
Fixpoint resolveLevels (levelsLeft : nat)
    (modulesMap modulesAlreadyProcessed : TerraformModulesMap)
    (recursionLevel : Z) (log : list event)
    : option (TerraformModulesMap * option stackError * list event) :=
  let allExternalDependencies : TerraformModulesMap := ∅ in
  let modulesToSkip := mergeMaps modulesMap modulesAlreadyProcessed in
  if maxLevelsOfRecursion <? recursionLevel then
    Some (allExternalDependencies,
          Some (InfiniteRecursionError maxLevelsOfRecursion modulesToSkip), log)
  else
    match levelsLeft with
    | O => None
    | S levelsLeft' =>
        match forModules modulesMap modulesToSkip (allExternalDependencies, log)
                (getSortedKeys modulesMap) with
        | ((_, log), Some (ret, err)) => Some (ret, Some err, log)
        | ((allExternalDependencies, log), None) =>
            if (0 <? size allExternalDependencies)%nat then
              match resolveLevels levelsLeft' allExternalDependencies modulesMap
                      (recursionLevel + 1) log with
              | None => None
              | Some (_, Some err, log) =>
                  Some (allExternalDependencies, Some err, log)
              | Some (recursiveDependencies, None, log) =>
                  Some (mergeMaps allExternalDependencies recursiveDependencies,
                        None, log)
              end
            else Some (allExternalDependencies, None, log)
        end
    end.

Definition resolveExternalDependenciesForModules
    (modulesMap modulesAlreadyProcessed : TerraformModulesMap)
    (recursionLevel : Z) (log : list event)
    : option (TerraformModulesMap * option stackError * list event) :=
  resolveLevels (Z.to_nat (maxLevelsOfRecursion + 1 - recursionLevel))
    modulesMap modulesAlreadyProcessed recursionLevel log.

(** One level, unfolded. *)
Lemma resolveExternalDependenciesForModules_unfold modulesMap processed level log :
  level ≤ maxLevelsOfRecursion ->
  resolveExternalDependenciesForModules modulesMap processed level log
  = match forModules modulesMap (mergeMaps modulesMap processed) (∅, log)
            (getSortedKeys modulesMap) with
    | ((_, log), Some (ret, err)) => Some (ret, Some err, log)
    | ((allExternalDependencies, log), None) =>
        if (0 <? size allExternalDependencies)%nat then
          match resolveExternalDependenciesForModules allExternalDependencies
                  modulesMap (level + 1) log with
          | None => None
          | Some (_, Some err, log) => Some (allExternalDependencies, Some err, log)
          | Some (recursiveDependencies, None, log) =>
              Some (mergeMaps allExternalDependencies recursiveDependencies, None, log)
          end
        else Some (allExternalDependencies, None, log)
    end.
Proof.
  intros Hle. unfold resolveExternalDependenciesForModules.
  replace (Z.to_nat (maxLevelsOfRecursion + 1 - level))
    with (S (Z.to_nat (maxLevelsOfRecursion + 1 - (level + 1)))) by lia.
  cbn [resolveLevels].
  destruct (Z.ltb_spec maxLevelsOfRecursion level); [lia | done].
Qed.

(** The levels left suffice: the resolver always returns. *)
Lemma resolveLevels_enough levelsLeft modulesMap processed level log :
  maxLevelsOfRecursion + 1 - level ≤ Z.of_nat levelsLeft ->
  is_Some (resolveLevels levelsLeft modulesMap processed level log).
Proof.
  revert modulesMap processed level log.
  induction levelsLeft as [|n IH]; intros modulesMap processed level log Hf;
    cbn [resolveLevels];
    destruct (Z.ltb_spec maxLevelsOfRecursion level) as [Hgt|Hle];
    try done; [lia|].
  destruct (forModules _ _ _ _) as [[all log'] [[ret err]|]]; [done|].
  destruct (0 <? size all)%nat; [|done].
  destruct (IH all modulesMap (level + 1) log' ltac:(lia)) as [[[rec [e|]] log''] ->];
    done.
Qed.

Lemma resolveExternalDependenciesForModules_returns modulesMap processed level log :
  is_Some (resolveExternalDependenciesForModules modulesMap processed level log).
Proof. apply resolveLevels_enough. lia. Qed.

(** A dependency that is among the modules to skip leaves everything as
    it is. *)
Lemma externalDependencyStep_skipped module toSkip deps st dep :
  is_Some (toSkip !! Path dep) ->
  externalDependencyStep module toSkip deps st dep = (st, None).
Proof.
  intros [m Hm]. unfold externalDependencyStep. destruct st as [all log].
  by rewrite Hm.
Qed.
End Resolver.


(** ** Every external unit of a resolution *)

Section Units.
Variable IgnoreExternalDependencies : bool.
Variable resolveDependenciesForModule :
  list event → TerraformModule → TerraformModulesMap →
  list TerraformModule + stackError.
Variable CloneWithConfigPath : string → option stackError.
Variable confirmShouldApplyExternalDependency :
  list event → TerraformModule → TerraformModule → bool + stackError.










End Units.












(** ** The bound on the depth of the recursion *)

(** A call of [resolveExternalDependenciesForModules]: its arguments and
    the events so far. *)
Record call := mkCall
  { callModules : TerraformModulesMap;
    callProcessed : TerraformModulesMap;
    callLevel : Z;
    callLog : list event }.

Section Depth.
Variable IgnoreExternalDependencies : bool.
Variable resolveDependenciesForModule :
  list event -> TerraformModule -> TerraformModulesMap ->
  list TerraformModule + stackError.
Variable CloneWithConfigPath : string -> option stackError.
Variable confirmShouldApplyExternalDependency :
  list event -> TerraformModule -> TerraformModule -> bool + stackError.

Let resolve (c : call) :=
  resolveExternalDependenciesForModules IgnoreExternalDependencies
    resolveDependenciesForModule CloneWithConfigPath
    confirmShouldApplyExternalDependency
    (callModules c) (callProcessed c) (callLevel c) (callLog c).

(** [nested c c']: the call [c], not above the bound, gets through its
    loops, has found external dependencies and makes the call [c']. *)
Inductive nested : call -> call -> Prop :=
| nested_call (c : call) (found : TerraformModulesMap) (log : list event) :
    callLevel c ≤ maxLevelsOfRecursion ->
    forModules IgnoreExternalDependencies resolveDependenciesForModule
      CloneWithConfigPath confirmShouldApplyExternalDependency
      (callModules c) (mergeMaps (callModules c) (callProcessed c))
      (∅, callLog c) (getSortedKeys (callModules c))
    = ((found, log), None) ->
    size found ≠ 0%nat ->
    nested c (mkCall found (callModules c) (callLevel c + 1) log).

Lemma resolve_above (c : call) :
  maxLevelsOfRecursion < callLevel c ->
  resolve c
  = Some (∅, Some (InfiniteRecursionError maxLevelsOfRecursion
                     (mergeMaps (callModules c) (callProcessed c))),
          callLog c).
Proof.
  intros Hgt. unfold resolve, resolveExternalDependenciesForModules.
  replace (Z.to_nat (maxLevelsOfRecursion + 1 - callLevel c)) with O by lia.
  cbn [resolveLevels].
  destruct (Z.ltb_spec maxLevelsOfRecursion (callLevel c)); [done | lia].
Qed.

Lemma resolve_nested_error (c c' : call) ret err log :
  nested c c' ->
  resolve c' = Some (ret, Some err, log) ->
  resolve c = Some (callModules c', Some err, log).
Proof.
  intros Hn Hr. destruct Hn as [c found log1 Hle Hloop Hsize].
  unfold resolve in *. cbn [callModules callProcessed callLevel callLog] in Hr.
  rewrite resolveExternalDependenciesForModules_unfold by done.
  rewrite Hloop.
  destruct (Nat.ltb_spec 0 (size found)) as [_|Hz]; [|lia].
  by rewrite Hr.
Qed.

(** C8. The resolver always returns.  A call above level 1000 returns
    the [InfiniteRecursion] error at once, without an event; and whenever
    a chain of nested calls gets above level 1000, the call at the bottom
    of the chain returns this very error, and the events end where the
    call above the bound was made: nothing is resolved after it. *)
Theorem resolve_recursion_bound :
  ∀ c c' : call,
    rtc nested c c' →
    maxLevelsOfRecursion < callLevel c' →
    (∃ ret,
       resolve c
       = Some (ret,
               Some (InfiniteRecursionError maxLevelsOfRecursion
                       (mergeMaps (callModules c') (callProcessed c'))),
               callLog c'))
    ∧ resolve c'
      = Some (∅, Some (InfiniteRecursionError maxLevelsOfRecursion
                         (mergeMaps (callModules c') (callProcessed c'))),
              callLog c')
    ∧ ∀ c0 : call, is_Some (resolve c0).
Proof.
  intros c c' Hchain Hgt. split_and!.
  - induction Hchain as [c|c c1 c' Hstep Hchain IH].
    + eexists. by apply resolve_above.
    + destruct (IH Hgt) as [ret Hr]. eexists.
      eapply resolve_nested_error; [exact Hstep | exact Hr].
  - by apply resolve_above.
  - intros c0. apply resolveExternalDependenciesForModules_returns.
Qed.
End Depth.

(** A module at [/work/app], a callback that says yes, and a resolution of
    dependencies that finds a new module outside of the working directory
    every time it is asked (numbered by the events so far): a chain of
    external dependencies without end. *)
Definition endless (log : list event) (m : TerraformModule) (skip : TerraformModulesMap)
    : list TerraformModule + stackError :=
  inl [mkModule ("/ext/" +:+ Itoa (Z.of_nat (length log))) [] false false].

Definition sayYes (log : list event) (m dep : TerraformModule) : bool + stackError :=
  inl true.

Definition appOnly : TerraformModulesMap :=
  {[ "/work/app" := mkModule "/work/app" [] false false ]}.

(** One nested call from level 1000 gets above the bound. *)
Lemma resolve_recursion_bound_witness :
  ∃ ret skipped log,
    resolveExternalDependenciesForModules false endless (fun _ => None) sayYes
      appOnly ∅ 1000 []
    = Some (ret, Some (InfiniteRecursionError maxLevelsOfRecursion skipped), log).
Proof.
  set (c := mkCall appOnly ∅ 1000 []).
  set (found := ({[ "/ext/0" := mkModule "/ext/0" [] false false ]}
                 : TerraformModulesMap)).
  set (log := [EvResolve "/work/app"; EvConfirm "/work/app" "/ext/0"]).
  assert (Hstep : nested false endless (fun _ => None) sayYes c
                    (mkCall found (callModules c) (callLevel c + 1) log)).
  { apply nested_call.
    - vm_compute. discriminate.
    - vm_compute. reflexivity.
    - vm_compute. discriminate. }
  destruct (resolve_recursion_bound false endless (fun _ => None) sayYes c
              (mkCall found (callModules c) (callLevel c + 1) log)) as ([ret Hr] & _).
  - eapply rtc_l; [exact Hstep | apply rtc_refl].
  - vm_compute. reflexivity.
  - eexists _, _, _. exact Hr.
Defined.

(** From level 0 the chain is cut after a thousand levels. *)
Lemma endless_chain_is_cut :
  match resolveExternalDependenciesForModules false endless (fun _ => None) sayYes
          appOnly ∅ 0 [] with
  | Some (_, Some (InfiniteRecursionError level _), log) =>
      level = 1000 ∧ length log = 2002%nat
  | _ => False
  end.
Proof. vm_compute. split; reflexivity. Qed.


(** ** The dependents of the modules of a stack *)

(** Modelled from the spec: [util.RemoveDuplicatesFromList] is defined in a
    package that is not at hand; the call site merges two lists without
    duplicates, and the first occurrence of a value is the one that stays. *)
Fixpoint removeDuplicatesInto (out values : list string) : list string :=
  match values with
  | [] => out
  | value :: rest =>
      if bool_decide (value ∈ out) then removeDuplicatesInto out rest
      else removeDuplicatesInto (out ++ [value]) rest
  end.

Definition RemoveDuplicatesFromList (values : list string) : list string :=
  removeDuplicatesInto [] values.

(** Modelled from the spec: [util.RemoveElementFromList] is defined in a
    package that is not at hand; every occurrence of the element goes. *)
Definition RemoveElementFromList (values : list string) (element : string) : list string :=
  filter (λ item, item ≠ element) values.

(** [map[string][]string]; reading a path that is no key gives the nil
    slice. *)
Abbreviation DependentModules := (gmap string (list string)).

(** The first loop: every module is entered under each of its
    dependencies. *)
Definition addDependent (modulePath : string) (dependentModules : DependentModules)
    (dep : string) : DependentModules :=
  <[dep := RemoveDuplicatesFromList (dependentModules !!! dep ++ [modulePath])]>
    dependentModules.

Definition initialDependents (modules : list TerraformModule) : DependentModules :=
  fold_left (fun dependentModules module =>
               fold_left (addDependent (Path module)) (Dependencies module)
                 dependentModules)
    modules ∅.

(** The body of the innermost loop, with [noUpdates] carried along. *)
Definition mergeDependent (module : string) (st : DependentModules * bool)
    (dependent : string) : DependentModules * bool :=
  let '(dependentModules, noUpdates) := st in
  let initialSize := length (dependentModules !!! module) in
  let list :=
    RemoveDuplicatesFromList
      (dependentModules !!! module ++ dependentModules !!! dependent) in
  let list := RemoveElementFromList list module in
  (<[module := list]> dependentModules,
   if (initialSize =? length list)%nat then noUpdates else false).

(** One key of the range over the map: [dependents] is the slice the key
    has when the range gets to it. *)
Definition visitModule (st : DependentModules * bool) (module : string)
    : DependentModules * bool :=
  match st.1 !! module with
  | None => st
  | Some dependents => fold_left (mergeDependent module) dependents st
  end.

(** One turn of the outer [for]: the keys come in the order [order]. *)
Definition mergePass (order : list string) (dependentModules : DependentModules)
    : DependentModules * bool :=
  fold_left visitModule order (dependentModules, true).

(** The outer [for]: Go ranges over a map in an order of its own choosing,
    [schedule n] is the order of the keys in turn [n]. *)
Fixpoint mergeUntilStable (fuel : nat) (schedule : nat -> list string) (turn : nat)
    (dependentModules : DependentModules) : option DependentModules :=
  match fuel with
  | O => None
  | S fuel' =>
      let '(dependentModules, noUpdates) :=
        mergePass (schedule turn) dependentModules in
      if noUpdates then Some dependentModules
      else mergeUntilStable fuel' schedule (S turn) dependentModules
  end.

Definition ListStackDependentModules (fuel : nat) (schedule : nat -> list string)
    (modules : list TerraformModule) : option DependentModules :=
  mergeUntilStable fuel schedule 0 (initialDependents modules).

(** An order of a range over the map: its keys, each once. *)
Definition rangeOrder (dependentModules : DependentModules) (order : list string) : Prop :=
  order ≡ₚ elements (dom dependentModules).

(** [d] depends on [m] directly, and through a chain of dependencies. *)
Definition dependsOn (modules : list TerraformModule) (m d : string) : Prop :=
  ∃ module, module ∈ modules ∧ Path module = d ∧ m ∈ Dependencies module.

Inductive dependent (modules : list TerraformModule) (m : string) : string -> Prop :=
| dependent_direct d : dependsOn modules m d -> dependent modules m d
| dependent_step y d :
    dependent modules m y -> dependsOn modules y d -> dependent modules m d.

(** A stack in which two modules list themselves among their dependencies:
    [B] depends on [A] and [B], [C] on [B], [D] on [C], [A] on [A]. *)
Definition selfDependent : list TerraformModule :=
  [ mkModule "C" ["B"] false false;
    mkModule "B" ["A"; "B"] false false;
    mkModule "A" ["A"] false false;
    mkModule "D" ["C"] false false ].


(** *** Lists without duplicates *)

Section RemoveDuplicates.
Local Open Scope nat_scope.

Lemma removeDuplicatesInto_spec (values out : list string) :
  ∃ news, removeDuplicatesInto out values = out ++ news
    ∧ (∀ x, x ∈ news ↔ x ∈ values ∧ x ∉ out)
    ∧ (NoDup out → NoDup (out ++ news)).
Proof.
  revert out. induction values as [|v rest IH]; intros out; simpl.
  - exists []. rewrite app_nil_r. split_and!; [done | | done].
    intros x. split; [intros Hx; inversion Hx | intros [Hx _]; inversion Hx].
  - case_bool_decide as Hv.
    + destruct (IH out) as (news & -> & Hnews & Hnd).
      exists news. split_and!; [done | | done].
      intros x. rewrite Hnews, elem_of_cons. naive_solver.
    + destruct (IH (out ++ [v])) as (news & -> & Hnews & Hnd).
      exists (v :: news). split_and!.
      * by rewrite <- app_assoc.
      * intros x. rewrite !elem_of_cons, Hnews, elem_of_app, list_elem_of_singleton.
        destruct (decide (x = v)) as [->|Hne]; naive_solver.
      * intros Ho. rewrite cons_middle, app_assoc. apply Hnd.
        apply NoDup_app. split_and!; [done | | apply NoDup_singleton].
        intros x Hx Hx'. apply list_elem_of_singleton in Hx' as ->. done.
Qed.

Lemma RemoveDuplicatesFromList_NoDup (values : list string) :
  NoDup (RemoveDuplicatesFromList values).
Proof.
  unfold RemoveDuplicatesFromList.
  destruct (removeDuplicatesInto_spec values []) as (news & -> & _ & Hnd).
  apply Hnd. apply NoDup_nil_2.
Qed.

Lemma RemoveDuplicatesFromList_elem (values : list string) (x : string) :
  x ∈ RemoveDuplicatesFromList values ↔ x ∈ values.
Proof.
  unfold RemoveDuplicatesFromList.
  destruct (removeDuplicatesInto_spec values []) as (news & -> & Hnews & _).
  simpl. rewrite Hnews. split; [naive_solver|].
  intros Hx. split; [done|]. intros H; inversion H.
Qed.

Lemma removeDuplicatesInto_app (out l r : list string) :
  removeDuplicatesInto out (l ++ r)
  = removeDuplicatesInto (removeDuplicatesInto out l) r.
Proof.
  revert out. induction l as [|v l IH]; intros out; simpl; [done|].
  case_bool_decide; apply IH.
Qed.

Lemma removeDuplicatesInto_NoDup_id (l out : list string) :
  NoDup (out ++ l) → removeDuplicatesInto out l = out ++ l.
Proof.
  revert out. induction l as [|v l IH]; intros out Hnd; simpl.
  - by rewrite app_nil_r.
  - apply NoDup_app in Hnd as Hnd'. destruct Hnd' as (_ & Hdisj & _).
    case_bool_decide as Hv.
    + exfalso. apply (Hdisj v Hv). by left.
    + rewrite IH; [by rewrite <- app_assoc|]. by rewrite <- app_assoc.
Qed.

(** Merging a second list into a list without duplicates: the list
    stays in front, and what is added is new. *)
Lemma merge_NoDup (l r : list string) :
  NoDup l →
  ∃ news, RemoveDuplicatesFromList (l ++ r) = l ++ news
    ∧ (∀ x, x ∈ news ↔ x ∈ r ∧ x ∉ l)
    ∧ NoDup (l ++ news).
Proof.
  intros Hl. unfold RemoveDuplicatesFromList.
  rewrite removeDuplicatesInto_app.
  rewrite (removeDuplicatesInto_NoDup_id l []) by done. simpl.
  destruct (removeDuplicatesInto_spec r l) as (news & -> & Hnews & Hnd).
  exists news. split_and!; [done | done | by apply Hnd].
Qed.

Lemma RemoveElementFromList_elem (values : list string) (element x : string) :
  x ∈ RemoveElementFromList values element ↔ x ∈ values ∧ x ≠ element.
Proof. unfold RemoveElementFromList. rewrite list_elem_of_filter. naive_solver. Qed.

Lemma RemoveElementFromList_NoDup (values : list string) (element : string) :
  NoDup values → NoDup (RemoveElementFromList values element).
Proof. apply NoDup_filter. Qed.

Lemma RemoveElementFromList_absent (values : list string) (element : string) :
  element ∉ values → RemoveElementFromList values element = values.
Proof.
  unfold RemoveElementFromList. induction values as [|v values IH]; intros Hn;
    [done|].
  rewrite filter_cons. apply not_elem_of_cons in Hn as [Hne Hn].
  destruct (decide (v ≠ element)); [by rewrite IH | done].
Qed.

(** The list a turn of the innermost loop stores for [module]. *)
Definition merged (l r : list string) (module : string) : list string :=
  RemoveElementFromList (RemoveDuplicatesFromList (l ++ r)) module.

Lemma merged_elem l r module x :
  x ∈ merged l r module ↔ (x ∈ l ∨ x ∈ r) ∧ x ≠ module.
Proof.
  unfold merged.
  by rewrite RemoveElementFromList_elem, RemoveDuplicatesFromList_elem, elem_of_app.
Qed.

Lemma merged_NoDup l r module : NoDup (merged l r module).
Proof. apply RemoveElementFromList_NoDup, RemoveDuplicatesFromList_NoDup. Qed.

(** On a list without duplicates and without [module] the merge only
    adds, and it keeps the length only when it keeps the list. *)
Lemma merged_grows l r module :
  NoDup l → module ∉ l →
  length l ≤ length (merged l r module)
  ∧ (length l = length (merged l r module) →
     merged l r module = l ∧ ∀ x, x ∈ r → x ∈ l ∨ x = module).
Proof.
  intros Hl Hm. unfold merged.
  destruct (merge_NoDup l r Hl) as (news & -> & Hnews & _).
  unfold RemoveElementFromList. rewrite filter_app.
  fold (RemoveElementFromList l module). rewrite RemoveElementFromList_absent by done.
  rewrite length_app. split; [lia|].
  intros Hlen.
  assert (Hnil : filter (λ item, item ≠ module) news = []).
  { apply length_zero_iff_nil. lia. }
  rewrite Hnil, app_nil_r. split; [done|].
  intros x Hx. destruct (decide (x ∈ l)) as [|Hxl]; [by left|]. right.
  destruct (decide (x = module)) as [|Hne]; [done|]. exfalso.
  assert (Hxn : x ∈ news) by (by apply Hnews).
  by apply (filter_nil_not_elem_of _ news x Hnil Hne).
Qed.
End RemoveDuplicates.


(** *** What every turn of the loops keeps *)

Section Dependents.
Local Open Scope nat_scope.

Variable modules : list TerraformModule.

Lemma dependent_trans (k d x : string) :
  dependent modules k d → dependent modules d x → dependent modules k x.
Proof.
  intros Hkd Hdx. induction Hdx as [x Hx|y x Hy IH Hx].
  - by eapply dependent_step.
  - by eapply dependent_step.
Qed.

Lemma dependsOn_path (k d : string) : dependsOn modules k d → d ∈ Path <$> modules.
Proof. intros (m & Hm & <- & _). by apply list_elem_of_fmap_2. Qed.

Lemma dependent_path (k d : string) : dependent modules k d → d ∈ Path <$> modules.
Proof. intros [d' H|y d' _ H]; by eapply dependsOn_path. Qed.

Lemma lookup_total_None (dm : DependentModules) (k : string) :
  dm !! k = None → dm !!! k = [].
Proof. intros H. by rewrite lookup_total_alt, H. Qed.

Lemma lookup_total_Some (dm : DependentModules) (k : string) (l : list string) :
  dm !! k = Some l → dm !!! k = l.
Proof. intros H. by rewrite lookup_total_alt, H. Qed.

(** The lists have no duplicates, hold dependents only, hold every
    direct dependent but the module itself, and the keys are those of
    the first loop. *)
Definition good (dm : DependentModules) : Prop :=
  (∀ k l, dm !! k = Some l → NoDup l)
  ∧ (∀ k d, d ∈ dm !!! k → dependent modules k d)
  ∧ (∀ k d, dependsOn modules k d → d ∈ dm !!! k ∨ d = k)
  ∧ dom dm = dom (initialDependents modules).

Definition selfFree (dm : DependentModules) : Prop := ∀ k, k ∉ dm !!! k.

Lemma mergeDependent_fst (k d : string) (dm : DependentModules) (f : bool) :
  (mergeDependent k (dm, f) d).1 = <[k := merged (dm !!! k) (dm !!! d) k]> dm.
Proof. done. Qed.

Lemma mergeDependent_good (k d : string) (dm : DependentModules) (f : bool) :
  good dm → is_Some (dm !! k) → dependent modules k d →
  good (mergeDependent k (dm, f) d).1.
Proof.
  intros (Hnd & Hsound & Hbase & Hdom) Hk Hd. rewrite mergeDependent_fst.
  split_and!.
  - intros k' l. destruct (decide (k = k')) as [<-|Hne].
    + rewrite lookup_insert_eq. intros [= <-]. apply merged_NoDup.
    + rewrite lookup_insert_ne by done. apply Hnd.
  - intros k' x. destruct (decide (k = k')) as [<-|Hne].
    + rewrite lookup_total_insert_eq, merged_elem. intros [[Hx|Hx] _].
      * by apply Hsound.
      * eapply dependent_trans; [exact Hd | by apply Hsound].
    + rewrite lookup_total_insert_ne by done. apply Hsound.
  - intros k' x Hx. destruct (decide (k = k')) as [<-|Hne].
    + rewrite lookup_total_insert_eq, merged_elem.
      destruct (decide (x = k)) as [|Hxk]; [by right | left].
      destruct (Hbase k x Hx); [auto | done].
    + rewrite lookup_total_insert_ne by done. by apply Hbase.
  - rewrite <- Hdom. by apply dom_insert_lookup_L.
Qed.

Lemma mergeDependent_key (k d k' : string) (dm : DependentModules) (f : bool) :
  is_Some (dm !! k') → is_Some ((mergeDependent k (dm, f) d).1 !! k').
Proof.
  intros Hk'. rewrite mergeDependent_fst.
  destruct (decide (k = k')) as [<-|Hne];
    [by rewrite lookup_insert_eq | by rewrite lookup_insert_ne].
Qed.

Lemma mergeDependent_selfFree (k d k' : string) (dm : DependentModules) (f : bool) :
  k' ∉ dm !!! k' → k' ∉ (mergeDependent k (dm, f) d).1 !!! k'.
Proof.
  intros Hk'. rewrite mergeDependent_fst.
  destruct (decide (k = k')) as [<-|Hne].
  - rewrite lookup_total_insert_eq, merged_elem. naive_solver.
  - by rewrite lookup_total_insert_ne.
Qed.

Lemma mergeDependent_self (k d : string) (dm : DependentModules) (f : bool) :
  k ∉ (mergeDependent k (dm, f) d).1 !!! k.
Proof.
  rewrite mergeDependent_fst, lookup_total_insert_eq, merged_elem. naive_solver.
Qed.

(** The innermost loop over the dependents of one key. *)
Lemma merge_loop_good (k : string) (ds : list string) (st : DependentModules * bool) :
  good st.1 → is_Some (st.1 !! k) → (∀ d, d ∈ ds → dependent modules k d) →
  good (fold_left (mergeDependent k) ds st).1
  ∧ is_Some ((fold_left (mergeDependent k) ds st).1 !! k).
Proof.
  revert st. induction ds as [|d ds IH]; intros [dm f] Hg Hk Hds; simpl; [done|].
  apply IH.
  - apply mergeDependent_good; [done | done | apply Hds; by left].
  - by apply mergeDependent_key.
  - intros d' Hd'. apply Hds. by right.
Qed.

Lemma merge_loop_selfFree (k k' : string) (ds : list string)
    (st : DependentModules * bool) :
  k' ∉ st.1 !!! k' → k' ∉ (fold_left (mergeDependent k) ds st).1 !!! k'.
Proof.
  revert st. induction ds as [|d ds IH]; intros [dm f] Hk'; simpl; [done|].
  apply IH. by apply mergeDependent_selfFree.
Qed.

Lemma visitModule_good (k : string) (st : DependentModules * bool) :
  good st.1 → good (visitModule st k).1.
Proof.
  intros Hg. unfold visitModule. destruct (st.1 !! k) as [l|] eqn:Hk; [|done].
  apply merge_loop_good; [done | by eexists |].
  intros d Hd. destruct Hg as (_ & Hsound & _). apply Hsound.
  by rewrite (lookup_total_Some _ _ _ Hk).
Qed.

Lemma visitModule_selfFree (k k' : string) (st : DependentModules * bool) :
  k' ∉ st.1 !!! k' → k' ∉ (visitModule st k).1 !!! k'.
Proof.
  intros Hk'. unfold visitModule. destruct (st.1 !! k) as [l|] eqn:Hk; [|done].
  by apply merge_loop_selfFree.
Qed.

(** After its own visit a key is not in its list. *)
Lemma visitModule_self (k : string) (st : DependentModules * bool) :
  k ∉ (visitModule st k).1 !!! k.
Proof.
  unfold visitModule. destruct (st.1 !! k) as [l|] eqn:Hk.
  - destruct l as [|d ds].
    + simpl. rewrite (lookup_total_Some _ _ _ Hk). apply not_elem_of_nil.
    + destruct st as [dm f]. simpl. apply merge_loop_selfFree.
      apply mergeDependent_self.
  - rewrite (lookup_total_None _ _ Hk). apply not_elem_of_nil.
Qed.

Lemma mergePass_good (order : list string) (st : DependentModules * bool) :
  good st.1 → good (fold_left visitModule order st).1.
Proof.
  revert st. induction order as [|k order IH]; intros st Hg; simpl; [done|].
  apply IH. by apply visitModule_good.
Qed.

Lemma mergePass_selfFree_keeps (order : list string) (k' : string)
    (st : DependentModules * bool) :
  k' ∉ st.1 !!! k' → k' ∉ (fold_left visitModule order st).1 !!! k'.
Proof.
  revert st. induction order as [|k order IH]; intros st Hk'; simpl; [done|].
  apply IH. by apply visitModule_selfFree.
Qed.

Lemma mergePass_selfFree_visited (order : list string) (k' : string)
    (st : DependentModules * bool) :
  k' ∈ order → k' ∉ (fold_left visitModule order st).1 !!! k'.
Proof.
  revert st. induction order as [|k order IH]; intros st Hk'; simpl;
    [inversion Hk'|].
  apply elem_of_cons in Hk' as [->|Hk'].
  - apply mergePass_selfFree_keeps, visitModule_self.
  - by apply IH.
Qed.

(** A turn that visits every key leaves no module in its own list. *)
Lemma mergePass_selfFree (order : list string) (dm : DependentModules) :
  good dm → rangeOrder dm order → selfFree (mergePass order dm).1.
Proof.
  intros Hg Horder k. unfold mergePass.
  pose proof (mergePass_good order (dm, true) Hg) as (_ & _ & _ & Hdom).
  destruct Hg as (_ & _ & _ & Hdom0).
  destruct (decide (k ∈ dom dm)) as [Hk|Hk].
  - apply mergePass_selfFree_visited. unfold rangeOrder in Horder.
    rewrite Horder. by apply elem_of_elements.
  - rewrite lookup_total_None; [apply not_elem_of_nil|].
    apply not_elem_of_dom. by rewrite Hdom, <- Hdom0.
Qed.
End Dependents.


(** *** The first loop *)

Section InitialDependents.
Local Open Scope nat_scope.

Lemma addDependent_fold (p : string) (deps : list string) (dm : DependentModules) :
  let dm' := fold_left (addDependent p) deps dm in
  ((∀ k l, dm !! k = Some l → NoDup l) → ∀ k l, dm' !! k = Some l → NoDup l)
  ∧ ∀ k d, d ∈ dm' !!! k ↔ d ∈ dm !!! k ∨ (d = p ∧ k ∈ deps).
Proof.
  revert dm. induction deps as [|dep deps IH]; intros dm; simpl.
  - split; [done|]. intros k d. split; [by left|].
    intros [?|[_ H]]; [done | inversion H].
  - destruct (IH (addDependent p dm dep)) as [Hnd Hel]. split.
    + intros Hdm. apply Hnd. intros k l. unfold addDependent.
      destruct (decide (dep = k)) as [<-|Hne].
      * rewrite lookup_insert_eq. intros [= <-].
        apply RemoveDuplicatesFromList_NoDup.
      * rewrite lookup_insert_ne by done. apply Hdm.
    + intros k d. rewrite Hel. unfold addDependent.
      destruct (decide (dep = k)) as [<-|Hne].
      * rewrite lookup_total_insert_eq, RemoveDuplicatesFromList_elem,
          elem_of_app, list_elem_of_singleton, elem_of_cons.
        naive_solver.
      * rewrite lookup_total_insert_ne by done. rewrite elem_of_cons.
        naive_solver.
Qed.

Lemma dependsOn_snoc (ms : list TerraformModule) (m : TerraformModule) (k d : string) :
  dependsOn (ms ++ [m]) k d
  ↔ dependsOn ms k d ∨ (d = Path m ∧ k ∈ Dependencies m).
Proof.
  unfold dependsOn. split.
  - intros (m' & Hm' & Hp & Hk). apply elem_of_app in Hm' as [Hm'|Hm'].
    + left. by exists m'.
    + apply list_elem_of_singleton in Hm' as ->. by right.
  - intros [(m' & Hm' & Hp & Hk)|[-> Hk]].
    + exists m'. split_and!; [|done|done]. apply elem_of_app. by left.
    + exists m. split_and!; [|done|done]. apply elem_of_app. right. by left.
Qed.

Lemma initialDependents_spec (modules : list TerraformModule) :
  (∀ k l, initialDependents modules !! k = Some l → NoDup l)
  ∧ ∀ k d, d ∈ initialDependents modules !!! k ↔ dependsOn modules k d.
Proof.
  induction modules as [|m ms IH] using rev_ind.
  - unfold initialDependents. simpl.
    split; [intros k l; by rewrite lookup_empty|].
    intros k d.
    rewrite lookup_total_empty. split; [intros H; inversion H|].
    intros (m & Hm & _). inversion Hm.
  - unfold initialDependents in *. rewrite fold_left_app. simpl.
    destruct IH as [IHnd IHel].
    destruct (addDependent_fold (Path m) (Dependencies m)
                (fold_left (fun dm module =>
                              fold_left (addDependent (Path module))
                                (Dependencies module) dm) ms ∅))
      as [Hnd Hel].
    split; [by apply Hnd|].
    intros k d. rewrite Hel, IHel, dependsOn_snoc. done.
Qed.
End InitialDependents.

(** *** The turns of the outer loop *)

Section Turns.
Local Open Scope nat_scope.

Variable modules : list TerraformModule.

Let keys : list string := elements (dom (initialDependents modules)).

(** The sum of the lengths of the lists. *)
Definition weight (ks : list string) (dm : DependentModules) : nat :=
  sum_list ((λ k, length (dm !!! k)) <$> ks).

Lemma weight_insert_other ks k v (dm : DependentModules) :
  k ∉ ks → weight ks (<[k := v]> dm) = weight ks dm.
Proof.
  induction ks as [|k' ks IH]; intros Hk; [done|].
  apply not_elem_of_cons in Hk as [Hne Hk].
  change (weight (k' :: ks) (<[k:=v]> dm))
    with (length (<[k:=v]> dm !!! k') + weight ks (<[k:=v]> dm)).
  change (weight (k' :: ks) dm) with (length (dm !!! k') + weight ks dm).
  rewrite lookup_total_insert_ne by done. by rewrite IH.
Qed.

Lemma weight_insert ks k v (dm : DependentModules) :
  NoDup ks → k ∈ ks →
  weight ks (<[k := v]> dm) + length (dm !!! k) = weight ks dm + length v.
Proof.
  induction ks as [|k' ks IH]; intros Hnd Hk; [inversion Hk|].
  apply NoDup_cons in Hnd as [Hk' Hnd].
  change (weight (k' :: ks) (<[k:=v]> dm))
    with (length (<[k:=v]> dm !!! k') + weight ks (<[k:=v]> dm)).
  change (weight (k' :: ks) dm) with (length (dm !!! k') + weight ks dm).
  apply elem_of_cons in Hk as [->|Hk].
  - rewrite lookup_total_insert_eq, weight_insert_other by done. lia.
  - assert (k ≠ k') by (intros ->; done).
    rewrite lookup_total_insert_ne by done.
    specialize (IH Hnd Hk). lia.
Qed.

Lemma good_length (dm : DependentModules) (k : string) :
  good modules dm → length (dm !!! k) ≤ length modules.
Proof.
  intros (Hnd & Hsound & _). rewrite <- (length_fmap Path modules).
  apply submseteq_length, NoDup_submseteq.
  - destruct (dm !! k) as [l|] eqn:Hk.
    + rewrite (lookup_total_Some _ _ _ Hk). by eapply Hnd.
    + rewrite (lookup_total_None _ _ Hk). apply NoDup_nil_2.
  - intros x Hx. eapply dependent_path. by apply Hsound.
Qed.

Lemma weight_bound ks (dm : DependentModules) :
  good modules dm → weight ks dm ≤ length ks * length modules.
Proof.
  intros Hg. induction ks as [|k ks IH]; [done|].
  change (weight (k :: ks) dm) with (length (dm !!! k) + weight ks dm).
  pose proof (good_length dm k Hg). simpl. lia.
Qed.

Lemma good_key (dm : DependentModules) (k : string) :
  good modules dm → is_Some (dm !! k) → k ∈ keys.
Proof.
  intros (_ & _ & _ & Hdom) Hk. unfold keys.
  apply elem_of_elements. rewrite <- Hdom. by apply elem_of_dom.
Qed.

(** [module] has in its list, or is, whatever its dependents have. *)
Definition closedAt (dm : DependentModules) (module : string) : Prop :=
  ∀ d, d ∈ dm !!! module → ∀ x, x ∈ dm !!! d → x ∈ dm !!! module ∨ x = module.

Lemma mergeDependent_clean (k d : string) (dm : DependentModules) (f : bool) :
  good modules dm → selfFree dm → is_Some (dm !! k) →
  (mergeDependent k (dm, f) d = (dm, f)
   ∧ ∀ x, x ∈ dm !!! d → x ∈ dm !!! k ∨ x = k)
  ∨ ((mergeDependent k (dm, f) d).2 = false
     ∧ weight keys dm < weight keys (mergeDependent k (dm, f) d).1).
Proof.
  intros Hg Hsf [l Hk].
  pose proof (lookup_total_Some _ _ _ Hk) as Hl.
  assert (Hnd : NoDup (dm !!! k)) by (rewrite Hl; destruct Hg as [Hnd _]; eauto).
  destruct (merged_grows (dm !!! k) (dm !!! d) k Hnd (Hsf k)) as [Hle Hsame].
  unfold mergeDependent. fold (merged (dm !!! k) (dm !!! d) k).
  destruct (Nat.eqb_spec (length (dm !!! k))
              (length (merged (dm !!! k) (dm !!! d) k))) as [Heq|Hne].
  - left. destruct (Hsame Heq) as [-> Hcl]. split; [|done].
    rewrite Hl. by rewrite insert_id.
  - right. split; [done|]. cbn [fst].
    pose proof (weight_insert keys k (merged (dm !!! k) (dm !!! d) k) dm
                  (NoDup_elements _) (good_key dm k Hg (ex_intro _ l Hk))).
    lia.
Qed.

Lemma mergeDependent_selfFree_all (k d : string) (dm : DependentModules) (f : bool) :
  selfFree dm → selfFree (mergeDependent k (dm, f) d).1.
Proof. intros Hsf k'. apply mergeDependent_selfFree, Hsf. Qed.

Lemma merge_loop_clean (k : string) (ds : list string) (st : DependentModules * bool) :
  good modules st.1 → selfFree st.1 → is_Some (st.1 !! k) →
  (∀ d, d ∈ ds → dependent modules k d) →
  (fold_left (mergeDependent k) ds st = st
   ∧ ∀ d, d ∈ ds → ∀ x, x ∈ st.1 !!! d → x ∈ st.1 !!! k ∨ x = k)
  ∨ ((fold_left (mergeDependent k) ds st).2 = false
     ∧ weight keys st.1 < weight keys (fold_left (mergeDependent k) ds st).1).
Proof.
  revert st. induction ds as [|d ds IH]; intros [dm f] Hg Hsf Hk Hds; cbn [fst] in *.
  { left. split; [done|]. intros d Hd. inversion Hd. }
  cbn [fold_left].
  assert (Hds' : ∀ d', d' ∈ ds → dependent modules k d')
    by (intros d' Hd'; apply Hds; by right).
  destruct (mergeDependent_clean k d dm f Hg Hsf Hk) as [[Hsame Hcl]|[Hflag Hw]].
  - rewrite Hsame. destruct (IH (dm, f) Hg Hsf Hk Hds') as [[-> Hcl']|[Hf Hw]].
    + left. split; [done|]. intros d' Hd'.
      apply elem_of_cons in Hd' as [->|Hd']; [exact Hcl | by apply Hcl'].
    + right. done.
  - right.
    assert (Hg1 : good modules (mergeDependent k (dm, f) d).1).
    { apply mergeDependent_good; [done | done | apply Hds; by left]. }
    destruct (IH (mergeDependent k (dm, f) d) Hg1
                (mergeDependent_selfFree_all k d dm f Hsf)
                (mergeDependent_key k d k dm f Hk) Hds')
      as [[-> _]|[Hf Hw']]; [done|].
    split; [done | lia].
Qed.

Lemma visitModule_selfFree_all (k : string) (st : DependentModules * bool) :
  selfFree st.1 → selfFree (visitModule st k).1.
Proof. intros Hsf k'. apply visitModule_selfFree, Hsf. Qed.

Lemma visitModule_clean (k : string) (st : DependentModules * bool) :
  good modules st.1 → selfFree st.1 →
  (visitModule st k = st ∧ closedAt st.1 k)
  ∨ ((visitModule st k).2 = false ∧ weight keys st.1 < weight keys (visitModule st k).1).
Proof.
  intros Hg Hsf. unfold visitModule, closedAt.
  destruct (st.1 !! k) as [l|] eqn:Hk.
  - pose proof (lookup_total_Some _ _ _ Hk) as Hl.
    destruct (merge_loop_clean k l st Hg Hsf (ex_intro _ l Hk)) as [[Hsame Hcl]|H].
    + intros d Hd. destruct Hg as (_ & Hsound & _). apply Hsound. by rewrite Hl.
    + left. split; [done|]. rewrite Hl. rewrite Hl in Hcl. exact Hcl.
    + by right.
  - left. split; [done|]. rewrite (lookup_total_None _ _ Hk).
    intros d Hd. inversion Hd.
Qed.

Lemma mergePass_clean (order : list string) (st : DependentModules * bool) :
  good modules st.1 → selfFree st.1 →
  (fold_left visitModule order st = st ∧ ∀ k, k ∈ order → closedAt st.1 k)
  ∨ ((fold_left visitModule order st).2 = false
     ∧ weight keys st.1 < weight keys (fold_left visitModule order st).1).
Proof.
  revert st. induction order as [|k order IH]; intros st Hg Hsf.
  { left. split; [done|]. intros k Hk. inversion Hk. }
  cbn [fold_left].
  destruct (visitModule_clean k st Hg Hsf) as [[Hsame Hcl]|[Hflag Hw]].
  - rewrite Hsame. destruct (IH st Hg Hsf) as [[-> Hcl']|H].
    + left. split; [done|]. intros k' Hk'.
      apply elem_of_cons in Hk' as [->|Hk']; [exact Hcl | by apply Hcl'].
    + by right.
  - right.
    destruct (IH (visitModule st k) (visitModule_good modules k st Hg)
                (visitModule_selfFree_all k st Hsf)) as [[-> _]|[Hf Hw']]; [done|].
    split; [done | lia].
Qed.
End Turns.


(** *** The fixpoint *)

Section Stable.
Local Open Scope nat_scope.

Variable modules : list TerraformModule.
Variable schedule : nat -> list string.
Hypothesis schedule_ranges :
  ∀ turn, rangeOrder (initialDependents modules) (schedule turn).

Let keys : list string := elements (dom (initialDependents modules)).
Let bound : nat := length keys * length modules.

Lemma good_rangeOrder (dm : DependentModules) (turn : nat) :
  good modules dm → rangeOrder dm (schedule turn).
Proof.
  intros (_ & _ & _ & Hdom). unfold rangeOrder. rewrite Hdom.
  apply schedule_ranges.
Qed.

Lemma closedAt_everywhere (dm : DependentModules) (turn : nat) :
  good modules dm →
  (∀ k, k ∈ schedule turn → closedAt dm k) → ∀ k, closedAt dm k.
Proof.
  intros Hg Hcl k. destruct (dm !! k) as [l|] eqn:Hk.
  - apply Hcl. pose proof (good_rangeOrder dm turn Hg) as Hr.
    unfold rangeOrder in Hr. rewrite Hr. apply elem_of_elements, elem_of_dom.
    by eexists.
  - intros d Hd. rewrite (lookup_total_None _ _ Hk) in Hd. inversion Hd.
Qed.

(** From lists without the module itself every turn but the last adds
    to the lists, and the lists are bounded: the loop ends. *)
Lemma mergeUntilStable_clean (m : nat) :
  ∀ (dm : DependentModules) (turn : nat),
    good modules dm → selfFree dm → bound - weight keys dm ≤ m →
    ∃ res,
      (∀ fuel, m < fuel → mergeUntilStable fuel schedule turn dm = Some res)
      ∧ good modules res ∧ selfFree res ∧ ∀ k, closedAt res k.
Proof.
  induction m as [|m IH]; intros dm turn Hg Hsf Hm.
  - destruct (mergePass_clean modules (schedule turn) (dm, true) Hg Hsf)
      as [[Hsame Hcl]|[Hflag Hw]].
    + exists dm. split_and!; [|done|done|by eapply closedAt_everywhere].
      intros [|fuel] Hf; [lia|]. cbn [mergeUntilStable].
      unfold mergePass. by rewrite Hsame.
    + pose proof (weight_bound modules keys _
                    (mergePass_good modules (schedule turn) (dm, true) Hg)).
      exfalso. change ((dm, true).1) with dm in Hw.
      unfold bound, keys in *. lia.
  - destruct (mergePass_clean modules (schedule turn) (dm, true) Hg Hsf)
      as [[Hsame Hcl]|[Hflag Hw]].
    + exists dm. split_and!; [|done|done|by eapply closedAt_everywhere].
      intros [|fuel] Hf; [lia|]. cbn [mergeUntilStable].
      unfold mergePass. by rewrite Hsame.
    + pose proof (mergePass_good modules (schedule turn) (dm, true) Hg) as Hg'.
      pose proof (weight_bound modules keys _ Hg') as Hb.
      assert (Hsf' : selfFree (fold_left visitModule (schedule turn) (dm, true)).1).
      { intros k. apply mergePass_selfFree_keeps, Hsf. }
      change ((dm, true).1) with dm in Hw.
      destruct (IH _ (S turn) Hg' Hsf') as (res & Hres & Hrest).
      { unfold bound, keys in *. lia. }
      exists res. split; [|exact Hrest].
      intros [|fuel] Hf; [lia|]. cbn [mergeUntilStable]. unfold mergePass.
      destruct (fold_left visitModule (schedule turn) (dm, true)) as [dm' nu].
      cbn [fst snd] in *. subst nu. apply Hres. lia.
Qed.

Lemma initial_good : good modules (initialDependents modules).
Proof.
  destruct (initialDependents_spec modules) as [Hnd Hel].
  split_and!; [exact Hnd | | | done].
  - intros k d Hd. apply dependent_direct. by apply Hel.
  - intros k d Hd. left. by apply Hel.
Qed.




End Stable.








(** * The registry of runs, continued *)

(** ** Looking a run up *)

Lemma findRun_app (h : Store) (path : string) (xs ys : list ptr) :
  findRun h path (xs ++ ys)
  = match findRun h path xs with
    | Some p => Some p
    | None => findRun h path ys
    end.
Proof.
  induction xs as [|x xs IH]; [done|]. simpl.
  by destruct (String.eqb (Run.Name (h x)) path).
Qed.

Lemma findRun_ext (h h' : Store) (path : string) (runs : list ptr) :
  (∀ p, Run.Name (h' p) = Run.Name (h p)) →
  findRun h' path runs = findRun h path runs.
Proof.
  intros Hn. induction runs as [|x xs IH]; [done|]. simpl.
  by rewrite Hn, IH.
Qed.

Lemma NewRun_inl (now : Time) (path : string) (run : Run.t) :
  NewRun now path = inl run →
  IsAbs path = true ∧ run = Run.mk now zeroTime None None path "".
Proof.
  unfold NewRun. destruct (IsAbs path); simpl; [|done]. by intros [= <-].
Qed.

(** X1.  [GetRun] refuses a path that is not absolute before it looks at the
    runs, reports an absolute path no run is named after as not found, and
    otherwise returns the first run of that name in the order of the
    report. *)
Theorem GetRun_spec :
  ∀ (h : Store) (r : Report) (path : string),
    (IsAbs path = false ∧ GetRun h r path = inr ErrPathMustBeAbsolute)
    ∨ (IsAbs path = true
       ∧ (∀ p, p ∈ Runs r → Run.Name (h p) ≠ path)
       ∧ GetRun h r path = inr (ErrRunNotFound path))
    ∨ (IsAbs path = true
       ∧ ∃ (run : ptr) (before after : list ptr),
           GetRun h r path = inl run
           ∧ Runs r = before ++ run :: after
           ∧ Run.Name (h run) = path
           ∧ ∀ q, q ∈ before → Run.Name (h q) ≠ path).
Proof.
  intros h r path. unfold GetRun.
  destruct (IsAbs path); simpl; [right | by left].
  destruct (findRun h path (Runs r)) as [run|] eqn:Hf.
  - right. split; [done|].
    apply findRun_Some in Hf as (before & after & Hr & Hn & Hb).
    by exists run, before, after.
  - left. split_and!; [done | by apply findRun_None | done].
Qed.

(** X2.  A run made by [NewRun] and handed to [AddRun] is found by [GetRun]
    under its path: the run itself when [AddRun] took it, and the run that
    was registered under that path before when [AddRun] refused it. *)
Theorem GetRun_after_AddRun :
  ∀ (now : Time) (path : string) (h : Store) (r r' : Report) (p : ptr)
    (err : option error),
    NewRun now path = inl (h p) →
    AddRun h r p = (r', err) →
    (err = None ∧ GetRun h r' path = inl p)
    ∨ (∃ q, err = Some (ErrRunAlreadyExists path) ∧ r' = r
            ∧ q ∈ Runs r ∧ Run.Name (h q) = path ∧ GetRun h r' path = inl q).
Proof.
  intros now path h r r' p err Hnew Hadd.
  apply NewRun_inl in Hnew as [Habs Hp].
  assert (Hname : Run.Name (h p) = path) by (by rewrite Hp).
  unfold AddRun in Hadd. rewrite Hname in Hadd. unfold GetRun. rewrite Habs. simpl.
  destruct (findRun h path (Runs r)) as [q|] eqn:Hf.
  - right. injection Hadd as <- <-. exists q. rewrite Hf.
    apply findRun_Some in Hf as (before & after & Hr & Hn & _).
    split_and!; try done. rewrite Hr. apply elem_of_app. right. by left.
  - left. injection Hadd as <- <-. split; [done|]. simpl.
    rewrite findRun_app, Hf. simpl.
    rewrite Hname. by rewrite String.eqb_refl.
Qed.

Definition sampleStart : Time := mkTime 63871286400000000000 0.

Definition freshStore : Store :=
  fun _ => Run.mk sampleStart zeroTime None None "/stack/app" "".

Lemma GetRun_after_AddRun_witness :
  NewRun sampleStart "/stack/app" = inl (freshStore 0%nat)
  ∧ AddRun freshStore NewReport 0%nat = (mkReport [0%nat] true, None)
  ∧ GetRun freshStore (mkReport [0%nat] true) "/stack/app" = inl 0%nat.
Proof.
  assert (Hnew : NewRun sampleStart "/stack/app" = inl (freshStore 0%nat))
    by reflexivity.
  assert (Hadd : AddRun freshStore NewReport 0%nat = (mkReport [0%nat] true, None))
    by reflexivity.
  split_and!; [exact Hnew | exact Hadd |].
  destruct (GetRun_after_AddRun sampleStart "/stack/app" freshStore NewReport
              (mkReport [0%nat] true) 0%nat None Hnew Hadd) as [[_ Hget]|Hrej].
  - exact Hget.
  - destruct Hrej as (q & Hq & _). discriminate Hq.
Defined.

(** ** Ending a run, again *)

(** The options the package exports. *)
Inductive exportedOption : EndOption → Prop :=
| exported_WithResult (result : Result) : exportedOption (WithResult result)
| exported_WithReason (reason : Reason) : exportedOption (WithReason reason)
| exported_WithCauseRetryBlock (name : string) :
    exportedOption (WithCauseRetryBlock name)
| exported_WithCauseIgnoreBlock (name : string) :
    exportedOption (WithCauseIgnoreBlock name)
| exported_WithCauseExcludeBlock (name : string) :
    exportedOption (WithCauseExcludeBlock name)
| exported_WithCauseAncestorExit (name : string) :
    exportedOption (WithCauseAncestorExit name).

Lemma exportedOption_Name (o : EndOption) (x : Run.t) :
  exportedOption o → Run.Name (o x) = Run.Name x.
Proof. by intros []. Qed.

Lemma exportedOption_Started (o : EndOption) (x : Run.t) :
  exportedOption o → Run.Started (o x) = Run.Started x.
Proof. by intros []. Qed.

(** X3.  [EndRun] with options of the package renames and restarts no run:
    every run keeps [Name] and [Started], whatever [EndRun] returns, so a
    lookup by path gives after the call what it gave before. *)
Theorem EndRun_keeps_Name_and_Started :
  ∀ (now : Time) (h h' : Store) (r : Report) (path : string)
    (endOptions : list EndOption) (err : option error),
    (∀ o, o ∈ endOptions → exportedOption o) →
    EndRun now h r path endOptions = (h', err) →
    (∀ p, Run.Name (h' p) = Run.Name (h p)
          ∧ Run.Started (h' p) = Run.Started (h p))
    ∧ runNames h' r = runNames h r
    ∧ ∀ path', GetRun h' r path' = GetRun h r path'.
Proof.
  intros now h h' r path opts err Hexp Hend.
  assert (Hkeep : ∀ p, Run.Name (h' p) = Run.Name (h p)
                       ∧ Run.Started (h' p) = Run.Started (h p)).
  { unfold EndRun in Hend. destruct (negb (IsAbs path)); [by injection Hend as <- _|].
    destruct (findRun h path (Runs r)) as [run|]; [|by injection Hend as <- _].
    injection Hend as <- _. intros p.
    destruct (decide (p = run)) as [->|Hne]; [|by rewrite store_set_ne].
    rewrite store_set_eq.
    rewrite (applyEndOptions_keeps Run.Name), (applyEndOptions_keeps Run.Started);
      [done| |]; intros o Ho x;
      [apply exportedOption_Started | apply exportedOption_Name]; auto. }
  split_and!; [exact Hkeep | |].
  - unfold runNames. apply map_ext. intros p. apply Hkeep.
  - intros path'. unfold GetRun. rewrite (findRun_ext h h'); [done|].
    intros p. apply Hkeep.
Qed.

Definition failedStore : Store :=
  fun _ =>
    Run.mk sampleStart (mkTime 63871286460000000000 0) (Some ReasonRunError)
      (Some "retry_block") "/stack/app" ResultFailed.

Lemma EndRun_keeps_Name_and_Started_witness :
  (∀ o, o ∈ [WithResult ResultFailed; WithReason ReasonRunError] → exportedOption o)
  ∧ ∀ h' err,
      EndRun sampleStart freshStore (mkReport [0%nat] true) "/stack/app"
        [WithResult ResultFailed; WithReason ReasonRunError] = (h', err) →
      GetRun h' (mkReport [0%nat] true) "/stack/app" = inl 0%nat.
Proof.
  assert (Hexp : ∀ o, o ∈ [WithResult ResultFailed; WithReason ReasonRunError] →
                      exportedOption o).
  { intros o Ho. apply elem_of_cons in Ho as [->|Ho]; [constructor|].
    apply elem_of_cons in Ho as [->|Ho]; [constructor | inversion Ho]. }
  split; [exact Hexp|]. intros h' err Hend.
  destruct (EndRun_keeps_Name_and_Started sampleStart freshStore h'
              (mkReport [0%nat] true) "/stack/app" _ err Hexp Hend) as (_ & _ & Hget).
  rewrite Hget. reflexivity.
Defined.

(** X4.  [EndRun] writes [Ended] and [Result] and nothing else before the
    options: a run that is ended once more keeps the [Reason] of the call
    before unless an option writes a new one, and likewise its [Cause],
    while its [Result] starts again from [succeeded]. *)
Theorem EndRun_keeps_earlier_Reason_and_Cause :
  ∀ (now : Time) (h h' : Store) (r : Report) (path : string)
    (endOptions : list EndOption),
    EndRun now h r path endOptions = (h', None) →
    ∃ run,
      findRun h path (Runs r) = Some run
      ∧ ((∀ o, o ∈ endOptions → ∀ x, Run.Reason (o x) = Run.Reason x) →
         Run.Reason (h' run) = Run.Reason (h run))
      ∧ ((∀ o, o ∈ endOptions → ∀ x, Run.Cause (o x) = Run.Cause x) →
         Run.Cause (h' run) = Run.Cause (h run))
      ∧ (endOptions = [] →
         h' run = Run.mk (Run.Started (h run)) now (Run.Reason (h run))
                    (Run.Cause (h run)) (Run.Name (h run)) ResultSucceeded).
Proof.
  intros now h h' r path opts Hend. unfold EndRun in Hend.
  destruct (negb (IsAbs path)); [done|].
  destruct (findRun h path (Runs r)) as [run|]; [|done].
  injection Hend as <-. exists run. rewrite store_set_eq.
  split_and!; [done | | |].
  - intros Hk. by rewrite (applyEndOptions_keeps Run.Reason).
  - intros Hk. by rewrite (applyEndOptions_keeps Run.Cause).
  - by intros ->.
Qed.

Lemma EndRun_keeps_earlier_Reason_and_Cause_witness :
  ∃ h',
    EndRun sampleStart failedStore (mkReport [0%nat] true) "/stack/app" []
    = (h', None)
    ∧ Run.Result (h' 0%nat) = ResultSucceeded
    ∧ Run.Reason (h' 0%nat) = Some ReasonRunError
    ∧ Run.Cause (h' 0%nat) = Some "retry_block".
Proof.
  eexists. split; [reflexivity|].
  destruct (EndRun_keeps_earlier_Reason_and_Cause sampleStart failedStore _
              (mkReport [0%nat] true) "/stack/app" [] eq_refl)
    as (run & Hfind & _ & _ & Hrun).
  injection Hfind as <-. rewrite (Hrun eq_refl). split_and!; reflexivity.
Defined.


(** * Sorting, continued *)

(** ** A slice that is in order already *)

Module PdqsortSorted.
Import Pdqsort PdqsortFacts.

Section Sorted.
Local Open Scope nat_scope.

Context {E : Type}.
Variable d : E.
Variable cmp : E → E → Z.
Variable key : E → Z.
Hypothesis cmp_key : ∀ x y, less cmp x y = (key x <? key y)%Z.

Lemma less_sorted (data : list E) (a b i j : nat) :
  sorted_range d key data a b → a ≤ i → i ≤ j → j < b →
  less cmp (at_ d data j) (at_ d data i) = false.
Proof.
  intros Hs Hi Hij Hj. rewrite cmp_key. apply Z.ltb_ge. by apply Hs.
Qed.

Lemma insertDown_in_order (data : list E) (a b j : nat) :
  sorted_range d key data a b → j < b → insertDown d cmp data a j = data.
Proof.
  intros Hs Hj. destruct j as [|j]; [done|]. cbn [insertDown].
  destruct (Nat.ltb_spec a (S j)); cbn [andb]; [|done].
  by rewrite (less_sorted data a b j (S j)) by (done || lia).
Qed.

Lemma insertionSort_in_order (data : list E) (a b : nat) :
  sorted_range d key data a b → insertionSortCmpFunc d cmp data a b = data.
Proof.
  intros Hs. unfold insertionSortCmpFunc.
  assert (Hin : ∀ i, i ∈ seq (a + 1) (b - (a + 1)) → i < b).
  { intros i [? ?]%elem_of_seq. lia. }
  induction (seq (a + 1) (b - (a + 1))) as [|i l IH]; [done|].
  cbn [foldl]. rewrite (insertDown_in_order data a b) by (done || apply Hin; left).
  apply IH. intros k Hk. apply Hin. by right.
Qed.

Lemma order2_in_order (data : list E) (a b x y s : nat) :
  sorted_range d key data a b → a ≤ x → x ≤ y → y < b →
  order2CmpFunc d cmp data x y s = (x, y, s).
Proof.
  intros Hs Hx Hxy Hy. unfold order2CmpFunc.
  by rewrite (less_sorted data a b x y).
Qed.

Lemma median_in_order (data : list E) (a b x y z s : nat) :
  sorted_range d key data a b → a ≤ x → x ≤ y → y ≤ z → z < b →
  medianCmpFunc d cmp data x y z s = (y, s).
Proof.
  intros Hs Hx Hxy Hyz Hz. unfold medianCmpFunc.
  rewrite (order2_in_order data a b x y) by (done || lia).
  rewrite (order2_in_order data a b y z) by (done || lia).
  by rewrite (order2_in_order data a b x y) by (done || lia).
Qed.

(** On a range in order no pair is swapped: the hint is [increasingHint]. *)
Lemma choosePivot_in_order (data : list E) (a b : nat) :
  sorted_range d key data a b → 8 ≤ b - a →
  choosePivotCmpFunc d cmp data a b = (a + (b - a) / 4 * 2, increasingHint).
Proof.
  intros Hs Hlen. unfold choosePivotCmpFunc.
  pose proof (Nat.div_mod_eq (b - a) 4) as Hdiv.
  pose proof (Nat.mod_upper_bound (b - a) 4 ltac:(lia)) as Hmod.
  set (q := (b - a) / 4) in *. clearbody q.
  destruct (Nat.leb_spec 8 (b - a)); [|lia].
  destruct (Nat.leb_spec shortestNinther (b - a)) as [H50|H50].
  - unfold shortestNinther in H50. unfold medianAdjacentCmpFunc.
    rewrite (median_in_order data a b (a + q * 1 - 1)) by (done || lia).
    rewrite (median_in_order data a b (a + q * 2 - 1)) by (done || lia).
    rewrite (median_in_order data a b (a + q * 3 - 1)) by (done || lia).
    by rewrite (median_in_order data a b (a + q * 1)) by (done || lia).
  - by rewrite (median_in_order data a b (a + q * 1)) by (done || lia).
Qed.

Lemma sortedRun_in_order (fuel : nat) :
  ∀ (data : list E) (a b i : nat),
    sorted_range d key data a b → a < i → i ≤ b → b - i ≤ fuel →
    sortedRun d cmp fuel data i b = b.
Proof.
  induction fuel as [|fuel IH]; intros data a b i Hs Ha Hi Hf; simpl; [lia|].
  destruct (Nat.ltb_spec i b); cbn [andb]; [|lia].
  rewrite (less_sorted data a b (i - 1) i) by (done || lia). cbn [negb].
  apply (IH data a b (S i)); done || lia.
Qed.

Lemma partialInsertionLoop_in_order (steps : nat) (data : list E) (a b : nat) :
  sorted_range d key data a b → a < b →
  partialInsertionLoop d cmp (S steps) data a b (a + 1) = (data, true).
Proof.
  intros Hs Hab. cbn [partialInsertionLoop].
  rewrite (sortedRun_in_order (b - (a + 1)) data a b (a + 1)) by (done || lia).
  by rewrite Nat.eqb_refl.
Qed.

Lemma partialInsertionSort_in_order (data : list E) (a b : nat) :
  sorted_range d key data a b → a < b →
  partialInsertionSortCmpFunc d cmp data a b = (data, true).
Proof. apply partialInsertionLoop_in_order. Qed.

(** [SortFunc] returns a slice that is in order as it is: the insertion
    sort moves nothing, and on a longer slice the first turn of the loop
    ends in the partial insertion sort. *)
Lemma SortFunc_in_order (x : list E) :
  sorted_range d key x 0 (length x) → SortFunc d cmp x = x.
Proof.
  intros Hs. unfold SortFunc. cbn [pdqsortCmpFunc]. rewrite Nat.sub_0_r.
  destruct (Nat.leb_spec (length x) maxInsertion) as [Hshort|Hlong].
  { by apply insertionSort_in_order. }
  unfold maxInsertion in Hlong.
  assert (Hlimit : bits_Len (length x) ≠ 0).
  { unfold bits_Len. destruct (length x); [lia | done]. }
  apply Nat.eqb_neq in Hlimit. rewrite Hlimit. cbn [negb].
  rewrite (choosePivot_in_order x 0 (length x)) by (done || lia).
  cbn [isDecreasing isIncreasing andb].
  by rewrite partialInsertionSort_in_order by (done || lia).
Qed.
End Sorted.
End PdqsortSorted.

(** ** [SortRuns] on a report in order, and lookups after [SortRuns] *)

Lemma ascendingStarted_sorted_range (h : Store) (runs : list ptr) :
  ascendingStarted h runs ↔
  PdqsortFacts.sorted_range 0%nat (startedAt h) runs 0 (length runs).
Proof.
  split.
  - intros Hasc i j _ Hij Hj.
    apply (Hasc i j); [done | |]; apply PdqsortFacts.at_lookup; lia.
  - intros Hs i j p q Hij Hp Hq.
    pose proof (lookup_lt_Some _ _ _ Hp) as Hi.
    pose proof (lookup_lt_Some _ _ _ Hq) as Hj.
    rewrite (PdqsortFacts.at_lookup 0%nat) in Hp, Hq by done.
    injection Hp as <-. injection Hq as <-.
    apply Hs; [lia | done | done].
Qed.

(** X5.  [SortRuns] leaves a report whose runs are in non-decreasing order of
    [Started] exactly as it is, runs of equal [Started] included; so
    sorting a second time changes nothing. *)
Theorem SortRuns_fixes_ascending :
  ∀ (h : Store) (r : Report),
    (ascendingStarted h (Runs r) → SortRuns h r = r)
    ∧ SortRuns h (SortRuns h r) = SortRuns h r.
Proof.
  intros h r.
  set (cmp := fun a b => Time_Compare (Run.Started (h a)) (Run.Started (h b))).
  assert (Hfix : ∀ r0, ascendingStarted h (Runs r0) → SortRuns h r0 = r0).
  { intros [runs color] Hasc. unfold SortRuns, setRuns. cbn [Runs shouldColor] in *.
    f_equal.
    apply (PdqsortSorted.SortFunc_in_order 0%nat _ (startedAt h)
             (Started_Compare_less h)).
    by apply ascendingStarted_sorted_range. }
  split; [apply Hfix|]. apply Hfix.
  apply ascendingStarted_sorted_range.
  change (Runs (SortRuns h r)) with (Pdqsort.SortFunc 0%nat cmp (Runs r)).
  destruct (PdqsortFacts.SortFunc_spec 0%nat cmp (startedAt h)
              (Started_Compare_less h) (Runs r)) as [Hperm Hsorted].
  by rewrite <- (Permutation_length Hperm) in Hsorted.
Qed.

(** Fourteen runs in order: started in pairs, two at each of seven
    instants. *)
Definition pairedStore : Store :=
  fun p =>
    Run.mk (mkTime (1000 + Z.of_nat (p / 2)) 0) zeroTime None None
      ("/unit/" +:+ Itoa (Z.of_nat p)) "".

Lemma pairedStore_ascending : ascendingStarted pairedStore (seq 0 14).
Proof.
  intros i j p q Hij Hp Hq.
  apply lookup_seq in Hp as [-> Hi]. apply lookup_seq in Hq as [-> Hj].
  unfold startedAt, pairedStore. cbn [Run.Started instant].
  rewrite !Nat.add_0_l.
  assert (i / 2 ≤ j / 2)%nat by (by apply Nat.Div0.div_le_mono). lia.
Qed.

Lemma SortRuns_fixes_ascending_witness :
  ascendingStarted pairedStore (Runs (mkReport (seq 0 14) true))
  ∧ SortRuns pairedStore (mkReport (seq 0 14) true) = mkReport (seq 0 14) true.
Proof.
  split; [exact pairedStore_ascending|].
  destruct (SortRuns_fixes_ascending pairedStore (mkReport (seq 0 14) true))
    as [Hfix _].
  apply Hfix. exact pairedStore_ascending.
Defined.

Lemma findRun_NoDup_elem (h : Store) (path : string) (runs : list ptr) (p : ptr) :
  NoDup (map (fun q => Run.Name (h q)) runs) →
  p ∈ runs → Run.Name (h p) = path → findRun h path runs = Some p.
Proof.
  induction runs as [|q runs IH]; intros Hnd Hp Hn; [inversion Hp|].
  simpl in *. apply NoDup_cons in Hnd as [Hq Hnd].
  destruct (String.eqb_spec (Run.Name (h q)) path) as [Heq|Hne].
  - apply elem_of_cons in Hp as [->|Hp]; [done|].
    exfalso. apply Hq. rewrite Heq, <- Hn.
    apply list_elem_of_fmap. by exists p.
  - apply elem_of_cons in Hp as [->|Hp]; [done|]. by apply IH.
Qed.

Lemma findRun_Permutation (h : Store) (path : string) (runs runs' : list ptr) :
  NoDup (map (fun q => Run.Name (h q)) runs) → runs' ≡ₚ runs →
  findRun h path runs' = findRun h path runs.
Proof.
  intros Hnd Hperm.
  assert (Hnd' : NoDup (map (fun q => Run.Name (h q)) runs')).
  { assert (Hm : map (fun q => Run.Name (h q)) runs'
                 ≡ₚ map (fun q => Run.Name (h q)) runs) by (by apply Permutation_map).
    by rewrite Hm. }
  destruct (findRun h path runs) as [p|] eqn:Hf.
  - apply findRun_Some in Hf as (before & after & Hr & Hn & _).
    apply findRun_NoDup_elem; [done | | done].
    rewrite Hperm, Hr. apply elem_of_app. right. by left.
  - apply findRun_None. intros p Hp.
    eapply findRun_None in Hf; [exact Hf|]. by rewrite <- Hperm.
Qed.

(** X6.  On a report in which no name occurs twice (as [AddRun] keeps it)
    [SortRuns] changes no lookup: the names stay without duplicates and
    [GetRun] returns for every path what it returned before. *)
Theorem SortRuns_keeps_lookups :
  ∀ (h : Store) (r : Report),
    NoDup (runNames h r) →
    NoDup (runNames h (SortRuns h r))
    ∧ ∀ path, GetRun h (SortRuns h r) path = GetRun h r path.
Proof.
  intros h r Hnd.
  set (cmp := fun a b => Time_Compare (Run.Started (h a)) (Run.Started (h b))).
  destruct (PdqsortFacts.SortFunc_spec 0%nat cmp (startedAt h)
              (Started_Compare_less h) (Runs r)) as [Hperm _].
  split.
  - unfold runNames.
    change (Runs (SortRuns h r)) with (Pdqsort.SortFunc 0%nat cmp (Runs r)).
    assert (Hm : map (fun q => Run.Name (h q)) (Pdqsort.SortFunc 0%nat cmp (Runs r))
                 ≡ₚ map (fun q => Run.Name (h q)) (Runs r))
      by (by apply Permutation_map).
    by rewrite Hm.
  - intros path. unfold GetRun.
    change (Runs (SortRuns h r)) with (Pdqsort.SortFunc 0%nat cmp (Runs r)).
    by rewrite (findRun_Permutation h path (Runs r)).
Qed.

Lemma SortRuns_keeps_lookups_witness :
  NoDup (runNames thirteenStore thirteenRuns)
  ∧ GetRun thirteenStore (SortRuns thirteenStore thirteenRuns) "/unit/6"
    = inl 6%nat.
Proof.
  assert (Hnd : NoDup (runNames thirteenStore thirteenRuns)).
  { apply (bool_decide_unpack _). vm_compute. exact I. }
  split; [exact Hnd|].
  destruct (SortRuns_keeps_lookups thirteenStore thirteenRuns Hnd) as [_ Hget].
  rewrite Hget. vm_compute. reflexivity.
Defined.


(** * Summaries, continued *)

Lemma Summarize_fold (h : Store) (envPadder : string) (r : Report) :
  Summarize h envPadder r
  = fold_left (Update h) (Runs r)
      (mkSummary None None (if String.eqb envPadder "" then " " else envPadder)
         (Z.of_nat (length (Runs r))) 0 0 0 0 (shouldColor r)).
Proof. unfold Summarize. by destruct (Runs r). Qed.

Lemma countResult_Permutation (h : Store) (res : Result) (runs runs' : list ptr) :
  runs' ≡ₚ runs → countResult h res runs' = countResult h res runs.
Proof. intros Hp. unfold countResult. by rewrite Hp. Qed.

Lemma countResult_none (h : Store) (res : Result) (runs : list ptr) :
  (∀ p, p ∈ runs → Run.Result (h p) ≠ res) → countResult h res runs = 0.
Proof.
  intros Hne. unfold countResult. induction runs as [|p runs IH]; [done|].
  rewrite filter_cons, decide_False by (apply Hne; left).
  apply IH. intros q Hq. apply Hne. by right.
Qed.

(** The runs the four counters leave out: those whose [Result] is none of
    the four constants, as that of a run that has not been ended. *)
Definition uncounted (h : Store) (runs : list ptr) : Z :=
  Z.of_nat
    (length
       (filter (λ p, Run.Result (h p) ∉ [ResultSucceeded; ResultFailed;
                                          ResultEarlyExit; ResultExcluded])
          runs)).

Lemma counts_partition (h : Store) (runs : list ptr) :
  Z.of_nat (length runs)
  = countResult h ResultSucceeded runs + countResult h ResultFailed runs
    + countResult h ResultEarlyExit runs + countResult h ResultExcluded runs
    + uncounted h runs.
Proof.
  induction runs as [|p runs IH]; [done|].
  rewrite !countResult_cons. unfold uncounted in *. rewrite filter_cons.
  cbn [length]. rewrite Nat2Z.inj_succ, IH.
  destruct (String.eqb_spec (Run.Result (h p)) ResultSucceeded) as [E1|N1];
    [rewrite E1, decide_False by (intros Hn; apply Hn; repeat constructor);
     simpl; lia|].
  destruct (String.eqb_spec (Run.Result (h p)) ResultFailed) as [E2|N2];
    [rewrite E2, decide_False by (intros Hn; apply Hn; repeat constructor);
     simpl; lia|].
  destruct (String.eqb_spec (Run.Result (h p)) ResultEarlyExit) as [E3|N3];
    [rewrite E3, decide_False by (intros Hn; apply Hn; repeat constructor);
     simpl; lia|].
  destruct (String.eqb_spec (Run.Result (h p)) ResultExcluded) as [E4|N4];
    [rewrite E4, decide_False by (intros Hn; apply Hn; repeat constructor);
     simpl; lia|].
  rewrite decide_True.
  - cbn [length]. lia.
  - intros Hin. repeat (apply elem_of_cons in Hin as [Hin|Hin]; [done|]).
    inversion Hin.
Qed.

(** X7.  The four counters of a summary and the runs they leave out add up to
    [TotalUnits]: a run is counted under its [Result] when that is one of
    [succeeded], [failed], [early exit] and [excluded], and under nothing
    otherwise, so that the counters fall short of the total by the number
    of runs that were not ended or carry some other result. *)
Theorem Summarize_counters_add_up :
  ∀ (h : Store) (envPadder : string) (r : Report),
    let s := Summarize h envPadder r in
    TotalUnits s
    = UnitsSucceeded s + UnitsFailed s + EarlyExits s + Excluded s
      + uncounted h (Runs r)
    ∧ 0 ≤ uncounted h (Runs r)
    ∧ ((∀ p, p ∈ Runs r → Run.Result (h p) = "") →
       UnitsSucceeded s + UnitsFailed s + EarlyExits s + Excluded s = 0).
Proof.
  intros h env r. cbn zeta. rewrite Summarize_fold.
  set (s0 := mkSummary _ _ _ _ _ _ _ _ _).
  pose proof (fold_Update_counts h (Runs r) s0) as (H1 & H2 & H3 & H4 & H5 & _).
  rewrite H1, H2, H3, H4, H5. subst s0. cbn [TotalUnits UnitsSucceeded UnitsFailed
    EarlyExits Excluded].
  pose proof (counts_partition h (Runs r)) as Hpart.
  split_and!; [lia | unfold uncounted; lia |].
  intros Hempty.
  rewrite !countResult_none; [lia|..]; intros p Hp; by rewrite Hempty.
Qed.

Lemma Summarize_counters_add_up_witness :
  (∀ p, p ∈ Runs (mkReport [0; 1]%nat true) → Run.Result (freshStore p) = "")
  ∧ TotalUnits (Summarize freshStore "" (mkReport [0; 1]%nat true)) = 2
  ∧ UnitsSucceeded (Summarize freshStore "" (mkReport [0; 1]%nat true))
    + UnitsFailed (Summarize freshStore "" (mkReport [0; 1]%nat true))
    + EarlyExits (Summarize freshStore "" (mkReport [0; 1]%nat true))
    + Excluded (Summarize freshStore "" (mkReport [0; 1]%nat true)) = 0.
Proof.
  assert (Hempty : ∀ p, p ∈ Runs (mkReport [0; 1]%nat true) →
                        Run.Result (freshStore p) = "") by reflexivity.
  split_and!; [exact Hempty | reflexivity |].
  apply (Summarize_counters_add_up freshStore "" (mkReport [0; 1]%nat true)).
  exact Hempty.
Defined.

(** X8.  [Summarize] does not depend on the order of the runs, as far as it is
    printed: two reports with the same runs in different orders (as before
    and after [SortRuns]) have summaries with the same counters, the same
    padder and colour flag and the same total duration.  (The pointers
    [firstRunStart] and [lastRunEnd] may go to different runs of equal
    time.) *)
Theorem Summarize_order_independent :
  ∀ (h : Store) (envPadder : string) (r r' : Report),
    Runs r' ≡ₚ Runs r → shouldColor r' = shouldColor r →
    let s := Summarize h envPadder r in
    let s' := Summarize h envPadder r' in
    TotalUnits s' = TotalUnits s
    ∧ UnitsSucceeded s' = UnitsSucceeded s
    ∧ UnitsFailed s' = UnitsFailed s
    ∧ EarlyExits s' = EarlyExits s
    ∧ Excluded s' = Excluded s
    ∧ padder s' = padder s
    ∧ summaryShouldColor s' = summaryShouldColor s
    ∧ TotalDuration h s' = TotalDuration h s.
Proof.
  intros h env r r' Hperm Hcolor. cbn zeta. rewrite !Summarize_fold.
  set (s0 := mkSummary _ _ _ (Z.of_nat (length (Runs r))) _ _ _ _ _).
  set (s0' := mkSummary _ _ _ (Z.of_nat (length (Runs r'))) _ _ _ _ _).
  pose proof (fold_Update_counts h (Runs r) s0) as (H1 & H2 & H3 & H4 & H5 & H6 & H7).
  pose proof (fold_Update_counts h (Runs r') s0')
    as (H1' & H2' & H3' & H4' & H5' & H6' & H7').
  pose proof (fold_Update_first h (Runs r) s0) as Hf.
  pose proof (fold_Update_first h (Runs r') s0') as Hf'.
  pose proof (fold_Update_last h (Runs r) s0) as Hl.
  pose proof (fold_Update_last h (Runs r') s0') as Hl'.
  assert (Hduration :
    TotalDuration h (fold_left (Update h) (Runs r') s0')
    = TotalDuration h (fold_left (Update h) (Runs r) s0)).
  { unfold TotalDuration.
    destruct (firstRunStart (fold_left (Update h) (Runs r') s0')) as [f'|],
      (firstRunStart (fold_left (Update h) (Runs r) s0)) as [f|].
    - destruct (lastRunEnd (fold_left (Update h) (Runs r') s0')) as [l'|],
        (lastRunEnd (fold_left (Update h) (Runs r) s0)) as [l|].
      + destruct Hf as ([?|Hf] & Hmin & _); [done|].
        destruct Hf' as ([?|Hf'] & Hmin' & _); [done|].
        destruct Hl as ([?|Hl] & Hmax & _); [done|].
        destruct Hl' as ([?|Hl'] & Hmax' & _); [done|].
        rewrite !Time_Sub_clamp.
        pose proof (Hmin f' ltac:(by rewrite <- Hperm)).
        pose proof (Hmin' f ltac:(by rewrite Hperm)).
        pose proof (Hmax l' ltac:(by rewrite <- Hperm)).
        pose proof (Hmax' l ltac:(by rewrite Hperm)).
        f_equal. lia.
      + destruct Hl as [_ Hnil]. rewrite Hnil in Hperm.
        apply Permutation_nil_r in Hperm. destruct Hl' as ([?|Hl'] & _); [done|].
        rewrite Hperm in Hl'. inversion Hl'.
      + destruct Hl' as [_ Hnil]. rewrite Hnil in Hperm.
        symmetry in Hperm. apply Permutation_nil_r in Hperm.
        destruct Hl as ([?|Hl] & _); [done|]. rewrite Hperm in Hl. inversion Hl.
      + done.
    - destruct Hf as [_ Hnil]. rewrite Hnil in Hperm.
      apply Permutation_nil_r in Hperm. destruct Hf' as ([?|Hf'] & _); [done|].
      rewrite Hperm in Hf'. inversion Hf'.
    - destruct Hf' as [_ Hnil]. rewrite Hnil in Hperm.
      symmetry in Hperm. apply Permutation_nil_r in Hperm.
      destruct Hf as ([?|Hf] & _); [done|]. rewrite Hperm in Hf. inversion Hf.
    - done. }
  rewrite Hduration.
  rewrite H1, H2, H3, H4, H5, H6, H7, H1', H2', H3', H4', H5', H6', H7'.
  rewrite !(countResult_Permutation h _ (Runs r) (Runs r')) by done.
  subst s0 s0'. cbn [TotalUnits UnitsSucceeded UnitsFailed EarlyExits Excluded
    padder summaryShouldColor].
  rewrite (Permutation_length Hperm), Hcolor.
  split_and!; reflexivity.
Qed.

Lemma Summarize_order_independent_witness :
  Runs (SortRuns thirteenStore thirteenRuns) ≡ₚ Runs thirteenRuns
  ∧ TotalDuration thirteenStore
      (Summarize thirteenStore "" (SortRuns thirteenStore thirteenRuns))
    = TotalDuration thirteenStore (Summarize thirteenStore "" thirteenRuns).
Proof.
  assert (Hperm : Runs (SortRuns thirteenStore thirteenRuns) ≡ₚ Runs thirteenRuns).
  { apply (PdqsortFacts.SortFunc_spec 0%nat _ (startedAt thirteenStore)
             (Started_Compare_less thirteenStore)). }
  split; [exact Hperm|].
  apply (Summarize_order_independent thirteenStore "" thirteenRuns
           (SortRuns thirteenStore thirteenRuns) Hperm eq_refl).
Defined.


(** * Rendering, continued *)

Lemma len_append (a b : string) : len (a +:+ b) = len a + len b.
Proof.
  unfold len. induction a as [|c a IH]; [done|].
  rewrite append_cons. cbn [String.length]. lia.
Qed.

Lemma len_repeat (s : string) (n : nat) :
  len (Nat.iter n (fun acc => s +:+ acc) "") = Z.of_nat n * len s.
Proof.
  induction n as [|n IH]; [done|].
  rewrite Nat.iter_succ, len_append, IH. lia.
Qed.

(** A sequence of calls of [Fprintf] on one writer, up to the first one
    that fails. *)
Fixpoint writeLines (w : Writer) (lines : list string) : outcome Writer :=
  match lines with
  | [] => Ok w
  | line :: rest => w ← Fprintf w line; writeLines w rest
  end.

Definition joined (lines : list string) : string := fold_right append "" lines.

Lemma writeLines_accepted (lines : list string) (text : string) :
  writeLines (mkWriter text None) lines = Ok (mkWriter (text +:+ joined lines) None).
Proof.
  revert text. induction lines as [|line rest IH]; intros text.
  - simpl. by rewrite append_empty_r.
  - cbn [writeLines joined fold_right]. unfold Fprintf. cbn [accepts written mbind outcome_mbind outcome_bind].
    rewrite IH. by rewrite append_assoc.
Qed.

Lemma writeLines_counted (lines : list string) (text : string) (n : nat) :
  writeLines (mkWriter text (Some n)) lines
  = if (length lines <=? n)%nat
    then Ok (mkWriter (text +:+ joined lines) (Some (n - length lines)%nat))
    else Err (ErrIO "write").
Proof.
  revert text n. induction lines as [|line rest IH]; intros text n.
  - simpl. by rewrite append_empty_r, Nat.sub_0_r.
  - cbn [writeLines joined fold_right length]. unfold Fprintf.
    cbn [accepts written]. destruct n as [|n]; [done|].
    cbn [mbind outcome_mbind outcome_bind]. rewrite IH.
    change (S (length rest) <=? S n)%nat with (length rest <=? n)%nat.
    by rewrite append_assoc.
Qed.

(** The length of the longest label with prefix and separator, and the
    padding that brings a label to it. *)
Definition longest (s : Summary) : Z :=
  match longestLineLength s with Ok n => n | _ => 0 end.

Definition pad (s : Summary) (label : string) : string :=
  Nat.iter (Z.to_nat (longest s - labelLength label)) (fun acc => padder s +:+ acc) "".

Definition entryLine (s : Summary) (entry : string * string) : string :=
  prefix +:+ entry.1 +:+ separator +:+ pad s entry.1 +:+ " " +:+ entry.2 +:+ nl.

Section SummaryText.
Variable ansi_ColorFunc : string → string → string.
Variable secondsOf : Z → Z.
Variable minutesOf : Z → Z.

(** The entries of a summary, label and value, in the order of [Write]:
    the duration and the number of units, then each counter that is not
    zero. *)
Definition summaryEntries (h : Store) (s : Summary) : list (string * string) :=
  let colorizer := NewColorizer ansi_ColorFunc (summaryShouldColor s) in
  [ (durationLabel, TotalDurationString secondsOf minutesOf h s colorizer);
    (unitsLabel, defaultColorizer colorizer (Itoa (TotalUnits s))) ]
  ++ (if 0 <? UnitsSucceeded s
      then [(successLabel, successColorizer colorizer (Itoa (UnitsSucceeded s)))]
      else [])
  ++ (if 0 <? UnitsFailed s
      then [(failureLabel, failureColorizer colorizer (Itoa (UnitsFailed s)))]
      else [])
  ++ (if 0 <? EarlyExits s
      then [(earlyExitLabel, exitColorizer colorizer (Itoa (EarlyExits s)))]
      else [])
  ++ (if 0 <? Excluded s
      then [(excludeLabel, excludeColorizer colorizer (Itoa (Excluded s)))]
      else []).

Definition summaryLines (h : Store) (s : Summary) : list string :=
  (headingColorizer (NewColorizer ansi_ColorFunc (summaryShouldColor s))
     runSummaryHeader +:+ nl)
  :: map (entryLine s) (summaryEntries h s).

Lemma summaryEntries_labels (h : Store) (s : Summary) :
  map fst (summaryEntries h s) = printedLabels s.
Proof.
  unfold summaryEntries, printedLabels.
  by destruct (0 <? UnitsSucceeded s), (0 <? UnitsFailed s),
    (0 <? EarlyExits s), (0 <? Excluded s).
Qed.

Lemma writeSummaryEntry_printed (s : Summary) (w : Writer) (label value : string) :
  label ∈ printedLabels s →
  writeSummaryEntry s w label value = Fprintf w (entryLine s (label, value)).
Proof.
  intros Hl. unfold writeSummaryEntry, entryLine, pad, longest.
  destruct (padding_printed s label Hl) as (n & -> & _ & ->). done.
Qed.

Lemma Write_writeLines (h : Store) (s : Summary) (w : Writer) :
  Write ansi_ColorFunc secondsOf minutesOf h s w = writeLines w (summaryLines h s).
Proof.
  unfold Write, summaryLines, summaryEntries, writeSummaryHeader.
  destruct (0 <? UnitsSucceeded s) eqn:E1, (0 <? UnitsFailed s) eqn:E2,
    (0 <? EarlyExits s) eqn:E3, (0 <? Excluded s) eqn:E4;
    cbn [writeLines map app];
    repeat (cbn [mbind outcome_mbind outcome_bind];
            rewrite ?writeSummaryEntry_printed
              by auto using printed_duration, printed_units, printed_success,
                   printed_failure, printed_earlyExit, printed_exclude;
            match goal with
            | |- context [Fprintf ?w ?t] =>
                is_var w; destruct (Fprintf w t) as [?|?|?]; [|done|done]
            end);
    done.
Qed.
End SummaryText.

Section SummaryTheorems.
Variable ansi_ColorFunc : string → string → string.
Variable secondsOf : Z → Z.
Variable minutesOf : Z → Z.

(** X9.  On a writer that takes every write [Write] appends the heading and
    then one line per entry, in the order duration, units, succeeded,
    failed, early exits, excluded, a counter that is zero having no line;
    a line is the prefix, the label, the separator, the padding, a space,
    the value and a line feed.  [WriteSummary] puts a line feed before
    and one after. *)
Theorem Write_prints_the_entries :
  ∀ (h : Store) (s : Summary) (text : string),
    Write ansi_ColorFunc secondsOf minutesOf h s (mkWriter text None)
    = Ok (mkWriter
            (text +:+ joined (summaryLines ansi_ColorFunc secondsOf minutesOf h s))
            None)
    ∧ map fst (summaryEntries ansi_ColorFunc secondsOf minutesOf h s)
      = printedLabels s
    ∧ ∀ (envPadder : string) (r : Report),
        WriteSummary ansi_ColorFunc secondsOf minutesOf h envPadder r
          (mkWriter text None)
        = Ok (mkWriter
                (text +:+ nl
                 +:+ joined (summaryLines ansi_ColorFunc secondsOf minutesOf h
                               (Summarize h envPadder r))
                 +:+ nl)
                None).
Proof.
  intros h s text. split_and!.
  - by rewrite Write_writeLines, writeLines_accepted.
  - apply summaryEntries_labels.
  - intros env r. unfold WriteSummary.
    change (Fprintf (mkWriter text None) nl) with (Ok (mkWriter (text +:+ nl) None)).
    cbn [mbind outcome_mbind outcome_bind].
    rewrite Write_writeLines, writeLines_accepted.
    cbn [mbind outcome_mbind outcome_bind]. unfold Fprintf. cbn [accepts written].
    by rewrite !append_assoc.
Qed.

(** X10.  On a writer that fails after [n] writes [Write] returns the error of
    the writer when [n] is less than the number of its lines, the
    heading and the entries, and writes them all otherwise: it makes one
    write per line and stops at the first that fails. *)
Theorem Write_fails_with_the_writer :
  ∀ (h : Store) (s : Summary) (text : string) (n : nat),
    Write ansi_ColorFunc secondsOf minutesOf h s (mkWriter text (Some n))
    = if (length (printedLabels s) <? n)%nat
      then Ok (mkWriter
                 (text +:+ joined (summaryLines ansi_ColorFunc secondsOf minutesOf h s))
                 (Some (n - S (length (printedLabels s)))%nat))
      else Err (ErrIO "write").
Proof.
  intros h s text n. rewrite Write_writeLines, writeLines_counted.
  unfold summaryLines. cbn [length]. rewrite length_map.
  rewrite <- (summaryEntries_labels ansi_ColorFunc secondsOf minutesOf h s).
  rewrite length_map. reflexivity.
Qed.
End SummaryTheorems.

(** X11.  The values of the entries of a summary start in one column when the
    padder is one byte long, as the default padder is: the padding of the
    label of a line that [Write] prints is the padder repeated [longest]
    less the length of prefix, label and separator times, which brings
    every line to the length of the one with the longest label. *)
Theorem entries_are_aligned :
  ∀ (s : Summary) (label : string),
    label ∈ printedLabels s →
    padding s label = Ok (pad s label)
    ∧ len (pad s label) = (longest s - labelLength label) * len (padder s)
    ∧ labelLength label ≤ longest s
    ∧ (len (padder s) = 1 →
       len (prefix +:+ label +:+ separator +:+ pad s label) = longest s)
    ∧ ∃ widest, widest ∈ printedLabels s ∧ labelLength widest = longest s.
Proof.
  intros s label Hl. unfold pad, longest.
  destruct (padding_printed s label Hl) as (n & Hn & Hle & Hpad).
  rewrite Hn in *. split_and!.
  - exact Hpad.
  - rewrite len_repeat, Z2Nat.id by lia. reflexivity.
  - lia.
  - intros Hone. rewrite !len_append, len_repeat, Hone, Z2Nat.id by lia.
    unfold labelLength in *. lia.
  - clear Hl Hle Hpad. revert Hn. unfold longestLineLength, printedLabels.
    destruct (0 <? UnitsSucceeded s), (0 <? UnitsFailed s),
      (0 <? EarlyExits s), (0 <? Excluded s); intros [= <-];
      first [ exists earlyExitLabel; split; [set_solver | reflexivity]
            | exists successLabel; split; [set_solver | reflexivity]
            | exists durationLabel; split; [set_solver | reflexivity] ].
Qed.

Lemma entries_are_aligned_witness :
  successLabel ∈ printedLabels (mkSummary None None " " 3 2 0 1 0 false)
  ∧ len (prefix +:+ successLabel +:+ separator
         +:+ pad (mkSummary None None " " 3 2 0 1 0 false) successLabel)
    = longest (mkSummary None None " " 3 2 0 1 0 false).
Proof.
  assert (Hl : successLabel ∈ printedLabels (mkSummary None None " " 3 2 0 1 0 false)).
  { apply printed_success. reflexivity. }
  split; [exact Hl|].
  apply (entries_are_aligned (mkSummary None None " " 3 2 0 1 0 false) successLabel Hl).
  reflexivity.
Defined.

(** X12.  A report with the colour disabled is summarized without a call of
    [ansi.ColorFunc]: what [WriteSummary] writes does not depend on it. *)
Theorem WriteSummary_without_colour :
  ∀ (ansi1 ansi2 : string → string → string) (secondsOf minutesOf : Z → Z)
    (h : Store) (envPadder : string) (r : Report) (w : Writer),
    summaryShouldColor (Summarize h envPadder (WithDisableColor r)) = false
    ∧ WriteSummary ansi1 secondsOf minutesOf h envPadder (WithDisableColor r) w
      = WriteSummary ansi2 secondsOf minutesOf h envPadder (WithDisableColor r) w.
Proof.
  intros ansi1 ansi2 sec min h env r w.
  assert (Hplain : summaryShouldColor (Summarize h env (WithDisableColor r)) = false).
  { rewrite Summarize_fold.
    by destruct (fold_Update_counts h (Runs (WithDisableColor r))
                   (mkSummary None None (if String.eqb env "" then " " else env)
                      (Z.of_nat (length (Runs (WithDisableColor r)))) 0 0 0 0
                      (shouldColor (WithDisableColor r))))
      as (_ & _ & _ & _ & _ & _ & ->). }
  split; [exact Hplain|].
  unfold WriteSummary. destruct (Fprintf w nl) as [w1|e|m]; [|done|done].
  cbn [mbind outcome_mbind outcome_bind].
  unfold Write. by rewrite Hplain.
Qed.


(** * The export, continued *)

(** ** An export that fits the buffer *)

Lemma length_list_ascii_of_string (s : string) :
  length (list_ascii_of_string s) = String.length s.
Proof. induction s as [|c s IH]; [done|]. simpl. by rewrite IH. Qed.

(** The records of the runs as [writeRows] hands them to the buffer. *)
Definition rowsText (h : Store) (runs : list ptr) : string :=
  fold_right (fun record text => csvFields record +:+ String lfChar "" +:+ text) ""
    (map (fun run => csvRow (h run)) runs).

Lemma tabular_rowsText (h : Store) (runs : list ptr) :
  tabular (String lfChar "") h runs
  = csvFields csvHeader +:+ String lfChar "" +:+ rowsText h runs.
Proof. reflexivity. Qed.

(** A string that fits what is left of the buffer is kept there: nothing
    is handed to the writer. *)
Lemma bufio_WriteString_fits (fuel : nat) (b : Bufio) (s : list ascii) :
  berr b = None → (length (buf b) + length s ≤ defaultBufSize)%nat →
  bufio_WriteString (S fuel) b s = (mkBufio (buf b ++ s) None (wr b), None).
Proof.
  intros He Hfit. cbn [bufio_WriteString]. unfold bufio_Available.
  destruct (Nat.ltb_spec (defaultBufSize - length (buf b)) (length s)) as [Hlt|_];
    [lia|].
  cbn [andb]. by rewrite He.
Qed.

Lemma csv_Write_fits (b : Bufio) (record : list string) :
  berr b = None →
  (length (buf b) + String.length (csvFields record +:+ String lfChar "")
   ≤ defaultBufSize)%nat →
  csv_Write b record
  = (mkBufio (buf b ++ list_ascii_of_string (csvFields record +:+ String lfChar ""))
       None (wr b), None).
Proof.
  intros He Hfit. unfold csv_Write, csvRecord.
  apply bufio_WriteString_fits; [done|]. by rewrite length_list_ascii_of_string.
Qed.

Lemma String_length_append (a b : string) :
  String.length (a +:+ b) = (String.length a + String.length b)%nat.
Proof. induction a as [|c a IH]; [done|]. rewrite append_cons. simpl. by rewrite IH. Qed.

Lemma writeRows_fits (h : Store) (runs : list ptr) :
  ∀ b : Bufio,
    berr b = None →
    (length (buf b) + String.length (rowsText h runs) ≤ defaultBufSize)%nat →
    writeRows h b runs
    = (mkBufio (buf b ++ list_ascii_of_string (rowsText h runs)) None (wr b), None).
Proof.
  induction runs as [|run runs IH]; intros b He Hfit.
  - simpl. rewrite app_nil_r. by destruct b as [? [?|] ?].
  - change (rowsText h (run :: runs))
      with (csvFields (csvRow (h run)) +:+ String lfChar "" +:+ rowsText h runs) in *.
    rewrite <- append_assoc, String_length_append in Hfit.
    change (writeRows h b (run :: runs))
      with (match csv_Write b (csvRow (h run)) with
            | (b, Some e) => (b, Some e)
            | (b, None) => writeRows h b runs
            end).
    rewrite csv_Write_fits by (done || lia).
    rewrite IH; cbn [buf berr wr]; [|done|rewrite length_app, length_list_ascii_of_string; lia].
    by rewrite <- app_assoc, <- list_ascii_of_string_app, append_assoc.
Qed.

Lemma csvHeader_text : csvFields csvHeader = "Name,Started,Ended,Result,Reason,Cause".
Proof. reflexivity. Qed.

(** With an export that fits the buffer the writes of [WriteCSV] reach the
    writer in the deferred [Flush] only. *)
Lemma WriteCSV_buffered (h : Store) (r : Report) (w : Writer) :
  (String.length (tabular (String lfChar "") h (Runs r)) ≤ defaultBufSize)%nat →
  ∃ c rest,
    list_ascii_of_string (tabular (String lfChar "") h (Runs r)) = c :: rest
    ∧ WriteCSV h r w = (wr (bufio_Flush (mkBufio (c :: rest) None w)), None).
Proof.
  intros Hfit. rewrite tabular_rowsText in *.
  rewrite <- append_assoc, String_length_append in Hfit.
  unfold WriteCSV.
  rewrite csv_Write_fits; cbn [buf berr wr length]; [|done|lia].
  rewrite writeRows_fits; cbn [buf berr wr app];
    [|done|by rewrite length_list_ascii_of_string].
  rewrite <- list_ascii_of_string_app, append_assoc.
  destruct (list_ascii_of_string
              (csvFields csvHeader +:+ String lfChar "" +:+ rowsText h (Runs r)))
    as [|c rest] eqn:Hbytes.
  { rewrite csvHeader_text, !append_cons in Hbytes. discriminate Hbytes. }
  by exists c, rest.
Qed.

(** X13.  [WriteCSV] does not look at what the deferred [Flush] returns, and
    the writes of an export of at most 4096 bytes all fit the buffer of the
    [csv.Writer]: for such an export [WriteCSV] returns no error whatever
    the writer does, and a writer that fails on its first write has then
    received nothing. *)
Theorem WriteCSV_hides_the_error_of_Flush :
  ∀ (h : Store) (r : Report) (w : Writer),
    (String.length (tabular (String lfChar "") h (Runs r)) ≤ defaultBufSize)%nat →
    snd (WriteCSV h r w) = None
    ∧ (accepts w = Some 0%nat → fst (WriteCSV h r w) = w)
    ∧ (accepts w ≠ Some 0%nat →
       written (fst (WriteCSV h r w))
       = written w +:+ tabular (String lfChar "") h (Runs r)).
Proof.
  intros h r w Hfit.
  destruct (WriteCSV_buffered h r w Hfit) as (c & rest & Hbytes & ->).
  cbn [fst snd]. split; [done|].
  unfold bufio_Flush, Writer_Write. cbn [berr buf wr].
  destruct (accepts w) as [[|n]|] eqn:Hacc; cbn [wr written].
  - split; [done | intros Hne; by destruct Hne].
  - split; [done|]. intros _.
    by rewrite <- Hbytes, string_of_list_ascii_of_string.
  - split; [done|]. intros _.
    by rewrite <- Hbytes, string_of_list_ascii_of_string.
Qed.

Lemma oneRun_fits :
  (String.length (tabular (String lfChar "") oneRun [0%nat]) ≤ defaultBufSize)%nat.
Proof. apply Nat.leb_le. vm_compute. reflexivity. Qed.

Lemma WriteCSV_hides_the_error_of_Flush_witness :
  (String.length (tabular (String lfChar "") oneRun (Runs (mkReport [0%nat] true)))
   ≤ defaultBufSize)%nat
  ∧ WriteCSV oneRun (mkReport [0%nat] true) (mkWriter "" (Some 0%nat))
    = (mkWriter "" (Some 0%nat), None).
Proof.
  split; [exact oneRun_fits|].
  destruct (WriteCSV_hides_the_error_of_Flush oneRun (mkReport [0%nat] true)
              (mkWriter "" (Some 0%nat)) oneRun_fits) as (Herr & Hw & _).
  specialize (Hw eq_refl).
  destruct (WriteCSV oneRun (mkReport [0%nat] true) (mkWriter "" (Some 0%nat)))
    as [w e]. cbn [fst snd] in *. by subst.
Defined.

(** ** What [WriteToFile] leaves behind *)

(** X14.  When [WriteToFile] returns an error, either the temporary file could
    not be created, and then the files and the report are as they were, or
    the report has been sorted in place all the same and the temporary file
    is left in the directory for temporary files: no way out removes it. *)
Theorem WriteToFile_error_leaves_the_temporary_file :
  ∀ (env : Env) (h : Store) (r r' : Report) (fs fs' : FS) (path : string)
    (err : error),
    WriteToFile env h r fs path = (fs', r', Some err) →
    (fs' = fs ∧ r' = r
     ∧ (createTempFails env = true ∨ is_Some (fs !! tmpPath env)))
    ∨ (r' = SortRuns h r
       ∧ fs !! tmpPath env = None
       ∧ fs' !! tmpPath env
         = Some (written (fst (WriteCSV h r' (mkWriter "" (tmpAccepts env)))))).
Proof.
  intros env h r r' fs fs' path err. unfold WriteToFile, os_CreateTemp.
  change (String.eqb "" "") with true. cbn iota. fold (tmpPath env).
  destruct (createTempFails env).
  { intros [= <- <- _]. left. split_and!; [done | done | by left]. }
  destruct (fs !! tmpPath env) as [old|] eqn:Hold.
  { intros [= <- <- _]. left. split_and!; [done | done | right; by eexists]. }
  destruct (WriteCSV h (SortRuns h r) (mkWriter "" (tmpAccepts env))) as [w e] eqn:Hw.
  destruct e as [e|].
  { intros [= <- <- _]. right. rewrite Hw. by rewrite lookup_insert_eq. }
  destruct (closeFails env).
  { intros [= <- <- _]. right. rewrite Hw. by rewrite lookup_insert_eq. }
  unfold os_Rename. destruct (renameFails env).
  { intros [= <- <- _]. right. rewrite Hw. by rewrite lookup_insert_eq. }
  rewrite lookup_insert_eq. intros [= _ _ ?].
Qed.

Lemma otherDevice_fails :
  is_Some (snd (WriteToFile otherDeviceEnv oneRun (mkReport [0%nat] true)
                  {["/work/report.csv" := "old"]} "/work/report.csv")).
Proof. vm_compute. by eexists. Qed.

Lemma WriteToFile_error_leaves_the_temporary_file_witness :
  ∃ fs' r' err,
    WriteToFile otherDeviceEnv oneRun (mkReport [0%nat] true)
      {["/work/report.csv" := "old"]} "/work/report.csv"
    = (fs', r', Some err)
    ∧ is_Some (fs' !! tmpPath otherDeviceEnv).
Proof.
  pose proof otherDevice_fails as Hfails.
  destruct (WriteToFile otherDeviceEnv oneRun (mkReport [0%nat] true)
              {["/work/report.csv" := "old"]} "/work/report.csv")
    as [[fs' r'] [err|]] eqn:Hrun; [|by destruct Hfails].
  exists fs', r', err. split; [reflexivity|].
  destruct (WriteToFile_error_leaves_the_temporary_file otherDeviceEnv oneRun
              (mkReport [0%nat] true) r' {["/work/report.csv" := "old"]} fs'
              "/work/report.csv" err Hrun)
    as [(_ & _ & [Hc|Hc])|(_ & _ & Htmp)].
  - discriminate Hc.
  - destruct Hc as [x Hx]. rewrite lookup_singleton_ne in Hx by discriminate.
    discriminate Hx.
  - rewrite Htmp. by eexists.
Defined.

(** X15.  A temporary file that takes no write goes unnoticed when the export
    is at most 4096 bytes long: with the close and the rename succeeding,
    [WriteToFile] returns no error and the destination is replaced by the
    empty file. *)
Theorem WriteToFile_installs_an_empty_file :
  ∀ (env : Env) (h : Store) (r : Report) (fs : FS) (path : string),
    createTempFails env = false → fs !! tmpPath env = None →
    tmpAccepts env = Some 0%nat → closeFails env = false →
    renameFails env = false →
    (String.length (tabular (String lfChar "") h (Runs (SortRuns h r)))
     ≤ defaultBufSize)%nat →
    ∃ fs',
      WriteToFile env h r fs path = (fs', SortRuns h r, None)
      ∧ fs' !! path = Some "".
Proof.
  intros env h r fs path Hcreate Hfree Hacc Hclose Hrename Hfit.
  unfold WriteToFile, os_CreateTemp.
  change (String.eqb "" "") with true. cbn iota. fold (tmpPath env).
  rewrite Hcreate, Hfree.
  destruct (WriteCSV_buffered h (SortRuns h r) (mkWriter "" (tmpAccepts env)) Hfit)
    as (c & rest & _ & ->).
  rewrite Hacc. unfold bufio_Flush, Writer_Write. cbn [berr buf wr accepts written].
  rewrite Hclose. unfold os_Rename. rewrite Hrename, lookup_insert_eq.
  eexists. split; [reflexivity|]. by rewrite lookup_insert_eq.
Qed.

(** A run with a temporary file that takes no write, say on a full disk. *)
Definition fullDiskEnv : Env := mkEnv "/tmp" "1" false (Some 0%nat) false false.

Lemma oneRun_sorted_fits :
  (String.length
     (tabular (String lfChar "") oneRun (Runs (SortRuns oneRun (mkReport [0%nat] true))))
   ≤ defaultBufSize)%nat.
Proof. apply Nat.leb_le. vm_compute. reflexivity. Qed.

Lemma WriteToFile_installs_an_empty_file_witness :
  tmpAccepts fullDiskEnv = Some 0%nat
  ∧ ∃ fs',
      WriteToFile fullDiskEnv oneRun (mkReport [0%nat] true)
        {["/work/report.csv" := "old"]} "/work/report.csv"
      = (fs', SortRuns oneRun (mkReport [0%nat] true), None)
      ∧ fs' !! "/work/report.csv" = Some "".
Proof.
  split; [reflexivity|].
  apply (WriteToFile_installs_an_empty_file fullDiskEnv oneRun (mkReport [0%nat] true)
           {["/work/report.csv" := "old"]} "/work/report.csv").
  - reflexivity.
  - apply lookup_singleton_ne. discriminate.
  - reflexivity.
  - reflexivity.
  - reflexivity.
  - exact oneRun_sorted_fits.
Defined.


(** * The stack of modules, continued *)

(** ** What the resolver returns *)

(** A map of modules in which every module is entered under its own
    path. *)
Definition keyedByPath (modulesMap : TerraformModulesMap) : Prop :=
  ∀ key module, modulesMap !! key = Some module → Path module = key.

(** A map of modules that are all taken to be applied already. *)
Definition allAssumedApplied (modulesMap : TerraformModulesMap) : Prop :=
  ∀ key module, modulesMap !! key = Some module → AssumeAlreadyApplied module = true.

(** Among the events of [log'] after those of [log] there is no call of
    the confirmation callback. *)
Definition asksNothing (log log' : list event) : Prop :=
  ∃ events,
    log' = log ++ events
    ∧ ∀ modulePath dependencyPath, EvConfirm modulePath dependencyPath ∉ events.

Lemma asksNothing_refl (log : list event) : asksNothing log log.
Proof. exists []. split; [by rewrite app_nil_r | intros m d He; inversion He]. Qed.

Lemma asksNothing_trans (log1 log2 log3 : list event) :
  asksNothing log1 log2 → asksNothing log2 log3 → asksNothing log1 log3.
Proof.
  intros (e1 & -> & H1) (e2 & -> & H2). exists (e1 ++ e2).
  split; [by rewrite app_assoc|].
  intros m d [He|He]%elem_of_app; [by eapply H1 | by eapply H2].
Qed.

Lemma keyedByPath_empty : keyedByPath ∅.
Proof. intros k v Hk. by rewrite lookup_empty in Hk. Qed.

Lemma keyedByPath_mergeMaps (a b : TerraformModulesMap) :
  keyedByPath a → keyedByPath b → keyedByPath (mergeMaps a b).
Proof.
  intros Ha Hb k v Hk. unfold mergeMaps in Hk.
  apply lookup_union_Some_raw in Hk as [Hk|[_ Hk]]; eauto.
Qed.

Lemma allAssumedApplied_mergeMaps (a b : TerraformModulesMap) :
  allAssumedApplied a → allAssumedApplied b → allAssumedApplied (mergeMaps a b).
Proof.
  intros Ha Hb k v Hk. unfold mergeMaps in Hk.
  apply lookup_union_Some_raw in Hk as [Hk|[_ Hk]]; eauto.
Qed.

Section ResolverFacts.
Variable IgnoreExternalDependencies : bool.
Variable resolveDependenciesForModule :
  list event → TerraformModule → TerraformModulesMap →
  list TerraformModule + stackError.
Variable CloneWithConfigPath : string → option stackError.
Variable confirmShouldApplyExternalDependency :
  list event → TerraformModule → TerraformModule → bool + stackError.

Lemma externalDependencyStep_keyed module toSkip deps st dep st' ret :
  externalDependencyStep IgnoreExternalDependencies
    confirmShouldApplyExternalDependency module toSkip deps st dep = (st', ret) →
  keyedByPath st.1 → keyedByPath st'.1.
Proof.
  unfold externalDependencyStep. destruct st as [all log].
  destruct (toSkip !! Path dep); [by intros [= <- _]|].
  destruct (if negb IgnoreExternalDependencies then _ else _) as [[answer|err] log1].
  - intros [= <- _] Hk. cbn [fst] in *. intros k v Hv.
    destruct (decide (k = Path dep)) as [->|Hne].
    + rewrite lookup_insert_eq in Hv. by injection Hv as <-.
    + rewrite lookup_insert_ne in Hv by done. by apply Hk.
  - by intros [= <- _].
Qed.

Lemma forExternalDependencies_keyed module toSkip deps range :
  ∀ st st' ret,
    forExternalDependencies IgnoreExternalDependencies
      confirmShouldApplyExternalDependency module toSkip deps st range = (st', ret) →
    keyedByPath st.1 → keyedByPath st'.1.
Proof.
  induction range as [|dep range IH]; intros st st' ret; cbn [forExternalDependencies].
  { by intros [= <- _]. }
  destruct (externalDependencyStep _ _ _ _ _ st dep) as [st1 [r|]] eqn:Hstep.
  - intros [= <- _]. by eapply externalDependencyStep_keyed.
  - intros Hrest Hk. eapply IH; [exact Hrest|].
    by eapply externalDependencyStep_keyed.
Qed.

Lemma forModules_keyed modulesMap toSkip keys :
  ∀ st st' ret,
    forModules IgnoreExternalDependencies resolveDependenciesForModule
      CloneWithConfigPath confirmShouldApplyExternalDependency
      modulesMap toSkip st keys = (st', ret) →
    keyedByPath st.1 → keyedByPath st'.1.
Proof.
  induction keys as [|key keys IH]; intros st st' ret; cbn [forModules].
  { by intros [= <- _]. }
  destruct (modulesMap !! key) as [module|]; [|apply IH].
  destruct st as [all log].
  destruct (resolveDependenciesForModule log module toSkip) as [range|err];
    [|by intros [= <- _]].
  destruct (CloneWithConfigPath _); [by intros [= <- _]|].
  destruct (forExternalDependencies _ _ _ _ _ _ range) as [st1 [r|]] eqn:Hloop.
  - intros [= <- _] Hk. by eapply forExternalDependencies_keyed.
  - intros Hrest Hk. eapply IH; [exact Hrest|].
    by eapply forExternalDependencies_keyed.
Qed.

Lemma resolveLevels_keyed (levelsLeft : nat) :
  ∀ modulesMap processed level log result log',
    resolveLevels IgnoreExternalDependencies resolveDependenciesForModule
      CloneWithConfigPath confirmShouldApplyExternalDependency
      levelsLeft modulesMap processed level log = Some (result, None, log') →
    keyedByPath result.
Proof.
  induction levelsLeft as [|n IH]; intros modulesMap processed level log result log';
    cbn [resolveLevels]; destruct (maxLevelsOfRecursion <? level); try done.
  destruct (forModules _ _ _ _ _ _ _ _) as [[all log1] [[ret err]|]] eqn:Hloop;
    [done|].
  pose proof (forModules_keyed _ _ _ _ _ _ Hloop keyedByPath_empty) as Hall.
  cbn [fst] in Hall.
  destruct (0 <? size all)%nat; [|by intros [= <- _]].
  destruct (resolveLevels _ _ _ _ n all modulesMap (level + 1) log1)
    as [[[rec [e|]] log2]|] eqn:Hrec; try done.
  intros [= <- _]. apply keyedByPath_mergeMaps; [done|]. by eapply IH.
Qed.
End ResolverFacts.

(** X16.  When the resolver returns without error, every module of the map it
    returns is entered under its own path, whatever the callbacks
    returned. *)
Theorem resolved_dependencies_are_keyed_by_path :
  ∀ (IgnoreExternalDependencies : bool)
    (resolveDependenciesForModule :
       list event → TerraformModule → TerraformModulesMap →
       list TerraformModule + stackError)
    (CloneWithConfigPath : string → option stackError)
    (confirmShouldApplyExternalDependency :
       list event → TerraformModule → TerraformModule → bool + stackError)
    (modulesMap processed result : TerraformModulesMap) (level : Z)
    (log log' : list event),
    resolveExternalDependenciesForModules IgnoreExternalDependencies
      resolveDependenciesForModule CloneWithConfigPath
      confirmShouldApplyExternalDependency modulesMap processed level log
    = Some (result, None, log') →
    keyedByPath result.
Proof.
  intros ignore rd cl cf modulesMap processed result level log log' Hrun.
  by eapply resolveLevels_keyed.
Qed.

(** ** With [IgnoreExternalDependencies] *)

(** The loop over the external dependencies of one module, with the option
    on: no question is asked, a dependency that is not to be skipped is
    entered as applied already. *)
Definition skipOrAssume (toSkip : TerraformModulesMap)
    (allExternalDependencies : TerraformModulesMap) (range : list TerraformModule)
    : TerraformModulesMap :=
  fold_left
    (fun all dep =>
       match toSkip !! Path dep with
       | Some _ => all
       | None => <[Path dep := setAssumeAlreadyApplied true dep]> all
       end)
    range allExternalDependencies.

Lemma skipOrAssume_applied (toSkip : TerraformModulesMap) (range : list TerraformModule) :
  ∀ all, allAssumedApplied all → allAssumedApplied (skipOrAssume toSkip all range).
Proof.
  induction range as [|dep range IH]; intros all Hall; [done|].
  cbn [skipOrAssume fold_left]. apply IH.
  destruct (toSkip !! Path dep); [done|].
  intros k v Hv. destruct (decide (k = Path dep)) as [->|Hne].
  - rewrite lookup_insert_eq in Hv. by injection Hv as <-.
  - rewrite lookup_insert_ne in Hv by done. by eapply Hall.
Qed.

Section Ignoring.
Variable resolveDependenciesForModule :
  list event → TerraformModule → TerraformModulesMap →
  list TerraformModule + stackError.
Variable CloneWithConfigPath : string → option stackError.

Lemma forExternalDependencies_ignoring confirm module toSkip deps range :
  ∀ all log,
    forExternalDependencies true confirm module toSkip deps (all, log) range
    = ((skipOrAssume toSkip all range, log), None).
Proof.
  induction range as [|dep range IH]; intros all log; [done|].
  cbn [forExternalDependencies skipOrAssume fold_left].
  unfold externalDependencyStep. cbn [negb].
  destruct (toSkip !! Path dep); apply IH.
Qed.

Lemma forModules_ignoring confirm confirm' modulesMap toSkip keys :
  ∀ st,
    forModules true resolveDependenciesForModule CloneWithConfigPath confirm
      modulesMap toSkip st keys
    = forModules true resolveDependenciesForModule CloneWithConfigPath confirm'
        modulesMap toSkip st keys.
Proof.
  induction keys as [|key keys IH]; intros st; cbn [forModules]; [done|].
  destruct (modulesMap !! key) as [module|]; [|apply IH].
  destruct st as [all log].
  destruct (resolveDependenciesForModule log module toSkip) as [range|err]; [|done].
  destruct (CloneWithConfigPath _); [done|].
  rewrite !forExternalDependencies_ignoring. apply IH.
Qed.

Lemma forModules_ignoring_result confirm modulesMap toSkip keys :
  ∀ st st' ret,
    forModules true resolveDependenciesForModule CloneWithConfigPath confirm
      modulesMap toSkip st keys = (st', ret) →
    asksNothing st.2 st'.2
    ∧ (allAssumedApplied st.1 → allAssumedApplied st'.1).
Proof.
  induction keys as [|key keys IH]; intros st st' ret; cbn [forModules].
  { intros [= <- _]. split; [apply asksNothing_refl | done]. }
  destruct (modulesMap !! key) as [module|]; [|apply IH].
  destruct st as [all log].
  assert (Hone : asksNothing log (log ++ [EvResolve (Path module)])).
  { exists [EvResolve (Path module)]. split; [done|].
    intros m d He. apply list_elem_of_singleton in He. discriminate He. }
  destruct (resolveDependenciesForModule log module toSkip) as [range|err];
    [|by intros [= <- _]].
  destruct (CloneWithConfigPath _); [by intros [= <- _]|].
  rewrite forExternalDependencies_ignoring. intros Hrest.
  apply IH in Hrest as [Hlog Hall]. cbn [fst snd] in *. split.
  - by eapply asksNothing_trans.
  - intros H0. by apply Hall, skipOrAssume_applied.
Qed.

Lemma resolveLevels_ignoring confirm confirm' (levelsLeft : nat) :
  ∀ modulesMap processed level log,
    resolveLevels true resolveDependenciesForModule CloneWithConfigPath confirm
      levelsLeft modulesMap processed level log
    = resolveLevels true resolveDependenciesForModule CloneWithConfigPath confirm'
        levelsLeft modulesMap processed level log.
Proof.
  induction levelsLeft as [|n IH]; intros modulesMap processed level log;
    cbn [resolveLevels]; [done|].
  rewrite (forModules_ignoring confirm confirm').
  destruct (maxLevelsOfRecursion <? level); [done|].
  destruct (forModules _ _ _ _ _ _ _ _) as [[all log1] [[ret err]|]]; [done|].
  by rewrite IH.
Qed.

Lemma resolveLevels_ignoring_result confirm (levelsLeft : nat) :
  ∀ modulesMap processed level log result err log',
    resolveLevels true resolveDependenciesForModule CloneWithConfigPath confirm
      levelsLeft modulesMap processed level log = Some (result, err, log') →
    asksNothing log log' ∧ (err = None → allAssumedApplied result).
Proof.
  induction levelsLeft as [|n IH];
    intros modulesMap processed level log result err log';
    cbn [resolveLevels]; destruct (maxLevelsOfRecursion <? level); try done;
    try (intros [= <- <- <-]; split; [apply asksNothing_refl | done]).
  destruct (forModules _ _ _ _ _ _ _ _) as [[all log1] [[ret e]|]] eqn:Hloop.
  - apply forModules_ignoring_result in Hloop as [Hlog _].
    intros [= <- <- <-]. done.
  - apply forModules_ignoring_result in Hloop as [Hlog Hall].
    cbn [fst snd] in *.
    assert (Hall' : allAssumedApplied all).
    { apply Hall. intros k v Hk. by rewrite lookup_empty in Hk. }
    destruct (0 <? size all)%nat; [|by intros [= <- <- <-]].
    destruct (resolveLevels _ _ _ _ n all modulesMap (level + 1) log1)
      as [[[rec [e|]] log2]|] eqn:Hrec; [| |done].
    + apply IH in Hrec as [Hlog2 _]. intros [= <- <- <-].
      split; [by eapply asksNothing_trans | done].
    + apply IH in Hrec as [Hlog2 Hrec]. intros [= <- <- <-].
      split; [by eapply asksNothing_trans|]. intros _.
      apply allAssumedApplied_mergeMaps; auto.
Qed.
End Ignoring.

(** X17.  With [IgnoreExternalDependencies] the resolver asks no question: what
    it returns does not depend on the confirmation callback, no call of
    the callback is among the events it adds, and when it returns without
    error every module of the map it returns is taken to be applied
    already. *)
Theorem resolver_ignoring_external_dependencies :
  ∀ (resolveDependenciesForModule :
       list event → TerraformModule → TerraformModulesMap →
       list TerraformModule + stackError)
    (CloneWithConfigPath : string → option stackError)
    (confirm confirm' : list event → TerraformModule → TerraformModule →
                        bool + stackError)
    (modulesMap processed : TerraformModulesMap) (level : Z) (log : list event),
    resolveExternalDependenciesForModules true resolveDependenciesForModule
      CloneWithConfigPath confirm modulesMap processed level log
    = resolveExternalDependenciesForModules true resolveDependenciesForModule
        CloneWithConfigPath confirm' modulesMap processed level log
    ∧ ∀ result err log',
        resolveExternalDependenciesForModules true resolveDependenciesForModule
          CloneWithConfigPath confirm modulesMap processed level log
        = Some (result, err, log') →
        asksNothing log log' ∧ (err = None → allAssumedApplied result).
Proof.
  intros rd cl cf cf' modulesMap processed level log. split.
  - apply resolveLevels_ignoring.
  - intros result err log'. apply resolveLevels_ignoring_result.
Qed.

(** The module at [/work/app] with one dependency outside of the working
    directory, found when the module is resolved first. *)
Definition oneExternal (log : list event) (m : TerraformModule)
    (skip : TerraformModulesMap) : list TerraformModule + stackError :=
  match log with
  | [] => inl [mkModule "/ext/db" [] false false]
  | _ => inl []
  end.

Lemma oneExternal_run :
  resolveExternalDependenciesForModules true oneExternal (fun _ => None) sayYes
    appOnly ∅ 0 []
  = Some ({[ "/ext/db" := mkModule "/ext/db" [] true false ]}, None,
          [EvResolve "/work/app"; EvResolve "/ext/db"]).
Proof. vm_compute. reflexivity. Qed.

Lemma resolver_ignoring_external_dependencies_witness :
  asksNothing [] [EvResolve "/work/app"; EvResolve "/ext/db"]
  ∧ allAssumedApplied {[ "/ext/db" := mkModule "/ext/db" [] true false ]}.
Proof.
  destruct (resolver_ignoring_external_dependencies oneExternal (fun _ => None)
              sayYes sayYes appOnly ∅ 0 []) as [_ Hrun].
  destruct (Hrun _ _ _ oneExternal_run) as [Hlog Hall].
  split; [exact Hlog | by apply Hall].
Defined.

Lemma resolved_dependencies_are_keyed_by_path_witness :
  keyedByPath {[ "/ext/db" := mkModule "/ext/db" [] true false ]}.
Proof.
  exact (resolved_dependencies_are_keyed_by_path true oneExternal (fun _ => None)
           sayYes appOnly ∅ _ 0 [] _ oneExternal_run).
Defined.


(** ** Finding a module of the stack *)

(** [FindModuleByPath] on the modules of the stack: the first module of
    that path, [None] for [nil]. *)
Fixpoint FindModuleByPath (modules : list TerraformModule) (path : string)
    : option TerraformModule :=
  match modules with
  | [] => None
  | module :: rest =>
      if String.eqb (Path module) path then Some module
      else FindModuleByPath rest path
  end.

Lemma FindModuleByPath_None (modules : list TerraformModule) (path : string) :
  FindModuleByPath modules path = None ↔ path ∉ Path <$> modules.
Proof.
  induction modules as [|m modules IH]; simpl.
  - split; [intros _ H; inversion H | done].
  - destruct (String.eqb_spec (Path m) path) as [Heq|Hne].
    + split; [done|]. intros H. destruct H. rewrite Heq. left.
    + rewrite IH. rewrite not_elem_of_cons. naive_solver.
Qed.

Lemma FindModuleByPath_Some (modules : list TerraformModule) (path : string)
    (module : TerraformModule) :
  FindModuleByPath modules path = Some module →
  ∃ before after,
    modules = before ++ module :: after
    ∧ Path module = path
    ∧ ∀ m, m ∈ before → Path m ≠ path.
Proof.
  induction modules as [|m modules IH]; simpl; [done|].
  destruct (String.eqb_spec (Path m) path) as [Heq|Hne].
  - intros [= <-]. exists [], modules. split_and!; [done | done |].
    intros m' H. inversion H.
  - intros Hf. destruct (IH Hf) as (before & after & -> & Hp & Hb).
    exists (m :: before), after. split_and!; [done | done |].
    intros m' [->|Hm]%elem_of_cons; auto.
Qed.

(** X18.  [FindModuleByPath] returns [nil] exactly when no module of the stack
    has the path, and otherwise the first module of that path in the order
    of the stack. *)
Theorem FindModuleByPath_spec :
  ∀ (modules : list TerraformModule) (path : string),
    (FindModuleByPath modules path = None
     ∧ ∀ m, m ∈ modules → Path m ≠ path)
    ∨ (∃ module before after,
         FindModuleByPath modules path = Some module
         ∧ modules = before ++ module :: after
         ∧ Path module = path
         ∧ ∀ m, m ∈ before → Path m ≠ path).
Proof.
  intros modules path.
  destruct (FindModuleByPath modules path) as [module|] eqn:Hf.
  - right. apply FindModuleByPath_Some in Hf as (before & after & H).
    by exists module, before, after.
  - left. split; [done|]. apply FindModuleByPath_None in Hf.
    intros m Hm Hp. apply Hf. rewrite <- Hp. by apply list_elem_of_fmap_2.
Qed.

(** ** The keys and the members of the map of dependents *)

Lemma addDependent_dom (p : string) (deps : list string) :
  ∀ dm : DependentModules,
    dom (fold_left (addDependent p) deps dm) = list_to_set deps ∪ dom dm.
Proof.
  induction deps as [|dep deps IH]; intros dm; cbn [fold_left list_to_set].
  - set_solver.
  - rewrite IH. unfold addDependent. rewrite dom_insert_L. set_solver.
Qed.

Lemma initialDependents_dom (modules : list TerraformModule) (k : string) :
  k ∈ dom (initialDependents modules)
  ↔ ∃ module, module ∈ modules ∧ k ∈ Dependencies module.
Proof.
  unfold initialDependents.
  assert (Hgen : ∀ dm : DependentModules,
    k ∈ dom (fold_left (fun dependentModules module =>
                          fold_left (addDependent (Path module)) (Dependencies module)
                            dependentModules) modules dm)
    ↔ k ∈ dom dm ∨ ∃ module, module ∈ modules ∧ k ∈ Dependencies module).
  { induction modules as [|m modules IH]; intros dm; cbn [fold_left].
    - split; [by left|]. intros [H|(m & Hm & _)]; [done | inversion Hm].
    - rewrite IH, addDependent_dom, elem_of_union, elem_of_list_to_set. split.
      + intros [[H|H]|(m' & Hm' & Hk)].
        * right. exists m. split; [left | done].
        * by left.
        * right. exists m'. split; [by right | done].
      + intros [H|(m' & [->|Hm']%elem_of_cons & Hk)].
        * left. by right.
        * left. by left.
        * right. by exists m'. }
  rewrite Hgen, dom_empty_L. set_solver.
Qed.

Section Members.
Local Open Scope nat_scope.

Variable modules : list TerraformModule.
Variable schedule : nat → list string.
Hypothesis schedule_ranges :
  ∀ turn, rangeOrder (initialDependents modules) (schedule turn).

(** The loop ends, in a map that keeps the invariants of the turns. *)
Lemma ListStackDependentModules_ends :
  ∃ result : DependentModules,
    (∀ fuel,
       length (elements (dom (initialDependents modules))) * length modules + 2
       ≤ fuel →
       ListStackDependentModules fuel schedule modules = Some result)
    ∧ good modules result ∧ selfFree result.
Proof.
  pose proof (initial_good modules) as Hg0.
  pose proof (mergePass_good modules (schedule 0) (initialDependents modules, true) Hg0)
    as Hg1.
  pose proof (mergePass_selfFree modules (schedule 0) _ Hg0 (schedule_ranges 0))
    as Hsf1.
  unfold mergePass in Hsf1.
  destruct (fold_left visitModule (schedule 0) (initialDependents modules, true))
    as [dm1 nu] eqn:Hpass. cbn [fst] in *. destruct nu.
  - exists dm1. split_and!; [|done|done].
    intros [|fuel] Hf; [lia|]. unfold ListStackDependentModules.
    cbn [mergeUntilStable]. unfold mergePass. by rewrite Hpass.
  - destruct (mergeUntilStable_clean modules schedule schedule_ranges
                (length (elements (dom (initialDependents modules))) * length modules)
                dm1 1 Hg1 Hsf1 ltac:(lia))
      as (res & Hres & Hg & Hsf & _).
    exists res. split_and!; [|done|done].
    intros [|fuel] Hf; [lia|]. unfold ListStackDependentModules.
    cbn [mergeUntilStable]. unfold mergePass. rewrite Hpass.
    apply Hres. lia.
Qed.

(** X19.  The map [ListStackDependentModules] returns has a key for a path
    exactly when some module of the stack lists the path among its
    dependencies, so a module nothing depends on has no entry; under a
    key it holds every module that depends on it directly, the module
    itself left out, also in a stack with modules that depend on
    themselves; and every module it lists is a module of the stack, which
    [FindModuleByPath] finds. *)
Theorem ListStackDependentModules_keys_and_members :
  ∃ result : DependentModules,
    (∀ fuel,
       length (elements (dom (initialDependents modules))) * length modules + 2
       ≤ fuel →
       ListStackDependentModules fuel schedule modules = Some result)
    ∧ (∀ m, is_Some (result !! m)
            ↔ ∃ module, module ∈ modules ∧ m ∈ Dependencies module)
    ∧ (∀ m d, dependsOn modules m d → d ≠ m → d ∈ result !!! m)
    ∧ (∀ m d, d ∈ result !!! m →
              ∃ module, FindModuleByPath modules d = Some module
                        ∧ Path module = d).
Proof.
  destruct ListStackDependentModules_ends as (result & Hrun & Hg & _).
  exists result. split_and!; [exact Hrun | | |].
  - intros m. destruct Hg as (_ & _ & _ & Hdom).
    rewrite <- elem_of_dom, Hdom. apply initialDependents_dom.
  - intros m d Hd Hne. destruct Hg as (_ & _ & Hbase & _).
    by destruct (Hbase m d Hd).
  - intros m d Hd. destruct Hg as (_ & Hsound & _).
    pose proof (dependent_path modules m d (Hsound m d Hd)) as Hpath.
    destruct (FindModuleByPath modules d) as [module|] eqn:Hf.
    + exists module. split; [done|].
      by apply FindModuleByPath_Some in Hf as (_ & _ & _ & Hp & _).
    + by apply FindModuleByPath_None in Hf.
Qed.
End Members.

Lemma ListStackDependentModules_keys_and_members_witness :
  (∀ turn : nat, rangeOrder (initialDependents selfDependent) ["A"; "B"; "C"])
  ∧ ∃ result : DependentModules,
      ListStackDependentModules 14 (fun _ => ["A"; "B"; "C"]) selfDependent
      = Some result
      ∧ result !! "D" = None
      ∧ "B" ∈ result !!! "A".
Proof.
  assert (Hr : ∀ turn : nat,
             rangeOrder (initialDependents selfDependent) ["A"; "B"; "C"]).
  { intros _. unfold rangeOrder. vm_compute. solve_Permutation. }
  split; [exact Hr|].
  destruct (ListStackDependentModules_keys_and_members selfDependent
              (fun _ => ["A"; "B"; "C"]) Hr) as (result & Hrun & Hkeys & Hdirect & _).
  exists result. split_and!.
  - apply Hrun. vm_compute. lia.
  - destruct (result !! "D") as [l|] eqn:HD; [|done].
    assert (HS : is_Some (result !! "D")) by (by rewrite HD).
    apply Hkeys in HS as (module & Hm & Hdep).
    repeat (apply elem_of_cons in Hm as [->|Hm];
            [repeat (apply elem_of_cons in Hdep as [Hdep|Hdep];
                     [discriminate Hdep|]); inversion Hdep|]).
    inversion Hm.
  - apply Hdirect; [|discriminate].
    exists (mkModule "B" ["A"; "B"] false false).
    split_and!; [repeat constructor | done | repeat constructor].
Defined.


(** * A summary before any run has ended *)

(** X20.  A run that has not been ended has the zero time as [Ended].  When no
    run of a report has been ended and the runs started at least 2^63
    nanoseconds after the zero time (that is, not before the year 293), the
    total duration of the summary is the least [Duration] there is, and
    the duration printed without colours is this number in microseconds. *)
Theorem Summary_before_any_run_has_ended :
  ∀ (ansi_ColorFunc : string → string → string) (secondsOf minutesOf : Z → Z)
    (h : Store) (envPadder : string) (r : Report),
    Runs r ≠ [] →
    (∀ p, p ∈ Runs r →
       Run.Ended (h p) = zeroTime ∧ 2 ^ 63 ≤ instant (Run.Started (h p))) →
    TotalDuration h (Summarize h envPadder r) = minDuration
    ∧ TotalDurationString secondsOf minutesOf h (Summarize h envPadder r)
        (NewColorizer ansi_ColorFunc false)
      = "-9223372036854775" +:+ String "194" (String "181" "s").
Proof.
  intros ansi sec min h env r Hne Hruns.
  assert (Hduration : TotalDuration h (Summarize h env r) = minDuration).
  { rewrite Summarize_fold.
    set (s0 := mkSummary _ _ _ _ _ _ _ _ _).
    pose proof (fold_Update_first h (Runs r) s0) as Hf.
    pose proof (fold_Update_last h (Runs r) s0) as Hl.
    unfold TotalDuration.
    destruct (firstRunStart (fold_left (Update h) (Runs r) s0)) as [first|];
      [|by destruct Hf].
    destruct (lastRunEnd (fold_left (Update h) (Runs r) s0)) as [last|];
      [|by destruct Hl].
    destruct Hf as ([?|Hf] & _); [done|].
    destruct Hl as ([?|Hl] & _); [done|].
    destruct (Hruns first Hf) as [_ Hstart].
    destruct (Hruns last Hl) as [-> _].
    rewrite Time_Sub_clamp. unfold clampDuration, minDuration, maxDuration in *.
    cbn [instant zeroTime]. lia. }
  split; [exact Hduration|].
  unfold TotalDurationString. rewrite Hduration. reflexivity.
Qed.

Lemma Summary_before_any_run_has_ended_witness :
  Runs (mkReport [0%nat] true) ≠ []
  ∧ TotalDuration startedNotEnded (Summarize startedNotEnded "" (mkReport [0%nat] true))
    = minDuration.
Proof.
  split; [discriminate|].
  apply (Summary_before_any_run_has_ended (fun _ s => s) (fun d => d) (fun d => d)
           startedNotEnded "" (mkReport [0%nat] true)).
  - discriminate.
  - intros p _. split; [reflexivity|]. vm_compute. discriminate.
Defined.


(** * The order of deployment as JSON *)

From Stdlib Require DecimalPos DecimalZ.

(** [strconv.Itoa] gives different texts for different numbers. *)
Lemma Itoa_inj (a b : Z) : Itoa a = Itoa b → a = b.
Proof.
  unfold Itoa. intros Heq.
  assert (Hnonnil : ∀ z, Z.to_int z ≠ Decimal.Pos Decimal.Nil
                         ∧ Z.to_int z ≠ Decimal.Neg Decimal.Nil).
  { intros [|p|p]; simpl; split; try discriminate; intros [= Hp];
      by apply DecimalPos.Unsigned.to_uint_nonnil in Hp. }
  destruct (Hnonnil a) as [Ha1 Ha2]. destruct (Hnonnil b) as [Hb1 Hb2].
  pose proof (DecimalString.NilZero.isi _ Ha1 Ha2) as Ha.
  pose proof (DecimalString.NilZero.isi _ Hb1 Hb2) as Hb.
  rewrite Heq, Hb in Ha. injection Ha as Ha.
  by rewrite <- (DecimalZ.of_to a), <- (DecimalZ.of_to b), Ha.
Qed.

Lemma append_inj_r (p a b : string) : p +:+ a = p +:+ b → a = b.
Proof.
  induction p as [|c p IH]; [done|]. rewrite !append_cons. intros [= H]. auto.
Qed.

(** The order in which the modules of a stack are run. *)
Inductive DependencyOrder := NormalOrder | ReverseOrder.

Section DeployOrder.
(** What is defined elsewhere: the name of the destroy command
    ([tf.CommandNameDestroy]), [TerraformModules.ToRunningModules] on the
    modules of the stack, [RunningModules.toTerraformModuleGroups] and
    [json.MarshalIndent] with prefix [""] and indent ["  "]. *)
Variable CommandNameDestroy : string.
Variable RunningModules : Type.
Variable ToRunningModules : DependencyOrder → RunningModules + stackError.
Variable toTerraformModuleGroups :
  RunningModules → Z → list (list TerraformModule).
Variable json_MarshalIndent : gmap string (list string) → string + stackError.

Definition toRunningModules (terraformCommand : string)
    : RunningModules + stackError :=
  if String.eqb terraformCommand CommandNameDestroy
  then ToRunningModules ReverseOrder
  else ToRunningModules NormalOrder.

Definition GetModuleRunGraph (terraformCommand : string)
    : list (list TerraformModule) + stackError :=
  match toRunningModules terraformCommand with
  | inr err => inr err
  | inl moduleRunGraph =>
      let maxDepth := 1000 in
      inl (toTerraformModuleGroups moduleRunGraph maxDepth)
  end.

(** The loop of [JSONModuleDeployOrder] from the group of index [i] on. *)
Fixpoint groupsFrom (i : nat) (runGraph : list (list TerraformModule))
    (jsonGraph : gmap string (list string)) : gmap string (list string) :=
  match runGraph with
  | [] => jsonGraph
  | group :: rest =>
      let groupNum := "Group " +:+ Itoa (Z.of_nat i + 1) in
      groupsFrom (S i) rest (<[groupNum := map Path group]> jsonGraph)
  end.

(** [JSONModuleDeployOrder]; the stack trace [errors.New] adds to an
    error is left out. *)
Definition JSONModuleDeployOrder (terraformCommand : string)
    : string * option stackError :=
  match GetModuleRunGraph terraformCommand with
  | inr err => ("", Some err)
  | inl runGraph =>
      let jsonGraph := groupsFrom 0 runGraph ∅ in
      match json_MarshalIndent jsonGraph with
      | inr err => ("", Some err)
      | inl j => (j, None)
      end
  end.

Lemma groupsFrom_lookup (runGraph : list (list TerraformModule)) :
  ∀ (i : nat) (jsonGraph : gmap string (list string)) (n : nat),
    groupsFrom i runGraph jsonGraph !! ("Group " +:+ Itoa (Z.of_nat n + 1))
    = if decide (i ≤ n < i + length runGraph)%nat
      then map Path <$> runGraph !! (n - i)%nat
      else jsonGraph !! ("Group " +:+ Itoa (Z.of_nat n + 1)).
Proof.
  induction runGraph as [|group rest IH]; intros i jsonGraph n;
    cbn [groupsFrom length].
  { rewrite decide_False by lia. done. }
  rewrite IH. destruct (decide (n = i)) as [->|Hne].
  - rewrite decide_False by lia. rewrite decide_True by lia.
    rewrite lookup_insert_eq, Nat.sub_diag. done.
  - rewrite lookup_insert_ne.
    2:{ intros Heq. apply append_inj_r, Itoa_inj in Heq. lia. }
    destruct (decide (S i ≤ n < S i + length rest)%nat).
    + rewrite decide_True by lia.
      replace (n - i)%nat with (S (n - S i)) by lia. done.
    + rewrite decide_False by lia. done.
Qed.

Lemma groupsFrom_keys (runGraph : list (list TerraformModule)) :
  ∀ (i : nat) (jsonGraph : gmap string (list string)) (key : string),
    is_Some (groupsFrom i runGraph jsonGraph !! key) →
    is_Some (jsonGraph !! key)
    ∨ ∃ n, (i ≤ n < i + length runGraph)%nat
           ∧ key = "Group " +:+ Itoa (Z.of_nat n + 1).
Proof.
  induction runGraph as [|group rest IH]; intros i jsonGraph key;
    cbn [groupsFrom length]; [by left|].
  intros Hk. apply IH in Hk as [Hk|(n & Hn & ->)].
  - destruct (decide (key = "Group " +:+ Itoa (Z.of_nat i + 1))) as [->|Hne].
    + right. exists i. split; [lia | done].
    + left. by rewrite lookup_insert_ne in Hk.
  - right. exists n. split; [lia | done].
Qed.

(** X21.  The object [JSONModuleDeployOrder] hands to [json.MarshalIndent] has
    one member per group of the run graph: the group at position [n],
    counted from 0, is found under the key [Group n+1] as the list of the
    paths of its modules in order, no group takes the place of another,
    and there is no other member.  An error of the run graph or of the
    marshalling is returned with the empty string. *)
Theorem JSONModuleDeployOrder_groups :
  ∀ terraformCommand : string,
    match GetModuleRunGraph terraformCommand with
    | inr err => JSONModuleDeployOrder terraformCommand = ("", Some err)
    | inl runGraph =>
        ∃ jsonGraph,
          JSONModuleDeployOrder terraformCommand
          = match json_MarshalIndent jsonGraph with
            | inr err => ("", Some err)
            | inl j => (j, None)
            end
          ∧ (∀ (n : nat) group,
               runGraph !! n = Some group →
               jsonGraph !! ("Group " +:+ Itoa (Z.of_nat n + 1))
               = Some (map Path group))
          ∧ (∀ key, is_Some (jsonGraph !! key) →
                    ∃ n, (n < length runGraph)%nat
                         ∧ key = "Group " +:+ Itoa (Z.of_nat n + 1))
          ∧ size jsonGraph = length runGraph
    end.
Proof.
  intros cmd. unfold JSONModuleDeployOrder.
  destruct (GetModuleRunGraph cmd) as [runGraph|err]; [|done].
  exists (groupsFrom 0 runGraph ∅). split_and!; [done | | |].
  - intros n group Hn. rewrite groupsFrom_lookup.
    pose proof (lookup_lt_Some _ _ _ Hn).
    rewrite decide_True by lia. by rewrite Nat.sub_0_r, Hn.
  - intros key Hk. apply groupsFrom_keys in Hk as [Hk|(n & Hn & ->)].
    + rewrite lookup_empty in Hk. by destruct Hk.
    + exists n. split; [lia | done].
  - assert (Hdom : dom (groupsFrom 0 runGraph ∅)
                   = list_to_set ((fun n => "Group " +:+ Itoa (Z.of_nat n + 1))
                                    <$> seq 0 (length runGraph))).
    { apply set_eq. intros key.
      rewrite elem_of_dom, elem_of_list_to_set, list_elem_of_fmap. split.
      - intros Hk. apply groupsFrom_keys in Hk as [Hk|(n & Hn & ->)].
        + rewrite lookup_empty in Hk. by destruct Hk.
        + exists n. split; [done|]. apply elem_of_seq. lia.
      - intros (n & -> & Hn%elem_of_seq). rewrite groupsFrom_lookup.
        rewrite decide_True by lia.
        destruct (lookup_lt_is_Some_2 runGraph (n - 0)) as [g ->]; [lia|].
        by eexists. }
    rewrite <- size_dom, Hdom, size_list_to_set.
    + by rewrite length_fmap, length_seq.
    + apply NoDup_fmap_2; [|apply NoDup_seq].
      intros a b Heq. apply append_inj_r, Itoa_inj in Heq. lia.
Qed.
End DeployOrder.


(** * A sequence of registrations, and a run that was not ended *)

Lemma AddRuns_findRun (h : Store) (path : string) (runs : list ptr) :
  ∀ r : Report,
    findRun h path (Runs (AddRuns h r runs)) = findRun h path (Runs r ++ runs).
Proof.
  induction runs as [|x runs IH]; intros r; cbn [AddRuns fold_left].
  { by rewrite app_nil_r. }
  change (fold_left (fun acc run => (AddRun h acc run).1) runs (AddRun h r x).1)
    with (AddRuns h (AddRun h r x).1 runs).
  rewrite IH. unfold AddRun.
  destruct (findRun h (Run.Name (h x)) (Runs r)) as [q|] eqn:Hx; cbn [fst Runs setRuns].
  - rewrite !findRun_app. destruct (findRun h path (Runs r)) as [p|] eqn:Hp; [done|].
    cbn [findRun].
    destruct (String.eqb_spec (Run.Name (h x)) path) as [Heq|Hne]; [|done].
    rewrite Heq in Hx. congruence.
  - by rewrite <- app_assoc.
Qed.

Lemma AddRuns_sublist (h : Store) (runs : list ptr) :
  ∀ r : Report, ∃ added, Runs (AddRuns h r runs) = Runs r ++ added ∧ sublist added runs.
Proof.
  induction runs as [|x runs IH]; intros r; cbn [AddRuns fold_left].
  { exists []. by rewrite app_nil_r. }
  change (fold_left (fun acc run => (AddRun h acc run).1) runs (AddRun h r x).1)
    with (AddRuns h (AddRun h r x).1 runs).
  destruct (IH (AddRun h r x).1) as (added & -> & Hsub). unfold AddRun.
  destruct (findRun h (Run.Name (h x)) (Runs r)); cbn [fst Runs setRuns].
  - exists added. split; [done|]. by apply sublist_cons.
  - exists (x :: added). split; [by rewrite <- app_assoc|]. by apply sublist_skip.
Qed.

(** X22.  After any sequence of [AddRun] calls on a new report, whatever each
    call returned, the report holds runs of the sequence in the order of
    the calls, and a lookup by name gives the first run of that name in the
    sequence: a later run of a name that is taken never replaces the
    earlier one. *)
Theorem AddRun_first_registration_wins :
  ∀ (h : Store) (runs : list ptr),
    sublist (Runs (AddRuns h NewReport runs)) runs
    ∧ (∀ path, findRun h path (Runs (AddRuns h NewReport runs)) = findRun h path runs)
    ∧ ∀ path, GetRun h (AddRuns h NewReport runs) path
              = if negb (IsAbs path) then inr ErrPathMustBeAbsolute
                else match findRun h path runs with
                     | Some run => inl run
                     | None => inr (ErrRunNotFound path)
                     end.
Proof.
  intros h runs. split_and!.
  - destruct (AddRuns_sublist h runs NewReport) as (added & -> & Hsub). done.
  - intros path. by rewrite AddRuns_findRun.
  - intros path. unfold GetRun. by rewrite AddRuns_findRun.
Qed.

(** X23.  A run that [NewRun] made and that was not ended is exported with the
    zero time as [Ended], printed [0001-01-01T00:00:00Z], and with an empty
    result, reason and cause. *)
Theorem run_not_ended_is_exported_with_the_zero_time :
  ∀ (now : Time) (path : string) (run : Run.t),
    NewRun now path = inl run →
    csvRow run
    = [path; Time_Format_RFC3339 now; "0001-01-01T00:00:00Z"; ""; ""; ""].
Proof.
  intros now path run Hnew. apply NewRun_inl in Hnew as [_ ->]. reflexivity.
Qed.

Lemma run_not_ended_is_exported_with_the_zero_time_witness :
  NewRun sampleStart "/stack/app" = inl (freshStore 0%nat)
  ∧ csvRow (freshStore 0%nat)
    = ["/stack/app"; "2025-01-01T00:00:00Z"; "0001-01-01T00:00:00Z"; ""; ""; ""].
Proof.
  assert (Hnew : NewRun sampleStart "/stack/app" = inl (freshStore 0%nat))
    by reflexivity.
  split; [exact Hnew|].
  rewrite (run_not_ended_is_exported_with_the_zero_time sampleStart "/stack/app"
             (freshStore 0%nat) Hnew).
  reflexivity.
Defined.
